(** * LogSentinel Express SDK: queue, dispatcher and sanitizer

    A shallow embedding of [src/core/sender.ts] (the queue and the
    dispatcher), [src/utils/formatter.ts] (the sanitizer, the size cap,
    the header filter and the content-type tests), [src/core/config.ts]
    (the loader) and of [generateRequestId] of the middleware, with the
    properties of the batching engine and of the payload sanitizer stated
    and proved over it.

    Conventions of the embedding.
    - JavaScript strings are [string]s (sequences of 8-bit characters);
      [String.length] stands for the [length] property.
    - A JavaScript value is a primitive or a reference into a heap of arrays
      and plain objects, so that aliasing and cycles are representable.  An
      object is the ordered list of its own enumerable data properties, as
      [Object.entries] lists them (no name twice, in an object of
      JavaScript; assignments made in the order of such a list are listed
      in that order again).  An assignment [o[k] = v] to an object made by
      the literal [{}] changes the entry of [k] or appends one, except for
      the name [__proto__], which such an object inherits as an accessor:
      the assignment then creates no own property.  The prototype of an
      object is not represented: what an object inherits is neither listed
      by [Object.entries] nor printed by [JSON.stringify].  Numbers are the
      integers that a double holds exactly and that print in full, those
      below [2^53] in absolute value.
    - The module-level regular expressions of [SENSITIVE_PATTERNS] carry the
      [g] flag, so [RegExp.prototype.test] reads and writes their
      [lastIndex]; the list of expressions is threaded as state.
    - A recursive JavaScript function runs on a finite call stack; a call
      that finds no frame left raises (a [RangeError]), which the embedding
      renders as [None] in a state-and-exception monad.
    - Asynchronous code is a function from an oracle of the environment
      (network answers, clock, random source) to the trace of its effects
      and the way its promise settles.  The queue is a machine whose events
      are the calls of the host, the ticks of the timer, the signals and the
      settling of the promises of [sendBatch]. *)

From Stdlib Require Import String Ascii ZArith Lia.
From stdpp Require Import gmap strings list pretty.
From Equations Require Import Equations.

Set Warnings "-clear-no-such-hyp,-abstract-large-number".

Local Open Scope string_scope.
Local Open Scope list_scope.
Local Open Scope nat_scope.

(** ** Strings *)

Module Str.

Definition is_upper (c : ascii) : bool :=
  let n := nat_of_ascii c in (65 <=? n)%nat && (n <=? 90)%nat.

Definition lower_char (c : ascii) : ascii :=
  if is_upper c then ascii_of_nat (nat_of_ascii c + 32) else c.

(** [String.prototype.toLowerCase], on the ASCII letters. *)
Fixpoint toLowerCase (s : string) : string :=
  match s with
  | EmptyString => EmptyString
  | String c s' => String (lower_char c) (toLowerCase s')
  end.

(** [hay.includes(needle)] *)
Fixpoint includes (hay needle : string) : bool :=
  String.prefix needle hay ||
  match hay with
  | EmptyString => false
  | String _ hay' => includes hay' needle
  end.

(** [s.substring(0, n)] *)
Definition take (n : nat) (s : string) : string := String.substring 0 n s.

Fixpoint replicate (n : nat) (c : ascii) : string :=
  match n with
  | O => EmptyString
  | S k => String c (replicate k c)
  end.

Fixpoint join (sep : string) (l : list string) : string :=
  match l with
  | [] => ""
  | [x] => x
  | x :: l' => x +:+ sep +:+ join sep l'
  end.

End Str.

(** ** Regular expressions with the [g] and [i] flags *)

Module Regex.

(** The expressions of the source are sequences of literal characters and
    optional character classes ([[_-]?]). *)
Inductive Atom :=
| Lit (c : ascii)
| Opt (cs : list ascii).

Record RegExp := mkRegExp { source : list Atom; lastIndex : nat }.

(** Canonicalisation of the [i] flag. *)
Definition same_char (a b : ascii) : bool :=
  Ascii.eqb (Str.lower_char a) (Str.lower_char b).

Definition in_class (cs : list ascii) (x : ascii) : bool :=
  existsb (same_char x) cs.

(** Match the atoms at the head of [s]; the number of characters
    consumed.  An optional class is greedy and backtracks. *)
Fixpoint match_here (re : list Atom) (s : list ascii) : option nat :=
  match re with
  | [] => Some 0
  | Lit c :: re' =>
      match s with
      | x :: s' => if same_char c x then S <$> match_here re' s' else None
      | [] => None
      end
  | Opt cs :: re' =>
      let taken :=
        match s with
        | x :: s' => if in_class cs x then S <$> match_here re' s' else None
        | [] => None
        end in
      match taken with
      | Some n => Some n
      | None => match_here re' s
      end
  end.

(** Scan forward from position [pos], whose suffix is [s]; the end index
    of the first match. *)
Fixpoint exec_from (re : list Atom) (s : list ascii) (pos : nat) : option nat :=
  match match_here re s with
  | Some n => Some (pos + n)
  | None =>
      match s with
      | [] => None
      | _ :: s' => exec_from re s' (S pos)
      end
  end.

(** [r.test(s)] for a global expression: the search starts at
    [r.lastIndex]; a match moves [lastIndex] to its end, a failure resets
    it to 0. *)
Definition test (r : RegExp) (s : string) : bool * RegExp :=
  let cs := list_ascii_of_string s in
  if (length cs <? lastIndex r)%nat then (false, mkRegExp (source r) 0)
  else
    match exec_from (source r) (drop (lastIndex r) cs) (lastIndex r) with
    | Some e => (true, mkRegExp (source r) e)
    | None => (false, mkRegExp (source r) 0)
    end.

Definition lits (s : string) : list Atom := Lit <$> list_ascii_of_string s.

Definition fresh (re : list Atom) : RegExp := mkRegExp re 0.

(** [patterns.some(pattern => pattern.test(key))]: left to right, stopping
    at the first expression that matches. *)
Fixpoint some_test (ps : list RegExp) (key : string) : bool * list RegExp :=
  match ps with
  | [] => (false, [])
  | p :: ps' =>
      let '(b, p') := test p key in
      if b then (true, p' :: ps')
      else let '(b', ps'') := some_test ps' key in (b', p' :: ps'')
  end.

End Regex.

Import Regex.

(** ** State with exceptions

    [M S A] is a computation over a mutable state [S] that returns an [A] or
    raises; the state reached when the exception is raised is kept, as the
    mutations of a JavaScript function survive its [throw]. *)

Module Exn.

Section monad.
Context {S : Type}.

Definition M (A : Type) : Type := S → option A * S.

Definition ret {A} (x : A) : M A := λ s, (Some x, s).

Definition raise {A} : M A := λ s, (None, s).

Definition bind {A B} (c : M A) (k : A → M B) : M B :=
  λ s, match c s with
       | (Some x, s') => k x s'
       | (None, s') => (None, s')
       end.

Definition gets {A} (f : S → A) : M A := λ s, (Some (f s), s).

Definition modify (f : S → S) : M unit := λ s, (Some (), f s).

(** [l.map(f)], left to right; the first exception ends the loop. *)
Fixpoint mapM {A B} (f : A → M B) (l : list A) : M (list B) :=
  match l with
  | [] => ret []
  | x :: l' =>
      bind (f x) (λ y, bind (mapM f l') (λ ys, ret (y :: ys)))
  end.
End monad.

Arguments M : clear implicits.

End Exn.

Import Exn.

Notation "x <- c ;; k" := (bind c (λ x, k))
  (at level 100, c at next level, right associativity, only parsing).
Notation "c ;;; k" := (bind c (λ _, k))
  (at level 100, right associativity, only parsing).

(** ** JavaScript values *)

Definition addr := nat.

Inductive Prim :=
| PUndefined
| PNull
| PBool (b : bool)
| PNum (n : Z)
| PStr (s : string).

Inductive Value :=
| VPrim (p : Prim)
| VRef (a : addr).

Inductive Obj :=
| OArr (items : list Value)
| OObj (props : list (string * Value)).

(** The heap; an address it does not map stands for an object without own
    enumerable properties. *)
Abbreviation Heap := (gmap addr Obj).

Definition deref (h : Heap) (a : addr) : Obj := default (OObj []) (h !! a).

(** A value built afresh by the code: no part of it is shared. *)
#[warnings="-register-all"] Inductive Tree :=
| TPrim (p : Prim)
| TArr (items : list Tree)
| TObj (props : list (string * Tree)).

Definition TStr (s : string) : Tree := TPrim (PStr s).

(** The name under which an object reads and writes its prototype. *)
Definition PROTO : string := "__proto__".

(** [o[key] = value] for a name that [o] has or can take as an own
    property: the entry is changed in place, or added last. *)
Fixpoint set_own {A} (o : list (string * A)) (key : string) (value : A)
    : list (string * A) :=
  match o with
  | [] => [(key, value)]
  | kv :: o' =>
      if String.eqb (fst kv) key then (fst kv, value) :: o'
      else kv :: set_own o' key value
  end.

(** [o[key] = value] on an object whose prototype chain ends in
    [Object.prototype] and whose own properties, all made by such
    assignments, are [o].  The name [__proto__] is inherited as an
    accessor, whose setter changes the prototype when [value] is an object
    or [null] and does nothing otherwise: [o] gets no own property either
    way. *)
Definition assign {A} (o : list (string * A)) (key : string) (value : A)
    : list (string * A) :=
  if String.eqb key PROTO then o else set_own o key value.

(** The own properties of [{}] after the assignments [entries], in order. *)
Definition assign_all {A} (entries : list (string * A)) : list (string * A) :=
  fold_left (λ o kv, assign o (fst kv) (snd kv)) entries [].

(** [!!v] *)
Definition truthy_prim (p : Prim) : bool :=
  match p with
  | PUndefined | PNull => false
  | PBool b => b
  | PNum n => negb (n =? 0)%Z
  | PStr s => negb (String.eqb s "")
  end.

Definition truthy (v : Value) : bool :=
  match v with
  | VPrim p => truthy_prim p
  | VRef _ => true
  end.

Definition truthy_tree (t : Tree) : bool :=
  match t with
  | TPrim p => truthy_prim p
  | _ => true
  end.

(** ** [JSON.stringify] *)

Module JSON.

Definition hex_digit (n : nat) : ascii :=
  ascii_of_nat (if (n <? 10)%nat then 48 + n else 87 + n).

(** One character of [QuoteJSONString]. *)
Definition escape (c : ascii) : string :=
  let n := nat_of_ascii c in
  if (n =? 34)%nat then "\" +:+ String c ""
  else if (n =? 92)%nat then "\\"
  else if (n =? 8)%nat then "\b"
  else if (n =? 12)%nat then "\f"
  else if (n =? 10)%nat then "\n"
  else if (n =? 13)%nat then "\r"
  else if (n =? 9)%nat then "\t"
  else if (n <? 32)%nat then
    "\u00" +:+ String (hex_digit (n / 16)) (String (hex_digit (n mod 16)) "")
  else String c "".

Fixpoint escape_all (s : string) : string :=
  match s with
  | EmptyString => ""
  | String c s' => escape c +:+ escape_all s'
  end.

Definition quote (s : string) : string :=
  String "034" (escape_all s) +:+ String "034" "".

(** [JSON.stringify(t)] without a replacer; [None] is [undefined].  A
    property whose value is [undefined] is left out of an object and
    printed as [null] in an array.  A number is printed in full, as
    JavaScript prints the integers below [10^21] in absolute value. *)
Fixpoint stringify (t : Tree) : option string :=
  match t with
  | TPrim PUndefined => None
  | TPrim PNull => Some "null"
  | TPrim (PBool b) => Some (if b then "true" else "false")
  | TPrim (PNum n) => Some (pretty n)
  | TPrim (PStr s) => Some (quote s)
  | TArr items =>
      Some ("[" +:+
            Str.join "," (map (λ x, default "null" (stringify x)) items)
            +:+ "]")
  | TObj props =>
      Some ("{" +:+
            Str.join ","
              (omap (λ kv, (λ s, quote (fst kv) +:+ ":" +:+ s)
                             <$> stringify (snd kv)) props)
            +:+ "}")
  end.

End JSON.

(** ** [src/utils/formatter.ts] *)

(** Maximum size for request/response bodies (10KB) *)
Definition MAX_BODY_SIZE : nat := 10 * 1024.

(** Sensitive data patterns to redact from logs, as the module creates
    them: every [lastIndex] is 0. *)
Definition SENSITIVE_PATTERNS : list RegExp :=
  [ fresh (lits "password");
    fresh (lits "token");
    fresh (lits "api" ++ [Opt ["_"; "-"]%char] ++ lits "key");
    fresh (lits "secret");
    fresh (lits "authorization");
    fresh (lits "bearer");
    fresh (lits "auth");
    fresh (lits "credit" ++ [Opt ["_"; "-"]%char] ++ lits "card");
    fresh (lits "ssn");
    fresh (lits "social" ++ [Opt ["_"; "-"]%char] ++ lits "security") ].

Definition REDACTED : string := "[REDACTED]".
Definition CIRCULAR : string := "[Circular Reference]".

(** The state [recursiveSanitize] works on: the [WeakSet] of its call and
    the expressions of the module. *)
Record San := mkSan { seen : gset addr; patterns : list RegExp }.

Definition seen_has (a : addr) : M San bool :=
  gets (λ s, bool_decide (a ∈ seen s)).

Definition seen_add (a : addr) : M San unit :=
  modify (λ s, mkSan ({[a]} ∪ seen s) (patterns s)).

(** [SENSITIVE_PATTERNS.some(pattern => pattern.test(key))] *)
Definition isSensitive (key : string) : M San bool :=
  λ s, let '(b, ps) := some_test (patterns s) key in (Some b, mkSan (seen s) ps).

(** The body of the loop over [Object.entries(obj)], for one entry: the
    key and the value that the round assigns to [sanitized[key]]; [recur]
    is the recursive call. *)
Definition sanitize_entry (recur : Value → M San Tree) (kv : string * Value)
    : M San (string * Tree) :=
  sensitive <- isSensitive (fst kv) ;;
  if sensitive : bool then ret (fst kv, TStr REDACTED)
  else
    match snd kv with
    | VRef _ => t <- recur (snd kv) ;; ret (fst kv, t)
    | VPrim p => ret (fst kv, TPrim p)
    end.

(** Recursively sanitize an object with circular reference detection.
    [stack] is the number of frames left on the call stack.  The rounds of
    the loop over an object run in order, each with its test and its
    recursive call; [sanitized], which no round reads, is what their
    assignments leave of [{}]. *)
Fixpoint recursiveSanitize (stack : nat) (h : Heap) (obj : Value) : M San Tree :=
  match stack with
  | O => raise
  | S frames =>
      match obj with
      | VPrim p => ret (TPrim p)
      | VRef a =>
          visited <- seen_has a ;;
          if visited : bool then ret (TStr CIRCULAR)
          else
            seen_add a ;;;
            match deref h a with
            | OArr items =>
                ts <- mapM (recursiveSanitize frames h) items ;;
                ret (TArr ts)
            | OObj props =>
                assigned <-
                  mapM (sanitize_entry (recursiveSanitize frames h)) props ;;
                ret (TObj (assign_all assigned))
            end
      end
  end.

Definition SANITIZATION_FAILED : string := "[sanitization failed]".

(** Sanitize an object by redacting sensitive fields and handling circular
    references.  The result comes with the expressions as the call leaves
    them. *)
Definition sanitize (stack : nat) (h : Heap) (obj : Value)
    (ps : list RegExp) : Tree * list RegExp :=
  match obj with
  | VPrim p => (TPrim p, ps)
  | VRef _ =>
      match recursiveSanitize stack h obj (mkSan ∅ ps) with
      | (Some t, s) => (t, patterns s)
      | (None, s) => (TStr SANITIZATION_FAILED, patterns s)
      end
  end.

(** What [JSON.stringify] does with one property of an object: the
    replacer on its value, under its key. *)
Definition replace_entry (recur : Value → M (gset addr) Tree)
    (kv : string * Value) : M (gset addr) (string * Tree) :=
  t <- recur (snd kv) ;; ret (fst kv, t).

(** The replacer of [safeStringify], applied by [JSON.stringify] to the root
    and then to every element and property value it reaches, in order; the
    tree of the values it returns.  The state is the [WeakSet]. *)
Fixpoint replaced (stack : nat) (h : Heap) (value : Value) : M (gset addr) Tree :=
  match stack with
  | O => raise
  | S frames =>
      match value with
      | VRef a =>
          visited <- gets (λ sn : gset addr, bool_decide (a ∈ sn)) ;;
          if visited : bool then ret (TStr CIRCULAR)
          else
            modify (λ sn : gset addr, {[a]} ∪ sn) ;;;
            match deref h a with
            | OArr items =>
                ts <- mapM (replaced frames h) items ;;
                ret (TArr ts)
            | OObj props =>
                ts <- mapM (replace_entry (replaced frames h)) props ;;
                ret (TObj ts)
            end
      | VPrim PUndefined => ret (TStr "[undefined]")
      | VPrim p => ret (TPrim p)
      end
  end.

Definition STRINGIFY_FAILED : string := "[stringify failed]".

(** Safely stringify an object, handling circular references. *)
Definition safeStringify (stack : nat) (h : Heap) (obj : Value) : string :=
  match replaced stack h obj ∅ with
  | (Some t, _) => default "undefined" (JSON.stringify t)
  | (None, _) => STRINGIFY_FAILED
  end.

Definition TRUNCATED : string := "... [truncated]".

(** Cap body size and stringify it safely.  Neither branch of the [try]
    block can raise, [safeStringify] catching its own exceptions. *)
Definition capSize (stack : nat) (h : Heap) (body : Value) : Value :=
  if negb (truthy body) then body
  else
    match body with
    | VPrim (PStr s) =>
        if (MAX_BODY_SIZE <? String.length s)%nat
        then VPrim (PStr (Str.take MAX_BODY_SIZE s +:+ TRUNCATED))
        else body
    | _ =>
        let stringified := safeStringify stack h body in
        if (MAX_BODY_SIZE <? String.length stringified)%nat
        then VPrim (PStr (Str.take MAX_BODY_SIZE stringified +:+ TRUNCATED))
        else body
    end.

(** The test of [sanitizeHeaders] on a header name. *)
Definition sensitive_header (key : string) : bool :=
  let lowerKey := Str.toLowerCase key in
  String.eqb lowerKey "authorization"
  || String.eqb lowerKey "cookie"
  || String.eqb lowerKey "x-api-key"
  || Str.includes lowerKey "token"
  || Str.includes lowerKey "secret".

(** What a round of the loop of [sanitizeHeaders] assigns to
    [sanitized[key]]. *)
Definition header_entry (kv : string * Value) : string * Value :=
  if sensitive_header (fst kv)
  then (fst kv, VPrim (PStr REDACTED))
  else (fst kv, snd kv).

(** Format headers by removing sensitive data: what the assignments of the
    rounds leave of [{}]. *)
Definition sanitizeHeaders (headers : list (string * Value)) : list (string * Value) :=
  assign_all (header_entry <$> headers).


(** ** [src/types/index.ts] *)

Module RequestLog.
Record t := mk {
  method : string;
  url : string;
  path : string;
  query : list (string * Tree);
  headers : list (string * Value);
  body : Tree;                       (* [TPrim PUndefined] when absent *)
  ip : option string
}.
End RequestLog.

Module ResponseLog.
Record t := mk {
  statusCode : Z;
  headers : list (string * Value);
  body : Tree;
  contentType : option string
}.
End ResponseLog.

Module ErrorLog.
Record t := mk {
  message : string;
  stack : option string;
  statusCode : option Z
}.
End ErrorLog.

Record LogEvent := mkLogEvent {
  timestamp : string;
  duration : Z;
  requestId : option string;
  request : RequestLog.t;
  response : option ResponseLog.t;
  error : option ErrorLog.t
}.

Module Wire.
Record request := mkRequest {
  method : string;
  path : string;
  headers : list (string * Value);
  body : option string;              (* [None] is [null] *)
  ip : option string
}.
Record response := mkResponse {
  status : Z;
  rheaders : list (string * Value);
  rbody : option string;
  duration_ms : Z
}.
End Wire.

Record TransformedLogEvent := mkTransformed {
  t_timestamp : string;
  trace_id : string;
  t_request : Wire.request;
  t_response : Wire.response
}.

(** ** [src/core/config.ts] *)

Record Config := mkConfig { apiKey : string; baseUrl : string; debug : bool }.

(** Check if configuration is valid for sending logs:
    [!!(this.config.apiKey && this.config.baseUrl)] *)
Definition isConfigValid (config : Config) : bool :=
  negb (String.eqb (apiKey config) "") && negb (String.eqb (baseUrl config) "").

(** ** [src/core/sender.ts] *)

(** Maximum number of logs to keep in memory before dropping oldest *)
Definition MAX_QUEUE_SIZE : nat := 1000.
(** Batch size (flush when queue reaches this many logs) *)
Definition BATCH_SIZE : nat := 50.
(** Time-based flush interval in milliseconds *)
Definition FLUSH_INTERVAL : nat := 5000.
(** Maximum number of retry attempts *)
Definition MAX_RETRIES : nat := 3.
(** Initial retry delay in milliseconds *)
Definition INITIAL_RETRY_DELAY : nat := 1000.

(** *** The environment of a dispatch *)

Record AxiosError := mkAxiosError { err_message : string; err_status : option Z }.

Inductive PostResult :=
| PostResolved (status : Z)
| PostRejected (e : AxiosError).

(** What the outside answers to the [n]-th question the code asks it:
    [Date.now()], the base-36 rendering of [Math.random()], and the way the
    promise of [axios.post(url, payload, {headers…})] settles. *)
Record World := mkWorld {
  Date_now : nat → Z;
  Math_random_36 : nat → string;
  axios_post : nat → string → TransformedLogEvent → string → PostResult
}.

Inductive Level := LDebug | LWarn.

Inductive Effect :=
| ELog (lvl : Level) (msg : string)
| EPost (index : nat) (url : string) (payload : TransformedLogEvent)
        (authorization : string)
| ESleep (ms : nat).

(** How a promise settles. *)
Inductive Outcome :=
| Resolved
| Rejected (message : string).

(** [x || fallback] on an optional string. *)
Definition nonempty (x : option string) : option string :=
  match x with
  | Some s => if String.eqb s "" then None else Some s
  | None => None
  end.

(** [b ? JSON.stringify(b) : null] *)
Definition stringify_body (b : Tree) : option string :=
  if truthy_tree b then JSON.stringify b else None.

(** The callback of [logs.map] in [sendBatch]: one log to the format the
    server expects.  [tick] counts the questions asked so far. *)
Definition transform (w : World) (log : LogEvent) (tick : nat)
    : TransformedLogEvent * nat :=
  let '(trace, tick') :=
    match nonempty (requestId log) with
    | Some id => (id, tick)
    | None =>
        ("trace_" +:+ pretty (Date_now w tick) +:+ "_" +:+
           String.substring 2 9 (Math_random_36 w (S tick)),
         S (S tick))
    end in
  (mkTransformed
     (timestamp log)
     trace
     (Wire.mkRequest
        (RequestLog.method (request log))
        (RequestLog.path (request log))
        (RequestLog.headers (request log))
        (stringify_body (RequestLog.body (request log)))
        (nonempty (RequestLog.ip (request log))))
     (Wire.mkResponse
        (match response log with
         | Some r => ResponseLog.statusCode r
         | None => 0%Z
         end)
        (match response log with
         | Some r => ResponseLog.headers r
         | None => []
         end)
        (match response log with
         | Some r => stringify_body (ResponseLog.body r)
         | None => None
         end)
        (duration log)),
   tick').

Fixpoint transform_all (w : World) (logs : list LogEvent) (tick : nat)
    : list TransformedLogEvent * nat :=
  match logs with
  | [] => ([], tick)
  | log :: logs' =>
      let '(t, tick1) := transform w log tick in
      let '(ts, tick2) := transform_all w logs' tick1 in
      (t :: ts, tick2)
  end.

Definition is_2xx (status : Z) : bool := (200 <=? status)%Z && (status <? 300)%Z.

(** The loop that sends each log individually, one [await] after the
    other; it ends at the first rejected request. *)
Fixpoint post_each (w : World) (config : Config) (endpoint : string)
    (transformedLogs : list TransformedLogEvent) (index successCount tick : nat)
    : list Effect * (nat + AxiosError) * nat :=
  match transformedLogs with
  | [] => ([], inl successCount, tick)
  | transformedLog :: rest =>
      let authorization := "Bearer " +:+ apiKey config in
      let sent := EPost index endpoint transformedLog authorization in
      match axios_post w tick endpoint transformedLog authorization with
      | PostResolved status =>
          let successCount' :=
            if is_2xx status then S successCount else successCount in
          let '(effects, r, tick') :=
            post_each w config endpoint rest (S index) successCount' (S tick) in
          (sent :: effects, r, tick')
      | PostRejected e => ([sent], inr e, S tick)
      end
  end.

Definition show_status (s : option Z) : string :=
  match s with
  | Some n => pretty n
  | None => "undefined"
  end.

(** Send a batch of logs with retry logic.  The result is the trace of the
    effects, the way the returned promise settles, and the count of
    questions asked. *)
Equations sendBatch (w : World) (config : Config) (logs : list LogEvent)
    (attempt : nat) (tick : nat) : list Effect * Outcome * nat
    by wf (MAX_RETRIES - attempt) lt :=
sendBatch w config logs attempt tick with isConfigValid config := {
  | false => ([ELog LDebug "Config invalid, skipping log send"], Resolved, tick)
  | true =>
      let endpoint := baseUrl config +:+ "/api/sdk/logs" in
      let started :=
        ELog LDebug ("Sending batch attempt " +:+ pretty attempt +:+ "/" +:+
                     pretty MAX_RETRIES) in
      let transformed := transform_all w logs tick in
      let sample :=
        match fst transformed with
        | [] => []
        | _ :: _ => [ELog LDebug "Sample transformed log entry:"]
        end in
      let sent := post_each w config endpoint (fst transformed) 0 0 (snd transformed) in
      match sent with
      | (effects, inl successCount, tick') =>
          (started :: sample ++ effects ++
             [ELog LDebug ("Batch sent successfully. " +:+ pretty successCount
                           +:+ "/" +:+ pretty (length (fst transformed))
                           +:+ " logs delivered")],
           Resolved, tick')
      | (effects, inr e, tick') =>
          let failed :=
            ELog LWarn ("Batch send failed (attempt " +:+ pretty attempt +:+ "): "
                        +:+ err_message e +:+ " (status: "
                        +:+ show_status (err_status e) +:+ ")") in
          match lt_dec attempt MAX_RETRIES with
          | left _ =>
              let delay := INITIAL_RETRY_DELAY * 2 ^ (attempt - 1) in
              let retried := sendBatch w config logs (attempt + 1) tick' in
              (started :: sample ++ effects ++
                 [failed;
                  ELog LDebug ("Retrying in " +:+ pretty delay +:+ "ms...");
                  ESleep delay] ++ fst (fst retried),
               snd (fst retried), snd retried)
          | right _ =>
              (started :: sample ++ effects ++ [failed],
               Rejected ("Failed to send batch after " +:+ pretty MAX_RETRIES
                         +:+ " attempts: " +:+ err_message e),
               tick')
          end
      end }.
Next Obligation. unfold MAX_RETRIES in *. lia. Qed.

(** *** The queue

    The fields of [LogQueue]; [flushTimer] is [true] while the interval
    timer is armed.  The calls to [logger] made by the queue operations
    themselves are left out. *)
Record LogQueue := mkLogQueue {
  queue : list LogEvent;
  flushTimer : bool;
  isFlushing : bool;
  isShuttingDown : bool
}.

(** The queue as the constructor leaves it. *)
Definition new_LogQueue : LogQueue := mkLogQueue [] true false false.

(** Flush the queue.  A call that gets past the guard takes a snapshot,
    empties the queue and starts [sendBatch] on the snapshot, which is
    returned. *)
Definition flush (q : LogQueue) : LogQueue * option (list LogEvent) :=
  if isFlushing q || (length (queue q) =? 0)%nat then (q, None)
  else
    let logsToSend := queue q in
    (mkLogQueue [] (flushTimer q) true (isShuttingDown q), Some logsToSend).

(** Add a log event to the queue. *)
Definition push (q : LogQueue) (event : LogEvent)
    : LogQueue * option (list LogEvent) :=
  if isShuttingDown q then (q, None)
  else
    let kept :=
      if (MAX_QUEUE_SIZE <=? length (queue q))%nat
      then tail (queue q)                              (* this.queue.shift() *)
      else queue q in
    let q' := mkLogQueue (kept ++ [event]) (flushTimer q) (isFlushing q)
                (isShuttingDown q) in
    if (BATCH_SIZE <=? length (queue q'))%nat then flush q' else (q', None).

(** The callback of the interval timer. *)
Definition on_interval (q : LogQueue) : LogQueue * option (list LogEvent) :=
  if (0 <? length (queue q))%nat then flush q else (q, None).

(** The handler of SIGTERM and SIGINT, up to its [await]: the batch it
    starts [sendBatch] on, if any. *)
Definition shutdown (q : LogQueue) : LogQueue * option (list LogEvent) :=
  let q' := mkLogQueue (queue q) false (isFlushing q) true in
  if (0 <? length (queue q'))%nat
  then (mkLogQueue [] false (isFlushing q) true, Some (queue q'))
  else (q', None).

(** [getQueueSize] *)
Definition getQueueSize (q : LogQueue) : nat := length (queue q).

(** [p.catch(handler)] for a handler that returns normally. *)
Definition promise_catch (p : Outcome) (handler : string → list Effect)
    : Outcome * list Effect :=
  match p with
  | Resolved => (Resolved, [])
  | Rejected message => (Resolved, handler message)
  end.

(** The continuation [flush] attaches to the promise of [sendBatch]:
    [.catch(error => logger.warn(…)).finally(() => this.isFlushing = false)]. *)
Definition flush_settled (q : LogQueue) (p : Outcome)
    : LogQueue * Outcome * list Effect :=
  let '(p', effects) :=
    promise_catch p
      (λ message, [ELog LWarn ("Failed to send batch after all retries "
                               +:+ message)]) in
  (mkLogQueue (queue q) (flushTimer q) false (isShuttingDown q), p', effects).

(** The [try]/[catch] around the [await] of [shutdown], and the rest of the
    handler. *)
Definition shutdown_settled (q : LogQueue) (p : Outcome)
    : LogQueue * Outcome * list Effect :=
  match p with
  | Resolved =>
      (q, Resolved,
       [ELog LDebug "Final flush completed successfully";
        ELog LDebug "Logsentinel queue shutdown complete"])
  | Rejected message =>
      (q, Resolved,
       [ELog LWarn ("Failed to flush remaining logs during shutdown "
                    +:+ message);
        ELog LDebug "Logsentinel queue shutdown complete"])
  end.

(** *** The queue among its events

    Between two events of the host (a call to [push], a tick of the timer,
    a signal, the settling of a promise) the queue is at rest; [inflight]
    lists the calls to [sendBatch] that have not settled, with the caller
    that started each. *)

Inductive Origin := ByFlush | ByShutdown.

#[global] Instance Origin_eq_dec : EqDecision Origin.
Proof. solve_decision. Defined.

Record Machine := mkMachine {
  lq : LogQueue;
  inflight : list (Origin * list LogEvent)
}.

Inductive Action :=
| APush (event : LogEvent)
| ATick
| ASignal
| ASettle (i : nat) (p : Outcome).

Definition started (o : Origin) (m : Machine)
    (r : LogQueue * option (list LogEvent)) : Machine :=
  match r with
  | (q, Some batch) => mkMachine q (inflight m ++ [(o, batch)])
  | (q, None) => mkMachine q (inflight m)
  end.

(** One event; [None] when it cannot happen (a tick of a cleared timer, the
    settling of a promise that is not pending). *)
Definition step (m : Machine) (a : Action) : option Machine :=
  match a with
  | APush event => Some (started ByFlush m (push (lq m) event))
  | ATick =>
      if flushTimer (lq m)
      then Some (started ByFlush m (on_interval (lq m)))
      else None
  | ASignal => Some (started ByShutdown m (shutdown (lq m)))
  | ASettle i p =>
      match inflight m !! i with
      | Some (ByFlush, _) =>
          Some (mkMachine (fst (fst (flush_settled (lq m) p)))
                          (delete i (inflight m)))
      | Some (ByShutdown, _) =>
          Some (mkMachine (fst (fst (shutdown_settled (lq m) p)))
                          (delete i (inflight m)))
      | None => None
      end
  end.

Definition initial : Machine := mkMachine new_LogQueue [].

Fixpoint run (m : Machine) (actions : list Action) : option Machine :=
  match actions with
  | [] => Some m
  | a :: actions' =>
      match step m a with
      | Some m' => run m' actions'
      | None => None
      end
  end.

Definition reachable (m : Machine) : Prop :=
  ∃ actions, run initial actions = Some m.

Definition count_origin (o : Origin) (l : list (Origin * list LogEvent)) : nat :=
  length (filter (λ d, fst d = o) l).

(** The number of pending dispatches started by [o]. *)
Definition pending (o : Origin) (m : Machine) : nat :=
  count_origin o (inflight m).

(** ** Vocabulary of the statements *)

(** A run of calls to [push]; the batches handed to [sendBatch] on the way. *)
Fixpoint push_all (q : LogQueue) (events : list LogEvent)
    : LogQueue * list (list LogEvent) :=
  match events with
  | [] => (q, [])
  | event :: events' =>
      let '(q1, b) := push q event in
      let '(q2, bs) := push_all q1 events' in
      (q2, option_list b ++ bs)
  end.

(** The last [n] elements of a list, in order. *)
Definition lastn {A} (n : nat) (l : list A) : list A := drop (length l - n) l.


(** An event with nothing but its request id, for the examples. *)
Definition sample_event (i : nat) : LogEvent :=
  mkLogEvent "2024-01-01T00:00:00.000Z" 12 (Some ("req_" +:+ pretty i))
    (RequestLog.mk "GET" "/test" "/test" [] [] (TPrim PUndefined) None)
    None None.

(** The triggers of a flush: the size trigger inside [push], the timer and
    the drain of the shutdown handler. *)
Definition trigger (a : Action) : Prop :=
  match a with
  | APush _ | ATick | ASignal => True
  | ASettle _ _ => False
  end.

(** The reading of "at most one flush in flight" that counts the drain of
    the shutdown handler among the triggers the flag holds back. *)
Definition no_second_dispatch : Prop :=
  ∀ m, reachable m → 0 < pending ByFlush m →
    ∀ a m', trigger a → step m a = Some m' → inflight m' = inflight m.

(** The state after fifty calls to [push]: the size trigger has fired. *)
Definition fifty_pushed : list Action := APush <$> (sample_event <$> seq 0 50).

(** The transmissions and the waits of a trace, in order. *)
Inductive Beat :=
| Sent (index : nat)
| Waited (ms : nat).

Definition beat (e : Effect) : option Beat :=
  match e with
  | EPost index _ _ _ => Some (Sent index)
  | ESleep ms => Some (Waited ms)
  | ELog _ _ => None
  end.

Definition schedule (effects : list Effect) : list Beat := omap beat effects.

(** The lines a trace writes at warning level. *)
Definition warnings (effects : list Effect) : list string :=
  omap (λ e, match e with ELog LWarn msg => Some msg | _ => None end) effects.

(** A world in which every transmission fails. *)
Definition always_fails (w : World) : Prop :=
  ∀ n url payload authorization,
    ∃ e, axios_post w n url payload authorization = PostRejected e.

(** A collector that is down, a clock that advances and a configuration
    that allows sending, for the examples. *)
Definition down : World :=
  mkWorld (λ n, (1700000000000 + Z.of_nat n)%Z)
          (λ n, "0.4fzyo82mvyr")
          (λ _ _ _ _, PostRejected (mkAxiosError "Network Error" None)).

Definition sample_config : Config := mkConfig "key" "https://collector.example" false.

(** An event that carries no request id. *)
Definition anonymous_event : LogEvent :=
  mkLogEvent "2024-01-01T00:00:00.000Z" 12 None
    (RequestLog.mk "GET" "/test" "/test" [] [] (TPrim PUndefined) None)
    None None.

(** The reading of "a WireEvent is a pure function of its Event": whenever
    the same event is transformed, the same wire event comes out. *)
Definition wire_event_determined : Prop :=
  ∀ w log tick1 tick2,
    fst (transform w log tick1) = fst (transform w log tick2).

(** The header names the code redacts, in words: the lower-cased name is
    one of three names or contains one of two words. *)
Definition contains (hay needle : string) : Prop :=
  ∃ before after, hay = before +:+ needle +:+ after.

Definition redacted_header (key : string) : Prop :=
  let lowerKey := Str.toLowerCase key in
  lowerKey = "authorization" ∨ lowerKey = "cookie" ∨ lowerKey = "x-api-key"
  ∨ contains lowerKey "token" ∨ contains lowerKey "secret".

(** The header rule with [api-key] for third name, on the headers of an
    object (no name twice) and for a name other than [__proto__]. *)
Definition redacted_header_api_key (key : string) : Prop :=
  let lowerKey := Str.toLowerCase key in
  lowerKey = "authorization" ∨ lowerKey = "cookie" ∨ lowerKey = "api-key"
  ∨ contains lowerKey "token" ∨ contains lowerKey "secret".

Definition header_rule_api_key : Prop :=
  ∀ headers key value,
    NoDup (fst <$> headers) → (key, value) ∈ headers → key ≠ PROTO →
    (redacted_header_api_key key →
       (key, VPrim (PStr REDACTED)) ∈ sanitizeHeaders headers)
    ∧ (¬ redacted_header_api_key key →
       (key, value) ∈ sanitizeHeaders headers).

(** [reaches h v p b]: following the path [p] of element and entry
    positions from the value [v] leads to a reference to the object [b]. *)
Inductive reaches (h : Heap) : Value → list nat → addr → Prop :=
| reaches_here a : reaches h (VRef a) [] a
| reaches_item a items i v p b :
    deref h a = OArr items → items !! i = Some v → reaches h v p b →
    reaches h (VRef a) (i :: p) b
| reaches_prop a props i kv p b :
    deref h a = OObj props → props !! i = Some kv → reaches h (snd kv) p b →
    reaches h (VRef a) (i :: p) b.

(** The part of a tree at a path of positions. *)
Fixpoint subtree (t : Tree) (p : list nat) : option Tree :=
  match p with
  | [] => Some t
  | i :: p' =>
      match t with
      | TPrim _ => None
      | TArr items =>
          match items !! i with
          | Some t' => subtree t' p'
          | None => None
          end
      | TObj props =>
          match props !! i with
          | Some kv => subtree (snd kv) p'
          | None => None
          end
      end
  end.

(** The values an object holds, and the parts of a tree, by position. *)
Definition children (o : Obj) : list Value :=
  match o with
  | OArr items => items
  | OObj props => snd <$> props
  end.

Definition parts (t : Tree) : list Tree :=
  match t with
  | TPrim _ => []
  | TArr items => items
  | TObj props => snd <$> props
  end.

(** A tree that is an array or an object: a composite that was copied,
    not replaced by a marker. *)
Definition expanded (t : Tree) : Prop :=
  match t with
  | TPrim _ => False
  | _ => True
  end.

(** [before p q]: a walk in depth, from left to right, comes to the place
    [p] before it comes to the place [q]. *)
Fixpoint before (p q : list nat) : Prop :=
  match p, q with
  | [], _ :: _ => True
  | i :: p', j :: q' => i < j ∨ (i = j ∧ before p' q')
  | _, [] => False
  end.

(** A tree that has the form of the object [b]: an array of as many
    elements, or an object of the same names in the same order. *)
Definition copy_of (h : Heap) (b : addr) (t : Tree) : Prop :=
  match deref h b, t with
  | OArr items, TArr ts => length ts = length items
  | OObj props, TObj tps => fst <$> tps = fst <$> props
  | _, _ => False
  end.

(** The place [p] of the value [v] holds the object [b], and the tree [t]
    has a copy of it there. *)
Definition copied_at (h : Heap) (v : Value) (t : Tree) (p : list nat)
    (b : addr) : Prop :=
  ∃ tb, reaches h v p b ∧ subtree t p = Some tb ∧ copy_of h b tb.

(** Properties that assignments to [{}] copy one for one: no name twice,
    as in every object, and no [__proto__]. *)
Definition copied_whole {A} (props : list (string * A)) : Prop :=
  NoDup (fst <$> props) ∧ PROTO ∉ fst <$> props.

(** A heap all of whose objects are such. *)
Definition ordinary (h : Heap) : Prop :=
  ∀ a props, h !! a = Some (OObj props) → copied_whole props.

(** The references an object holds. *)
Definition refs_of (o : Obj) : list addr :=
  omap (λ v, match v with VRef b => Some b | VPrim _ => None end) (children o).

(** A heap without a cycle: every reference leads to an object of lower
    rank. *)
Definition acyclic (h : Heap) : Prop :=
  ∃ rank : addr → nat,
    ∀ a o b, h !! a = Some o → b ∈ refs_of o → rank b < rank a.

(** A key one of the expressions matches somewhere, whatever its
    [lastIndex]. *)
Definition matches (re : list Atom) (key : string) : bool :=
  bool_decide (is_Some (exec_from re (list_ascii_of_string key) 0)).

Definition sensitive_key (key : string) : bool :=
  existsb (λ r, matches (source r) key) SENSITIVE_PATTERNS.

(** The leaves the sanitizer and the replacer put in place of a reference. *)
Definition sanitizer_leaf (t : Tree) : Prop :=
  t = TStr CIRCULAR ∨ t = TStr REDACTED.

Definition replacer_leaf (t : Tree) : Prop := t = TStr CIRCULAR.

(** Two objects that hold the same third one, and no cycle. *)
Definition diamond : Heap :=
  {[ 1 := OObj [("x", VRef 2); ("y", VRef 2)];
     2 := OObj [("a", VPrim (PNum 1))] ]}.

(** An object that holds another one twice, the second time under a
    sensitive name. *)
Definition keyring : Heap :=
  {[ 1 := OObj [("x", VRef 2); ("token", VRef 2)];
     2 := OObj [("a", VPrim (PNum 1))] ]}.

(** An object that holds itself, directly and through an array. *)
Definition knot : Heap :=
  {[ 1 := OObj [("name", VPrim (PStr "john")); ("self", VRef 1); ("list", VRef 2)];
     2 := OArr [VRef 1; VRef 2; VPrim PNull] ]}.

(** A body whose only field is a password, and two such bodies in an
    array. *)
Definition login_body : Heap :=
  {[ 1 := OObj [("password", VPrim (PStr "secret123"))] ]}.

Definition login_bodies : Heap :=
  {[ 1 := OArr [VRef 2; VRef 3];
     2 := OObj [("password", VPrim (PStr "first"))];
     3 := OObj [("password", VPrim (PStr "second"))] ]}.

(** The reading of "every occurrence after the first-visited one is
    replaced by the marker": of two places of an acyclic graph that hold
    the same object, one shows the marker in the result of [sanitize]. *)
Definition later_occurrence_is_circular : Prop :=
  ∀ stack h v ps p1 p2 b t1 t2,
    acyclic h → ordinary h → size (dom h) < stack →
    p1 ≠ p2 → reaches h v p1 b → reaches h v p2 b →
    subtree (fst (sanitize stack h v ps)) p1 = Some t1 →
    subtree (fst (sanitize stack h v ps)) p2 = Some t2 →
    t1 = TStr CIRCULAR ∨ t2 = TStr CIRCULAR.

(** ** Vocabulary of the proofs *)

(** The invariant of the machine. *)
Definition mutex_inv (m : Machine) : Prop :=
  pending ByFlush m = (if isFlushing (lq m) then 1 else 0)
  ∧ pending ByShutdown m ≤ 1
  ∧ (0 < pending ByShutdown m → isShuttingDown (lq m) = true)
  ∧ (isShuttingDown (lq m) = true → queue (lq m) = []).

(** The visited set after a computation contains the one before. *)
Definition grows (s s' : San) : Prop := seen s ⊆ seen s'.

(** The state once the object [a] is in the visited set. *)
Definition entered (a : addr) (s : San) : San :=
  mkSan ({[a]} ∪ seen s) (patterns s).

(** The state in which the value of an entry is looked at. *)
Definition tested (key : string) (s : San) : San :=
  mkSan (seen s) (snd (some_test (patterns s) key)).

(** The objects of the heap not yet visited. *)
Definition unseen (h : Heap) (s : San) : nat := size (dom h ∖ seen s).

Definition grows_set (sn sn' : gset addr) : Prop := sn ⊆ sn'.

Section Traversal.

Context {S : Type} (vis : S → gset addr) (leaf : Tree → Prop) (h : Heap).
Implicit Types (s : S) (v : Value) (t : Tree) (a b : addr) (p : list nat).

(** What a traversal that went from [s] to [s'] and made [t] of [v]
    guarantees.  The visited set grew.  A reference it copied was not
    visited before, is visited after, and its copy has the form of the
    object; a reference it did not copy became a leaf.  No object was
    copied at two places.  Every object it visited has its copy in [t].
    And where the marker stands for an object, the object was visited
    before the traversal, or its copy is at an earlier place of [t]. *)
Definition paths v t s s' : Prop :=
  vis s ⊆ vis s'
  ∧ (∀ p b tb, reaches h v p b → subtree t p = Some tb →
       (expanded tb → (b ∉ vis s) ∧ (b ∈ vis s') ∧ copy_of h b tb)
       ∧ (¬ expanded tb → leaf tb))
  ∧ (∀ p1 p2 b t1 t2, p1 ≠ p2 →
       reaches h v p1 b → reaches h v p2 b →
       subtree t p1 = Some t1 → subtree t p2 = Some t2 →
       expanded t1 → expanded t2 → False)
  ∧ (∀ b, b ∈ vis s' → b ∉ vis s → ∃ p, copied_at h v t p b)
  ∧ (∀ p b, reaches h v p b → subtree t p = Some (TStr CIRCULAR) →
       b ∈ vis s ∨ ∃ p', before p' p ∧ copied_at h v t p' b).

(** The rounds of a loop over the values of an object, in order; between
    two rounds the visited set stays as it is. *)
Inductive chain : S → list Value → list Tree → S → Prop :=
| chain_nil s s' : vis s' = vis s → chain s [] [] s'
| chain_cons s s1 s2 s' v t vs ts :
    vis s1 = vis s → paths v t s1 s2 →
    chain s2 vs ts s' → chain s (v :: vs) (t :: ts) s'.

End Traversal.

(** The events handed to [push] by a run of actions. *)
Definition pushed (actions : list Action) : list LogEvent :=
  omap (λ a, match a with APush event => Some event | _ => None end) actions.

(** The batch a step hands to [sendBatch], if any. *)
Definition handed (m : Machine) (a : Action) : option (list LogEvent) :=
  match a with
  | APush event => snd (push (lq m) event)
  | ATick => if flushTimer (lq m) then snd (on_interval (lq m)) else None
  | ASignal => snd (shutdown (lq m))
  | ASettle _ _ => None
  end.

(** The batches handed to [sendBatch] along a run, in order. *)
Fixpoint dispatched (m : Machine) (actions : list Action) : list (list LogEvent) :=
  match actions with
  | [] => []
  | a :: actions' =>
      match step m a with
      | Some m' => option_list (handed m a) ++ dispatched m' actions'
      | None => []
      end
  end.

(** Once the timer is cleared it stays cleared, and shutting down clears
    it and empties the queue. *)
Definition shutdown_inv (m : Machine) : Prop :=
  isShuttingDown (lq m) = true →
  flushTimer (lq m) = false ∧ queue (lq m) = [].


(** A world in which every transmission is answered, with whatever
    status. *)
Definition always_answers (w : World) : Prop :=
  ∀ n url payload authorization,
    ∃ status, axios_post w n url payload authorization = PostResolved status.

(** The requests and the waits of a trace, without the diagnostic lines. *)
Definition acts (effects : list Effect) : list Effect :=
  omap (λ e, match e with ELog _ _ => None | _ => Some e end) effects.

(** The request of the loop for the log at a position of the batch: to the
    endpoint, with the credential, its payload a transformation of that
    log. *)
Definition request_for (w : World) (config : Config) (logs : list LogEvent)
    (index : nat) (e : Effect) : Prop :=
  ∃ log tick,
    logs !! index = Some log
    ∧ e = EPost index (baseUrl config +:+ "/api/sdk/logs")
            (fst (transform w log tick)) ("Bearer " +:+ apiKey config).

(** The requests of one attempt on a batch: one for each of the logs at
    the positions 0 to [k - 1], in this order, for some [k] up to the
    length of the batch. *)
Definition attempt_of (w : World) (config : Config) (logs : list LogEvent)
    (sent : list Effect) : Prop :=
  length sent ≤ length logs
  ∧ ∀ i e, sent !! i = Some e → request_for w config logs i e.

(** A collector that answers every request with status 500 without
    rejecting it. *)
Definition grumpy : World :=
  mkWorld (Date_now down) (Math_random_36 down) (λ _ _ _ _, PostResolved 500).

(** What a trace may contain for a configuration and a batch: a request to
    the log endpoint, with the credential, whose payload is a
    transformation of the log at its position; a wait of one of the two
    delays; any diagnostic line. *)
Definition expected_effect (w : World) (config : Config) (logs : list LogEvent)
    (e : Effect) : Prop :=
  match e with
  | EPost index url payload authorization =>
      url = baseUrl config +:+ "/api/sdk/logs"
      ∧ authorization = "Bearer " +:+ apiKey config
      ∧ ∃ log tick, logs !! index = Some log
                    ∧ payload = fst (transform w log tick)
  | ESleep ms => ms = 1000 ∨ ms = 2000
  | ELog _ _ => True
  end.

(** The expressions with every [lastIndex] back at 0. *)
Definition rewound (ps : list RegExp) : list RegExp :=
  (λ r, mkRegExp (source r) 0) <$> ps.

(** A key one of the expressions [ps] matches somewhere. *)
Definition matched_by (ps : list RegExp) (key : string) : bool :=
  existsb (λ r, matches (source r) key) ps.

(** The expressions of two states are the same up to [lastIndex]. *)
Definition same_sources (s s' : San) : Prop :=
  source <$> patterns s' = source <$> patterns s.

(** A user record, for the examples. *)
Definition user_record : Heap :=
  {[ 1 := OObj [("username", VPrim (PStr "john"));
                ("password", VPrim (PStr "secret123"));
                ("age", VPrim (PNum 30))] ]}.

(** A body as [JSON.parse] makes it of
    [{"__proto__": {"admin": true}, "name": "john", "token": "abc"}]: the
    key [__proto__] is an own property of it. *)
Definition polluted : Heap :=
  {[ 1 := OObj [("__proto__", VRef 2);
                ("name", VPrim (PStr "john"));
                ("token", VPrim (PStr "abc"))];
     2 := OObj [("admin", VPrim (PBool true))] ]}.

(** ** [src/core/config.ts], the loader *)

(** [LogsentinelConfig]: the explicit configuration, every field
    optional. *)
Module Explicit.
Record t := mk {
  apiKey : option string;
  baseUrl : option string;
  debug : option bool
}.
End Explicit.

(** [process.env] *)
Definition Env : Type := string → option string.

(** [a || b || ''] *)
Definition first_nonempty (a b : option string) : string :=
  match nonempty a with
  | Some s => s
  | None => default "" (nonempty b)
  end.

(** [loadConfig]: explicit config, then environment variables, then
    defaults; with the lines it logs. *)
Definition loadConfig (env : Env) (explicitConfig : option Explicit.t)
    : Config * list Effect :=
  let apiKey :=
    first_nonempty (explicitConfig ≫= Explicit.apiKey)
                   (env "LOGSENTINEL_API_KEY") in
  let baseUrl :=
    first_nonempty (explicitConfig ≫= Explicit.baseUrl)
                   (env "LOGSENTINEL_BASE_URL") in
  let debug :=
    match explicitConfig ≫= Explicit.debug with
    | Some d => d
    | None => bool_decide (env "LOGSENTINEL_DEBUG" = Some "true")
    end in
  (mkConfig apiKey baseUrl debug,
   (if String.eqb apiKey ""
    then [ELog LWarn "LOGSENTINEL_API_KEY is not set. Logs will not be sent to the server."]
    else [])
   ++ (if String.eqb baseUrl ""
       then [ELog LWarn "LOGSENTINEL_BASE_URL is not set. Logs will not be sent to the server."]
       else [])
   ++ (if debug
       then [ELog LDebug "Debug mode enabled. All log operations will be printed to console."]
       else [])).

(** The configuration the constructor of [ConfigManager] loads, and the one
    [updateConfig] replaces it with. *)
Definition new_ConfigManager (env : Env) : Config := fst (loadConfig env None).

Definition updateConfig (env : Env) (explicitConfig : Explicit.t)
    (current : Config) : Config :=
  fst (loadConfig env (Some explicitConfig)).

(** ** [src/utils/formatter.ts], the content types *)

Definition binaryTypes : list string :=
  ["image/"; "audio/"; "video/"; "application/octet-stream";
   "application/pdf"; "application/zip"].

(** Check if content is binary data *)
Definition isBinaryContent (contentType : option string) : bool :=
  match nonempty contentType with
  | None => false
  | Some ct => existsb (λ type, Str.includes ct type) binaryTypes
  end.

(** Check if content is multipart form data *)
Definition isMultipartForm (contentType : option string) : bool :=
  match contentType with
  | Some ct => Str.includes ct "multipart/form-data"
  | None => false
  end.

(** ** [src/middleware/logsentinelMiddleware.ts], the request id *)

(** Generate a unique request ID for correlation *)
Definition generateRequestId (w : World) (tick : nat) : string * nat :=
  ("req_" +:+ pretty (Date_now w tick) +:+ "_" +:+
     String.substring 2 9 (Math_random_36 w (S tick)),
   S (S tick)).

(** An environment that sets the endpoint alone. *)
Definition endpoint_only : Env :=
  λ name, if String.eqb name "LOGSENTINEL_BASE_URL"
          then Some "https://collector.example" else None.
(** * Properties *)

(** ** The bounded queue *)

Section Queue.

Implicit Types (q : LogQueue) (event : LogEvent) (events : list LogEvent).

Lemma lastn_length {A} n (l : list A) : length (lastn n l) = min n (length l).
Proof. unfold lastn. rewrite length_drop. lia. Qed.

Lemma lastn_app_long {A} n (l1 l2 : list A) :
  n ≤ length l2 → lastn n (l1 ++ l2) = lastn n l2.
Proof.
  intros H. unfold lastn. rewrite length_app, drop_app_ge by lia.
  f_equal. lia.
Qed.

Lemma lastn_shift_push {A} n (l : list A) (x : A) :
  0 < n → length l ≤ n →
  (if (n <=? length l)%nat then tail l else l) ++ [x] = lastn n (l ++ [x]).
Proof.
  intros Hn Hl. unfold lastn. rewrite length_app. simpl.
  destruct (Nat.leb_spec n (length l)).
  - replace (length l + 1 - n) with 1 by lia.
    destruct l; simpl in *; [lia | by rewrite drop_0].
  - replace (length l + 1 - n) with 0 by lia. done.
Qed.

Lemma lastn_lastn_app {A} n (l1 l2 : list A) :
  lastn n (lastn n l1 ++ l2) = lastn n (l1 ++ l2).
Proof.
  unfold lastn. rewrite !length_app, length_drop.
  destruct (Nat.le_gt_cases (length l1) n).
  - replace (length l1 - n) with 0 by lia. rewrite drop_0. f_equal. lia.
  - replace (length l1 - (length l1 - n) + length l2 - n) with (length l2) by lia.
    replace (length l1 + length l2 - n) with ((length l1 - n) + length l2) by lia.
    rewrite <- drop_drop. by rewrite (drop_app_le l1 l2 (length l1 - n)) by lia.
Qed.

Lemma MAX_QUEUE_SIZE_pos : 0 < MAX_QUEUE_SIZE.
Proof. unfold MAX_QUEUE_SIZE. lia. Qed.

Lemma BATCH_le_MAX : BATCH_SIZE ≤ MAX_QUEUE_SIZE.
Proof. unfold MAX_QUEUE_SIZE, BATCH_SIZE. lia. Qed.

Lemma push_quiet q event q' :
  isShuttingDown q = false →
  push q event = (q', None) →
  queue q' =
    (if (MAX_QUEUE_SIZE <=? length (queue q))%nat then tail (queue q) else queue q)
    ++ [event]
  ∧ isShuttingDown q' = false.
Proof.
  intros Hs. unfold push, flush. rewrite Hs. cbn [queue isFlushing isShuttingDown flushTimer].
  destruct (BATCH_SIZE <=? _)%nat.
  - destruct (isFlushing q || _); intros [= <-]; auto.
  - intros [= <-]; auto.
Qed.

Lemma push_all_quiet events : ∀ q,
  isShuttingDown q = false →
  length (queue q) ≤ MAX_QUEUE_SIZE →
  snd (push_all q events) = [] →
  queue (fst (push_all q events)) = lastn MAX_QUEUE_SIZE (queue q ++ events).
Proof.
  pose proof MAX_QUEUE_SIZE_pos as Hpos.
  induction events as [| event events IH]; intros q Hs Hlen Hquiet.
  - cbn [push_all fst]. rewrite app_nil_r. unfold lastn.
    by replace (length (queue q) - MAX_QUEUE_SIZE) with 0 by lia.
  - cbn [push_all] in *.
    destruct (push q event) as [q1 b] eqn:Hpush.
    destruct (push_all q1 events) as [q2 bs] eqn:Hrest. cbn [fst snd] in *.
    destruct b as [batch |]; simpl in Hquiet; [done |]. subst bs.
    destruct (push_quiet _ _ _ Hs Hpush) as [Hq1 Hs1].
    rewrite lastn_shift_push in Hq1 by lia.
    specialize (IH q1 Hs1). rewrite Hrest in IH. cbn [fst snd] in IH.
    rewrite IH; [| rewrite Hq1, lastn_length; lia | done].
    rewrite Hq1, lastn_lastn_app. by rewrite <- app_assoc.
Qed.

(** C2. Bounded memory with drop-oldest eviction.  On a queue that is not
    shutting down and holds at most [MAX_QUEUE_SIZE] events, more than
    [MAX_QUEUE_SIZE] calls to [push] during which no flush starts leave
    exactly [MAX_QUEUE_SIZE] events in the queue: the last ones pushed, in
    the order of the calls.  And a call to [push] on a queue at capacity
    evicts the oldest entry alone and appends the new event, which is last
    in the queue or, when the call starts a flush, last in its batch. *)
Theorem bounded_memory_drop_oldest :
  (∀ q events,
     isShuttingDown q = false →
     length (queue q) ≤ MAX_QUEUE_SIZE →
     snd (push_all q events) = [] →
     MAX_QUEUE_SIZE < length events →
     queue (fst (push_all q events)) = lastn MAX_QUEUE_SIZE events
     ∧ getQueueSize (fst (push_all q events)) = MAX_QUEUE_SIZE)
  ∧ (∀ q event,
       isShuttingDown q = false →
       length (queue q) = MAX_QUEUE_SIZE →
       match push q event with
       | (q', None) => queue q' = tail (queue q) ++ [event]
       | (q', Some batch) => queue q' = [] ∧ batch = tail (queue q) ++ [event]
       end).
Proof.
  split.
  - intros q events Hs Hlen Hquiet Hmany.
    assert (queue (fst (push_all q events)) = lastn MAX_QUEUE_SIZE events) as Hq.
    { rewrite push_all_quiet by done. apply lastn_app_long. lia. }
    split; [done |]. unfold getQueueSize. rewrite Hq, lastn_length. lia.
  - intros q event Hs Hlen. unfold push, flush. rewrite Hs.
    cbn [queue isFlushing isShuttingDown flushTimer].
    rewrite Hlen, Nat.leb_refl, length_app.
    pose proof BATCH_le_MAX. pose proof MAX_QUEUE_SIZE_pos.
    assert (length (tail (queue q)) = MAX_QUEUE_SIZE - 1) as Ht
      by (destruct (queue q); cbn [length tail] in *; lia).
    replace (BATCH_SIZE <=? _)%nat with true
      by (symmetry; apply Nat.leb_le; simpl length; lia).
    replace (_ =? 0)%nat with false by (symmetry; apply Nat.eqb_neq; simpl length; lia).
    rewrite orb_false_r. by destruct (isFlushing q).
Qed.

Lemma bounded_memory_drop_oldest_witness :
  let q := mkLogQueue [] true true false in
  let events := sample_event <$> seq 0 1001 in
  (queue (fst (push_all q events)) = lastn MAX_QUEUE_SIZE events
   ∧ getQueueSize (fst (push_all q events)) = MAX_QUEUE_SIZE)
  ∧ match push (fst (push_all q events)) (sample_event 1001) with
    | (q', None) =>
        queue q' = tail (queue (fst (push_all q events))) ++ [sample_event 1001]
    | (q', Some batch) =>
        queue q' = [] ∧
        batch = tail (queue (fst (push_all q events))) ++ [sample_event 1001]
    end.
Proof.
  intros q events. split.
  - apply (proj1 bounded_memory_drop_oldest q events).
    + reflexivity.
    + apply Nat.leb_le. vm_compute. reflexivity.
    + vm_compute. reflexivity.
    + apply Nat.ltb_lt. vm_compute. reflexivity.
  - apply (proj2 bounded_memory_drop_oldest (fst (push_all q events)) (sample_event 1001)).
    + vm_compute. reflexivity.
    + vm_compute. reflexivity.
Defined.

End Queue.
(** ** One flush at a time *)

Section Mutex.

Implicit Types (q : LogQueue) (m : Machine) (o : Origin).

Lemma count_origin_snoc o o' batch l :
  count_origin o (l ++ [(o', batch)]) =
  count_origin o l + (if decide (o' = o) then 1 else 0).
Proof.
  unfold count_origin. rewrite filter_app, length_app. f_equal.
  rewrite filter_cons. simpl. by destruct (decide (o' = o)).
Qed.

Lemma count_origin_delete o l : ∀ i d,
  l !! i = Some d →
  count_origin o l =
  count_origin o (delete i l) + (if decide (fst d = o) then 1 else 0).
Proof.
  unfold count_origin.
  induction l as [| x l IH]; intros [| i] d Hi; simplify_eq/=.
  - rewrite filter_cons. destruct (decide (fst d = o)); simpl; lia.
  - rewrite !filter_cons. specialize (IH _ _ Hi).
    destruct (decide (fst x = o)); simpl; lia.
Qed.

(** What a call to [flush] can do. *)
Lemma flush_cases q q' b :
  flush q = (q', b) →
  isShuttingDown q' = isShuttingDown q ∧
  match b with
  | None => q' = q
  | Some batch =>
      isFlushing q = false ∧ isFlushing q' = true ∧ queue q' = [] ∧
      batch = queue q
  end.
Proof.
  unfold flush. destruct (isFlushing q) eqn:Hf; simpl.
  - by intros [= <- <-].
  - destruct (length (queue q) =? 0)%nat; intros [= <- <-]; auto.
Qed.

Lemma push_cases q event q' b :
  push q event = (q', b) →
  isShuttingDown q' = isShuttingDown q ∧
  (isShuttingDown q = true → q' = q) ∧
  match b with
  | None => isFlushing q' = isFlushing q
  | Some _ => isFlushing q = false ∧ isFlushing q' = true
  end.
Proof.
  unfold push. destruct (isShuttingDown q) eqn:Hs.
  - by intros [= <- <-].
  - destruct (BATCH_SIZE <=? _)%nat.
    + intros Hfl. apply flush_cases in Hfl as [Hsd Hb].
      cbn [isShuttingDown isFlushing] in *. split; [congruence |].
      split; [done |]. destruct b; [tauto | by subst].
    + by intros [= <- <-].
Qed.

Lemma mutex_inv_initial : mutex_inv initial.
Proof.
  unfold mutex_inv, pending. simpl.
  split; [done |]. split; [unfold count_origin; simpl; lia |].
  split; [unfold count_origin; simpl; lia | done].
Qed.

Lemma mutex_inv_step m a m' :
  mutex_inv m → step m a = Some m' → mutex_inv m'.
Proof.
  unfold mutex_inv, pending.
  intros (Hf & Hs1 & Hs2 & Hq) Hstep. destruct a as [event | | | i p]; simpl in Hstep.
  - (* push *)
    injection Hstep as <-. destruct (push (lq m) event) as [q' b] eqn:Hp.
    apply push_cases in Hp as (Hsd & Hsame & Hb).
    destruct b as [batch |]; cbn [started lq inflight].
    + destruct Hb as [Hb1 Hb2]. rewrite !count_origin_snoc, Hb2, Hsd.
      rewrite Hb1 in Hf. simpl.
      repeat split; try lia.
      * intros ?. apply Hs2. lia.
      * intros Hsh. rewrite (Hsame Hsh), Hb1 in Hb2. done.
    + rewrite Hb, Hsd. repeat split; try done.
      intros Hsh. rewrite (Hsame Hsh). auto.
  - (* tick *)
    destruct (flushTimer (lq m)); [| done]. injection Hstep as <-.
    unfold on_interval.
    destruct (0 <? length (queue (lq m)))%nat; [| by cbn [started lq inflight]].
    destruct (flush (lq m)) as [q' b] eqn:Hfl.
    apply flush_cases in Hfl as [Hsd Hb].
    destruct b as [batch |]; cbn [started lq inflight].
    + destruct Hb as (Hb1 & Hb2 & Hb3 & _).
      rewrite !count_origin_snoc, Hb2, Hsd. rewrite Hb1 in Hf. simpl.
      repeat split; try lia; [intros ?; apply Hs2; lia | done].
    + by subst q'.
  - (* signal *)
    injection Hstep as <-. unfold shutdown. cbn [queue].
    destruct (0 <? length (queue (lq m)))%nat eqn:Hne; cbn [started lq inflight].
    + rewrite !count_origin_snoc. simpl. cbn [isFlushing isShuttingDown queue].
      assert (count_origin ByShutdown (inflight m) = 0) as Hz.
      { destruct (count_origin ByShutdown (inflight m)) eqn:Hc; [done |].
        rewrite Hq in Hne by (apply Hs2; lia). done. }
      repeat split; try done; lia.
    + cbn [isFlushing isShuttingDown queue]. repeat split; try done.
      intros _. apply Nat.ltb_ge in Hne. destruct (queue (lq m)); [done | simpl in *; lia].
  - (* a promise settles *)
    destruct (inflight m !! i) as [[[|] batch] |] eqn:Hi; [| | done];
      injection Hstep as <-; cbn [lq inflight fst];
      pose proof (count_origin_delete ByFlush _ _ _ Hi) as HdF;
      pose proof (count_origin_delete ByShutdown _ _ _ Hi) as HdS;
      simpl in HdF, HdS.
    + unfold flush_settled. destruct (promise_catch _ _).
      cbn [fst isFlushing isShuttingDown queue].
      destruct (isFlushing (lq m)); repeat split; try lia; try done.
      intros ?. apply Hs2. lia.
    + unfold shutdown_settled. destruct p; cbn [fst];
        repeat split; try lia; try done.
Qed.

Lemma mutex_inv_run actions : ∀ m m',
  mutex_inv m → run m actions = Some m' → mutex_inv m'.
Proof.
  induction actions as [| a actions IH]; intros m m' Hinv; simpl.
  - by intros [= <-].
  - destruct (step m a) as [m1 |] eqn:Hstep; [| done].
    eauto using mutex_inv_step.
Qed.

Lemma mutex_inv_reachable m : reachable m → mutex_inv m.
Proof. intros [actions Hrun]. eapply mutex_inv_run; [apply mutex_inv_initial | done]. Qed.

Lemma inflight_split m :
  length (inflight m) = pending ByFlush m + pending ByShutdown m.
Proof.
  unfold pending, count_origin. induction (inflight m) as [| [[|] b] l IH]; [done | |];
    rewrite !filter_cons; simpl; lia.
Qed.

(** C1, as the code has it.  In every reachable state at most one dispatch
    started by [flush] is pending, and exactly when [isFlushing] is set; while
    it is, a call to [push] or a tick of the timer starts no dispatch.  The
    drain of the shutdown handler does not read the flag: it starts at most
    one dispatch of its own, so at most two are pending at any time. *)
Theorem flush_is_a_mutex m :
  reachable m →
  pending ByFlush m = (if isFlushing (lq m) then 1 else 0)
  ∧ pending ByShutdown m ≤ 1
  ∧ length (inflight m) ≤ 2
  ∧ (0 < pending ByFlush m →
     ∀ a m', a ≠ ASignal → trigger a → step m a = Some m' →
             inflight m' = inflight m).
Proof.
  intros Hr. destruct (mutex_inv_reachable m Hr) as (Hf & Hs & _ & _).
  split; [done |]. split; [done |]. split.
  { rewrite inflight_split, Hf. destruct (isFlushing (lq m)); lia. }
  intros Hpend a m' Hns Htr Hstep.
  assert (isFlushing (lq m) = true) as Hfl
    by (destruct (isFlushing (lq m)); [done | lia]).
  destruct a as [event | | | i p]; [| | done | done]; simpl in Hstep.
  - injection Hstep as <-. destruct (push (lq m) event) as [q' [batch |]] eqn:Hp.
    + apply push_cases in Hp as (_ & _ & Hb & _). congruence.
    + done.
  - destruct (flushTimer (lq m)); [| done]. injection Hstep as <-.
    unfold on_interval, flush. rewrite Hfl. simpl. by destruct (0 <? _)%nat.
Qed.

Lemma flush_is_a_mutex_witness :
  ∃ m, run initial fifty_pushed = Some m
       ∧ pending ByFlush m = 1
       ∧ length (inflight m) ≤ 2
       ∧ ∀ m', step m ATick = Some m' → inflight m' = inflight m.
Proof.
  destruct (run initial fifty_pushed) as [m |] eqn:Hrun; [| by vm_compute in Hrun].
  exists m.
  assert (reachable m) as Hr by (by exists fifty_pushed).
  assert (isFlushing (lq m) = true) as Hfl
    by (vm_compute in Hrun; by injection Hrun as <-).
  destruct (flush_is_a_mutex m Hr) as (Hf & _ & Hlen & Hquiet).
  rewrite Hfl in Hf.
  split; [done |]. split; [done |]. split; [done |].
  intros m' Hstep. apply (Hquiet ltac:(lia) ATick m'); done.
Defined.

(** The run that breaks the stronger reading: the size trigger starts a
    dispatch, one more event arrives, and the signal handler dispatches it
    while the first dispatch is pending. *)
Lemma shutdown_drain_ignores_flag : ¬ no_second_dispatch.
Proof.
  intros Hclaim.
  destruct (run initial (fifty_pushed ++ [APush (sample_event 50)])) as [m |] eqn:Hrun;
    [| by vm_compute in Hrun].
  assert (reachable m) as Hr by (by eexists).
  destruct (step m ASignal) as [m' |] eqn:Hstep; [| done].
  specialize (Hclaim m Hr).
  vm_compute in Hrun. injection Hrun as <-.
  specialize (Hclaim ltac:(vm_compute; lia) ASignal m' I Hstep).
  vm_compute in Hstep. injection Hstep as <-. discriminate Hclaim.
Qed.

End Mutex.

(** ** The dispatcher *)

Section Dispatcher.

Implicit Types (w : World) (config : Config) (logs : list LogEvent).

(** The body of [sendBatch], with the recursive call in place. *)
Lemma sendBatch_body w config logs attempt tick :
  sendBatch w config logs attempt tick =
  if isConfigValid config then
    let transformed := transform_all w logs tick in
    let started :=
      ELog LDebug ("Sending batch attempt " +:+ pretty attempt +:+ "/" +:+
                   pretty MAX_RETRIES) in
    let sample :=
      match fst transformed with
      | [] => []
      | _ :: _ => [ELog LDebug "Sample transformed log entry:"]
      end in
    match post_each w config (baseUrl config +:+ "/api/sdk/logs")
            (fst transformed) 0 0 (snd transformed) with
    | (effects, inl successCount, tick') =>
        (started :: sample ++ effects ++
           [ELog LDebug ("Batch sent successfully. " +:+ pretty successCount
                         +:+ "/" +:+ pretty (length (fst transformed))
                         +:+ " logs delivered")],
         Resolved, tick')
    | (effects, inr e, tick') =>
        let failed :=
          ELog LWarn ("Batch send failed (attempt " +:+ pretty attempt +:+ "): "
                      +:+ err_message e +:+ " (status: "
                      +:+ show_status (err_status e) +:+ ")") in
        if decide (attempt < MAX_RETRIES) then
          let delay := INITIAL_RETRY_DELAY * 2 ^ (attempt - 1) in
          let retried := sendBatch w config logs (attempt + 1) tick' in
          (started :: sample ++ effects ++
             [failed;
              ELog LDebug ("Retrying in " +:+ pretty delay +:+ "ms...");
              ESleep delay] ++ fst (fst retried),
           snd (fst retried), snd retried)
        else
          (started :: sample ++ effects ++ [failed],
           Rejected ("Failed to send batch after " +:+ pretty MAX_RETRIES
                     +:+ " attempts: " +:+ err_message e),
           tick')
    end
  else ([ELog LDebug "Config invalid, skipping log send"], Resolved, tick).
Proof.
  rewrite sendBatch_equation_1. destruct (isConfigValid config).
  - rewrite sendBatch_clause_1_equation_1. cbv zeta.
    destruct (post_each _ _ _ _ _ _ _) as [[effects [n | e]] tick']; [done |].
    destruct (lt_dec attempt MAX_RETRIES), (decide (attempt < MAX_RETRIES)); done || lia.
  - by rewrite sendBatch_clause_1_equation_2.
Qed.

Lemma isConfigValid_false config :
  isConfigValid config = false ↔ apiKey config = "" ∨ baseUrl config = "".
Proof.
  unfold isConfigValid.
  destruct (String.eqb_spec (apiKey config) ""), (String.eqb_spec (baseUrl config) "");
    simpl; intuition congruence.
Qed.

(** C5. Config gating.  When the credential or the endpoint of the active
    configuration is empty, [sendBatch] sends nothing, waits for nothing,
    warns of nothing and asks the outside nothing: its promise resolves at
    once, at any attempt number, and the whole trace is one line at debug
    level. *)
Theorem config_gating w config logs attempt tick :
  apiKey config = "" ∨ baseUrl config = "" →
  sendBatch w config logs attempt tick =
    ([ELog LDebug "Config invalid, skipping log send"], Resolved, tick)
  ∧ schedule (fst (fst (sendBatch w config logs attempt tick))) = []
  ∧ warnings (fst (fst (sendBatch w config logs attempt tick))) = [].
Proof.
  intros Hempty%isConfigValid_false.
  rewrite sendBatch_body, Hempty. done.
Qed.

Lemma config_gating_witness :
  let config := mkConfig "" "https://collector.example" false in
  let logs := sample_event <$> seq 0 50 in
  sendBatch down config logs 1 0 =
    ([ELog LDebug "Config invalid, skipping log send"], Resolved, 0)
  ∧ schedule (fst (fst (sendBatch down config logs 1 0))) = []
  ∧ warnings (fst (fst (sendBatch down config logs 1 0))) = [].
Proof.
  intros config logs. apply (config_gating down config logs 1 0).
  left. reflexivity.
Defined.

Lemma transform_all_length w logs : ∀ tick,
  length (fst (transform_all w logs tick)) = length logs.
Proof.
  induction logs as [| log logs IH]; intros tick; simpl; [done |].
  destruct (transform w log tick) as [t tick1].
  specialize (IH tick1). destruct (transform_all w logs tick1). simpl in *. lia.
Qed.

(** One attempt on a collector that is down: the first log is sent, and
    nothing after it. *)
Lemma failed_attempt w config logs tick :
  always_fails w → logs ≠ [] →
  ∃ payload e tick',
    fst (transform_all w logs tick) ≠ [] ∧
    post_each w config (baseUrl config +:+ "/api/sdk/logs")
      (fst (transform_all w logs tick)) 0 0 (snd (transform_all w logs tick))
    = ([EPost 0 (baseUrl config +:+ "/api/sdk/logs") payload
          ("Bearer " +:+ apiKey config)], inr e, tick').
Proof.
  intros Hdown Hne.
  pose proof (transform_all_length w logs tick) as Hlen.
  destruct (transform_all w logs tick) as [[| payload rest] tick1]; simpl in *.
  { destruct logs; simpl in *; [done | lia]. }
  destruct (Hdown tick1 (baseUrl config +:+ "/api/sdk/logs") payload
              ("Bearer " +:+ apiKey config)) as [e He].
  exists payload, e, (S tick1). by rewrite He.
Qed.

Lemma schedule_app l1 l2 : schedule (l1 ++ l2) = schedule l1 ++ schedule l2.
Proof. apply omap_app. Qed.

Lemma warnings_app l1 l2 : warnings (l1 ++ l2) = warnings l1 ++ warnings l2.
Proof. apply omap_app. Qed.

(** A failed attempt that is not the last: the first log, the wait, and the
    next attempt on the same batch. *)
Lemma retry_schedule w config logs attempt tick :
  isConfigValid config = true → always_fails w → logs ≠ [] →
  attempt < MAX_RETRIES →
  ∃ tick',
    schedule (fst (fst (sendBatch w config logs attempt tick))) =
      Sent 0 :: Waited (INITIAL_RETRY_DELAY * 2 ^ (attempt - 1))
      :: schedule (fst (fst (sendBatch w config logs (attempt + 1) tick')))
    ∧ snd (fst (sendBatch w config logs attempt tick)) =
      snd (fst (sendBatch w config logs (attempt + 1) tick')).
Proof.
  intros Hvalid Hdown Hne Hlt.
  destruct (failed_attempt w config logs tick Hdown Hne)
    as (payload & e & tick' & Hsome & Hpost).
  exists tick'. rewrite (sendBatch_body w config logs attempt tick), Hvalid.
  cbv zeta. rewrite Hpost. rewrite decide_True by done.
  cbn [fst snd]. split; [| done].
  destruct (fst (transform_all w logs tick)); [done |].
  change (?x :: ?l ++ ?r) with ((x :: l) ++ r).
  rewrite !schedule_app. done.
Qed.

Lemma last_attempt w config logs attempt tick :
  isConfigValid config = true → always_fails w → logs ≠ [] →
  ¬ attempt < MAX_RETRIES →
  ∃ e,
    schedule (fst (fst (sendBatch w config logs attempt tick))) = [Sent 0]
    ∧ snd (fst (sendBatch w config logs attempt tick)) =
      Rejected ("Failed to send batch after " +:+ pretty MAX_RETRIES
                +:+ " attempts: " +:+ err_message e).
Proof.
  intros Hvalid Hdown Hne Hlt.
  destruct (failed_attempt w config logs tick Hdown Hne)
    as (payload & e & tick' & Hsome & Hpost).
  exists e. rewrite (sendBatch_body w config logs attempt tick), Hvalid.
  cbv zeta. rewrite Hpost. rewrite decide_False by done.
  cbn [fst snd]. split; [| done].
  destruct (fst (transform_all w logs tick)); [done |].
  change (?x :: ?l ++ ?r) with ((x :: l) ++ r).
  rewrite !schedule_app. done.
Qed.

(** C3. Retry schedule and exhaustion.  With a valid configuration, a batch
    whose transmissions always fail is attempted exactly three times, each
    attempt sending the log at index 0 and nothing after it, with a wait of
    1000 ms before the second attempt and of 2000 ms before the third; the
    promise then rejects.  The continuation of [flush], and the [catch] of
    the shutdown handler, turn the rejection into one line at warning
    level: the promise they leave is resolved, the flag is cleared and the
    batch is not put back in the queue. *)
Theorem retry_schedule_and_exhaustion w config logs tick :
  isConfigValid config = true → always_fails w → logs ≠ [] →
  ∃ message,
    schedule (fst (fst (sendBatch w config logs 1 tick))) =
      [Sent 0; Waited 1000; Sent 0; Waited 2000; Sent 0]
    ∧ snd (fst (sendBatch w config logs 1 tick)) = Rejected message
    ∧ (∀ q, ∃ line,
         flush_settled q (Rejected message) =
           (mkLogQueue (queue q) (flushTimer q) false (isShuttingDown q),
            Resolved, [ELog LWarn line]))
    ∧ (∀ q, ∃ line,
         shutdown_settled q (Rejected message) =
           (q, Resolved,
            [ELog LWarn line; ELog LDebug "Logsentinel queue shutdown complete"])).
Proof.
  intros Hvalid Hdown Hne.
  destruct (retry_schedule w config logs 1 tick Hvalid Hdown Hne)
    as (tick1 & Hs1 & Ho1); [unfold MAX_RETRIES; lia |].
  destruct (retry_schedule w config logs 2 tick1 Hvalid Hdown Hne)
    as (tick2 & Hs2 & Ho2); [unfold MAX_RETRIES; lia |].
  destruct (last_attempt w config logs 3 tick2 Hvalid Hdown Hne)
    as (e & Hs3 & Ho3); [unfold MAX_RETRIES; lia |].
  eexists. split; [| split; [| split]].
  - rewrite Hs1. change (1 + 1) with 2. rewrite Hs2. change (2 + 1) with 3.
    rewrite Hs3. reflexivity.
  - rewrite Ho1. change (1 + 1) with 2. rewrite Ho2. change (2 + 1) with 3.
    exact Ho3.
  - intros q. eexists. reflexivity.
  - intros q. eexists. reflexivity.
Qed.

Lemma down_always_fails : always_fails down.
Proof. intros n url payload authorization. by eexists. Qed.

Lemma retry_schedule_and_exhaustion_witness :
  ∃ message,
    schedule (fst (fst (sendBatch down sample_config [sample_event 0; sample_event 1] 1 0))) =
      [Sent 0; Waited 1000; Sent 0; Waited 2000; Sent 0]
    ∧ snd (fst (sendBatch down sample_config [sample_event 0; sample_event 1] 1 0)) =
      Rejected message
    ∧ (∀ q, ∃ line,
         flush_settled q (Rejected message) =
           (mkLogQueue (queue q) (flushTimer q) false (isShuttingDown q),
            Resolved, [ELog LWarn line]))
    ∧ (∀ q, ∃ line,
         shutdown_settled q (Rejected message) =
           (q, Resolved,
            [ELog LWarn line; ELog LDebug "Logsentinel queue shutdown complete"])).
Proof.
  apply (retry_schedule_and_exhaustion down sample_config
           [sample_event 0; sample_event 1] 0).
  - reflexivity.
  - exact down_always_fails.
  - discriminate.
Defined.

(** C9, as the code has it.  An event that carries a non-empty request id
    is transformed into the same wire event by every transformation, in
    every world, with that id for trace id and without a question to the
    clock or to the random source.  The wire events of an event without
    one agree on every field but [trace_id]. *)
Theorem wire_event_of_identified_event w1 w2 log tick1 tick2 :
  (∀ id, requestId log = Some id → id ≠ "" →
     fst (transform w1 log tick1) = fst (transform w2 log tick2)
     ∧ trace_id (fst (transform w1 log tick1)) = id
     ∧ snd (transform w1 log tick1) = tick1)
  ∧ t_timestamp (fst (transform w1 log tick1)) = t_timestamp (fst (transform w2 log tick2))
  ∧ t_request (fst (transform w1 log tick1)) = t_request (fst (transform w2 log tick2))
  ∧ t_response (fst (transform w1 log tick1)) = t_response (fst (transform w2 log tick2)).
Proof.
  unfold transform. split.
  - intros id Hid Hne. rewrite Hid. simpl.
    destruct (String.eqb_spec id ""); done.
  - by destruct (nonempty (requestId log)).
Qed.

Lemma wire_event_of_identified_event_witness :
  fst (transform down (sample_event 7) 0) =
    fst (transform (mkWorld (λ _, 0%Z) (λ _, "") (axios_post down)) (sample_event 7) 5)
  ∧ trace_id (fst (transform down (sample_event 7) 0)) = "req_7"
  ∧ snd (transform down (sample_event 7) 0) = 0.
Proof.
  apply (proj1 (wire_event_of_identified_event down
                  (mkWorld (λ _, 0%Z) (λ _, "") (axios_post down))
                  (sample_event 7) 0 5) "req_7").
  - reflexivity.
  - discriminate.
Defined.

(** Two transformations of one event without a request id, one clock tick
    apart, as two attempts of [sendBatch] make them. *)
Lemma generated_trace_id_differs : ¬ wire_event_determined.
Proof.
  intros Hclaim. specialize (Hclaim down anonymous_event 0 3).
  vm_compute in Hclaim. discriminate Hclaim.
Qed.

End Dispatcher.
(** ** The formatter *)

(** *** Assignments to a fresh object *)

Section Assignment.

Context {A : Type}.
Implicit Types (o l : list (string * A)) (kv : string * A).

Lemma set_own_fresh o key value :
  key ∉ fst <$> o → set_own o key value = o ++ [(key, value)].
Proof.
  induction o as [| kv o IH]; intros Hout; [done |].
  rewrite fmap_cons, not_elem_of_cons in Hout. destruct Hout as [Hne Hout].
  cbn [set_own]. destruct (String.eqb_spec (fst kv) key) as [Heq | _]; [congruence |].
  by rewrite IH.
Qed.

Lemma set_own_elem o key value kv :
  kv ∈ set_own o key value → kv ∈ o ∨ kv = (key, value).
Proof.
  induction o as [| kv0 o IH]; cbn [set_own].
  - intros ->%list_elem_of_singleton. by right.
  - destruct (String.eqb_spec (fst kv0) key) as [Heq | _].
    + intros [-> | Hin]%elem_of_cons; [right; by rewrite Heq |].
      left. by right.
    + intros [-> | Hin]%elem_of_cons; [left; by left |].
      destruct (IH Hin) as [? | ?]; [left; by right | by right].
Qed.

Lemma set_own_keys o key value k :
  k ∈ fst <$> set_own o key value ↔ k ∈ fst <$> o ∨ k = key.
Proof.
  induction o as [| kv0 o IH]; cbn [set_own].
  - rewrite fmap_cons, elem_of_cons. simpl. set_solver.
  - destruct (String.eqb_spec (fst kv0) key) as [Heq | _].
    + rewrite !fmap_cons, !elem_of_cons. simpl. intuition congruence.
    + rewrite !fmap_cons, !elem_of_cons, IH. tauto.
Qed.

Lemma set_own_NoDup o key value :
  NoDup (fst <$> o) → NoDup (fst <$> set_own o key value).
Proof.
  induction o as [| kv0 o IH]; cbn [set_own]; intros Hnd.
  - apply NoDup_singleton.
  - rewrite fmap_cons in Hnd. apply NoDup_cons in Hnd as [Hout Hnd].
    destruct (String.eqb_spec (fst kv0) key) as [Heq | Hne].
    + rewrite fmap_cons. by apply NoDup_cons.
    + rewrite fmap_cons. apply NoDup_cons. split; [| by apply IH].
      rewrite set_own_keys. intros [? | ?]; [done | congruence].
Qed.

(** What a run of assignments makes of the properties [o]. *)
Lemma assignments_elem l : ∀ o kv,
  kv ∈ fold_left (λ o kv, assign o (fst kv) (snd kv)) l o → kv ∈ o ∨ kv ∈ l.
Proof.
  induction l as [| kv0 l IH]; intros o kv Hin; [by left |].
  cbn [fold_left] in Hin. apply IH in Hin as [Hin | Hin]; [| right; by right].
  unfold assign in Hin. destruct (String.eqb (fst kv0) PROTO); [by left |].
  apply set_own_elem in Hin as [? | ->]; [by left |].
  right. destruct kv0. by left.
Qed.

Lemma assignments_keys l : ∀ o k,
  k ∈ fst <$> fold_left (λ o kv, assign o (fst kv) (snd kv)) l o
  ↔ k ∈ fst <$> o ∨ (k ∈ fst <$> l ∧ k ≠ PROTO).
Proof.
  induction l as [| kv0 l IH]; intros o k; cbn [fold_left].
  - rewrite fmap_nil, elem_of_nil. tauto.
  - rewrite IH, fmap_cons, elem_of_cons. unfold assign.
    destruct (String.eqb_spec (fst kv0) PROTO) as [Heq | Hne].
    + intuition congruence.
    + rewrite set_own_keys. intuition congruence.
Qed.

Lemma assignments_NoDup l : ∀ o,
  NoDup (fst <$> o) →
  NoDup (fst <$> fold_left (λ o kv, assign o (fst kv) (snd kv)) l o).
Proof.
  induction l as [| kv0 l IH]; intros o Hnd; [done |].
  cbn [fold_left]. apply IH. unfold assign.
  destruct (String.eqb (fst kv0) PROTO); [done | by apply set_own_NoDup].
Qed.

Lemma assignments_filter l : ∀ o,
  NoDup (fst <$> (o ++ l)) →
  fold_left (λ o kv, assign o (fst kv) (snd kv)) l o
  = o ++ filter (λ kv, fst kv ≠ PROTO) l.
Proof.
  induction l as [| kv0 l IH]; intros o Hnd; cbn [fold_left].
  - by rewrite filter_nil, app_nil_r.
  - assert (fst kv0 ∉ fst <$> o) as Hfresh.
    { rewrite fmap_app, fmap_cons in Hnd. apply NoDup_app in Hnd as (_ & Hdis & _).
      intros Hin. apply (Hdis _ Hin). by left. }
    unfold assign. destruct (String.eqb_spec (fst kv0) PROTO) as [Heq | Hne].
    + rewrite filter_cons_False by (intros ?; done).
      apply IH. rewrite fmap_app in *. rewrite fmap_cons in Hnd.
      apply NoDup_app in Hnd as (H1 & H2 & H3). apply NoDup_cons in H3 as [_ H3].
      apply NoDup_app. split; [done |]. split; [| done].
      intros k Hk Hk'. apply (H2 k Hk). by right.
    + rewrite filter_cons_True by done.
      rewrite set_own_fresh by done. destruct kv0 as [k0 v0]. simpl.
      rewrite IH; [by rewrite <- app_assoc |].
      by rewrite <- app_assoc.
Qed.

Lemma assign_all_filter l :
  NoDup (fst <$> l) → assign_all l = filter (λ kv, fst kv ≠ PROTO) l.
Proof. intros Hnd. unfold assign_all. by rewrite assignments_filter. Qed.

(** Properties without [__proto__] are copied as they are. *)
Lemma assign_all_whole l : copied_whole l → assign_all l = l.
Proof.
  intros [Hnd Hproto]. rewrite assign_all_filter by done.
  induction l as [| kv l IH]; [done |].
  rewrite fmap_cons in *. apply NoDup_cons in Hnd as [_ Hnd].
  apply not_elem_of_cons in Hproto as [Hne Hproto].
  rewrite filter_cons_True by done. by rewrite IH.
Qed.

Lemma assign_all_copied l : copied_whole (assign_all l).
Proof.
  unfold assign_all. split.
  - apply assignments_NoDup. apply NoDup_nil_2.
  - rewrite assignments_keys, fmap_nil, elem_of_nil. tauto.
Qed.

Lemma assign_all_elem l kv : kv ∈ assign_all l → kv ∈ l.
Proof.
  intros Hin. apply assignments_elem in Hin as [Hin | Hin]; [| done].
  by apply elem_of_nil in Hin.
Qed.

Lemma assign_all_keys l k :
  k ∈ fst <$> assign_all l ↔ k ∈ fst <$> l ∧ k ≠ PROTO.
Proof.
  unfold assign_all. rewrite assignments_keys, fmap_nil, elem_of_nil. tauto.
Qed.

(** The names that a run of assignments leaves, in order. *)
Lemma filter_keys l :
  fst <$> filter (λ kv, fst kv ≠ PROTO) l = filter (λ k, k ≠ PROTO) (fst <$> l).
Proof.
  induction l as [| kv l IH]; [done |].
  rewrite fmap_cons. destruct (decide (fst kv = PROTO)) as [Heq | Hne].
  - rewrite !filter_cons_False by (intros ?; done). done.
  - rewrite !filter_cons_True by done. by rewrite fmap_cons, IH.
Qed.

End Assignment.

Section Headers.

Lemma prefix_spec (a b : string) :
  String.prefix a b = true ↔ ∃ rest, b = a +:+ rest.
Proof.
  revert b. induction a as [| c a IH]; intros b.
  - split; [by exists b | by destruct b].
  - destruct b as [| d b]; simpl; [split; [done | by intros [? ?]] |].
    destruct (ascii_dec c d) as [-> | Hne].
    + rewrite IH. split; intros [rest Hr]; exists rest.
      * by rewrite Hr.
      * by injection Hr.
    + split; [done | intros [rest Hr]; by injection Hr].
Qed.

Lemma includes_spec (hay needle : string) :
  Str.includes hay needle = true ↔ contains hay needle.
Proof.
  unfold contains. induction hay as [| c hay IH].
  - change (Str.includes "" needle) with (String.prefix needle "" || false).
    rewrite orb_false_r, prefix_spec. split.
    + intros [rest Hr]. by exists "", rest.
    + intros (before & after & Hr). destruct before; simpl in Hr; [by exists after | done].
  - change (Str.includes (String c hay) needle)
      with (String.prefix needle (String c hay) || Str.includes hay needle).
    rewrite orb_true_iff, prefix_spec, IH. split.
    + intros [[rest Hr] | (before & after & Hr)].
      * by exists "", rest.
      * exists (String c before), after. simpl. by rewrite Hr.
    + intros (before & after & Hr). destruct before as [| d before]; simpl in Hr.
      * left. by exists after.
      * right. exists before, after. by injection Hr.
Qed.

Lemma sensitive_header_spec key :
  sensitive_header key = true ↔ redacted_header key.
Proof.
  unfold sensitive_header, redacted_header. cbv zeta.
  rewrite !orb_true_iff, !includes_spec, !String.eqb_eq. tauto.
Qed.

(** The headers that [sanitizeHeaders] returns, for the headers of an
    object. *)
Lemma sanitizeHeaders_kept headers :
  NoDup (fst <$> headers) →
  sanitizeHeaders headers
  = header_entry <$> filter (λ kv, fst kv ≠ PROTO) headers.
Proof.
  intros Hnd. unfold sanitizeHeaders.
  assert (fst <$> (header_entry <$> headers) = fst <$> headers) as Hkeys.
  { rewrite <- list_fmap_compose. apply list_fmap_ext. intros _ kv _.
    unfold header_entry. simpl. by destruct (sensitive_header (fst kv)). }
  rewrite assign_all_filter by by rewrite Hkeys.
  clear. induction headers as [| kv headers IH]; [done |].
  rewrite fmap_cons.
  assert (fst (header_entry kv) = fst kv) as Hk
    by (unfold header_entry; by destruct (sensitive_header (fst kv))).
  destruct (decide (fst kv = PROTO)) as [Heq | Hne].
  - rewrite !filter_cons_False by (rewrite ?Hk; intros ?; done). done.
  - rewrite !filter_cons_True by (rewrite ?Hk; done). by rewrite fmap_cons, IH.
Qed.

(** C8, as the code has it.  Of the headers of an object, [sanitizeHeaders]
    keeps those whose name is not [__proto__], in their order: the
    assignment to a fresh object creates no property of that name.  Of the
    headers it keeps, it replaces by the marker the value of every one
    whose lower-cased name is [authorization], [cookie] or [x-api-key], or
    contains [token] or [secret], and leaves the value of every other one
    as it is. *)
Theorem header_redaction headers i key value :
  NoDup (fst <$> headers) →
  filter (λ kv, fst kv ≠ "__proto__") headers !! i = Some (key, value) →
  length (sanitizeHeaders headers)
  = length (filter (λ kv, fst kv ≠ "__proto__") headers)
  ∧ (redacted_header key →
       sanitizeHeaders headers !! i = Some (key, VPrim (PStr "[REDACTED]")))
  ∧ (¬ redacted_header key →
       sanitizeHeaders headers !! i = Some (key, value)).
Proof.
  intros Hnd Hi. rewrite sanitizeHeaders_kept by done.
  change "__proto__" with PROTO in Hi.
  rewrite length_fmap. split; [done |].
  rewrite <- sensitive_header_spec, list_lookup_fmap, Hi. simpl.
  unfold header_entry. simpl.
  destruct (sensitive_header key); split; done.
Qed.

Lemma header_redaction_witness :
  let headers := [("Content-Type", VPrim (PStr "application/json"));
                  ("__proto__", VPrim (PStr "polluted"));
                  ("X-Api-Key", VPrim (PStr "key123"))] in
  length (sanitizeHeaders headers) = 2
  ∧ sanitizeHeaders headers !! 1 = Some ("X-Api-Key", VPrim (PStr "[REDACTED]"))
  ∧ sanitizeHeaders headers !! 0
    = Some ("Content-Type", VPrim (PStr "application/json")).
Proof.
  intros headers.
  assert (NoDup (fst <$> headers)) as Hnd
    by (refine (bool_decide_unpack _ _); vm_compute; exact I).
  destruct (header_redaction headers 1 "X-Api-Key" (VPrim (PStr "key123"))
              Hnd eq_refl) as (Hlen & Hredacted & _).
  destruct (header_redaction headers 0 "Content-Type"
              (VPrim (PStr "application/json")) Hnd eq_refl) as (_ & _ & Hkept).
  split; [exact Hlen |]. split.
  - apply Hredacted, sensitive_header_spec. reflexivity.
  - apply Hkept. rewrite <- sensitive_header_spec. discriminate.
Defined.

(** A header named [api-key] goes through with its value. *)
Lemma api_key_header_passes : ¬ header_rule_api_key.
Proof.
  intros Hclaim.
  destruct (Hclaim [("api-key", VPrim (PStr "key123"))] "api-key"
              (VPrim (PStr "key123"))) as [Hred _].
  - apply NoDup_singleton.
  - by left.
  - discriminate.
  - assert (redacted_header_api_key "api-key") as Hk by (right; right; by left).
    specialize (Hred Hk). vm_compute in Hred.
    apply list_elem_of_singleton in Hred. discriminate Hred.
Qed.

End Headers.

Section Capping.

Lemma substring_0_length n : ∀ s,
  n ≤ String.length s → String.length (String.substring 0 n s) = n.
Proof.
  induction n as [| n IH]; intros [| c s] Hn; simpl in *; try done; try lia.
  rewrite IH; [done | lia].
Qed.

Lemma append_cons c (a b : string) : String c a +:+ b = String c (a +:+ b).
Proof. reflexivity. Qed.

Lemma substring_0_prefix n : ∀ s,
  ∃ rest, s = String.substring 0 n s +:+ rest.
Proof.
  induction n as [| n IH]; intros [| c s]; simpl.
  - by exists "".
  - by eexists.
  - by exists "".
  - destruct (IH s) as [rest Hr]. exists rest. rewrite append_cons. by f_equal.
Qed.

Lemma append_length (a b : string) :
  String.length (a +:+ b) = String.length a + String.length b.
Proof.
  induction a as [| c a IH]; [done |].
  rewrite append_cons. simpl. by rewrite IH.
Qed.

(** C7. Size capping.  A string longer than [MAX_BODY_SIZE] (10240)
    characters comes back as its first 10240 characters followed by the
    marker; a string of at most 10240 characters comes back as it is.  Any
    other truthy value is measured on its serialised form: when that is
    longer than 10240 characters the result is the first 10240 characters
    of the serialised form followed by the marker, otherwise the value
    itself. *)
Theorem size_capping stack (h : Heap) :
  (∀ s, MAX_BODY_SIZE < String.length s →
     capSize stack h (VPrim (PStr s)) =
       VPrim (PStr (Str.take MAX_BODY_SIZE s +:+ "... [truncated]"))
     ∧ String.length (Str.take MAX_BODY_SIZE s) = 10 * 1024
     ∧ ∃ rest, s = Str.take MAX_BODY_SIZE s +:+ rest)
  ∧ (∀ s, String.length s ≤ MAX_BODY_SIZE →
       capSize stack h (VPrim (PStr s)) = VPrim (PStr s))
  ∧ (∀ body, truthy body = true → (∀ s, body ≠ VPrim (PStr s)) →
       (MAX_BODY_SIZE < String.length (safeStringify stack h body) →
          capSize stack h body =
            VPrim (PStr (Str.take MAX_BODY_SIZE (safeStringify stack h body)
                         +:+ "... [truncated]")))
       ∧ (String.length (safeStringify stack h body) ≤ MAX_BODY_SIZE →
          capSize stack h body = body)).
Proof.
  split; [| split].
  - intros s Hlong. split; [| split].
    + unfold capSize. destruct s as [| c s]; [simpl in Hlong; lia |].
      cbn [truthy truthy_prim negb String.eqb].
      replace (String.eqb (String c s) "") with false by done. cbn [negb].
      by rewrite (proj2 (Nat.ltb_lt _ _) Hlong).
    + apply (substring_0_length MAX_BODY_SIZE). lia.
    + apply substring_0_prefix.
  - intros s Hshort. unfold capSize.
    destruct (negb (truthy (VPrim (PStr s)))); [done |].
    by rewrite (proj2 (Nat.ltb_ge _ _) Hshort).
  - intros body Htruthy Hnot. unfold capSize. rewrite Htruthy. cbn [negb].
    split.
    + intros Hlong. rewrite (proj2 (Nat.ltb_lt _ _) Hlong).
      destruct body as [[| | | |s] | a]; try done. by destruct (Hnot s).
    + intros Hshort. rewrite (proj2 (Nat.ltb_ge _ _) Hshort).
      destruct body as [[| | | |s] | a]; try done. by destruct (Hnot s).
Qed.

Lemma size_capping_witness :
  let long := Str.replicate (20 * 1000) "a" in
  let short := Str.replicate 100 "a" in
  let h : Heap := {[ 1 := OObj [("data", VPrim (PStr long))];
                     2 := OObj [("data", VPrim (PStr short))] ]} in
  (capSize 8 h (VPrim (PStr long)) =
     VPrim (PStr (Str.take MAX_BODY_SIZE long +:+ "... [truncated]"))
   ∧ String.length (Str.take MAX_BODY_SIZE long) = 10 * 1024
   ∧ ∃ rest, long = Str.take MAX_BODY_SIZE long +:+ rest)
  ∧ capSize 8 h (VPrim (PStr short)) = VPrim (PStr short)
  ∧ capSize 8 h (VRef 1) =
      VPrim (PStr (Str.take MAX_BODY_SIZE (safeStringify 8 h (VRef 1))
                   +:+ "... [truncated]"))
  ∧ capSize 8 h (VRef 2) = VRef 2.
Proof.
  intros long short h.
  destruct (size_capping 8 h) as (Hlong & Hshort & Hother).
  split; [| split; [| split]].
  - apply Hlong. apply Nat.ltb_lt. vm_compute. reflexivity.
  - apply Hshort. apply Nat.leb_le. vm_compute. reflexivity.
  - apply (Hother (VRef 1)); [reflexivity | discriminate |].
    apply Nat.ltb_lt. vm_compute. reflexivity.
  - apply (Hother (VRef 2)); [reflexivity | discriminate |].
    apply Nat.leb_le. vm_compute. reflexivity.
Defined.

End Capping.

(** ** Loops in the monad *)

Section Loop.

Context {S A B : Type}.
Implicit Types (f g : A → M S B) (l : list A) (s : S).

Lemma mapM_cons_inv f x l s r s' :
  mapM f (x :: l) s = (r, s') →
  (∃ s1, f x s = (None, s1) ∧ r = None ∧ s' = s1)
  ∨ (∃ y s1, f x s = (Some y, s1) ∧
       ((mapM f l s1 = (None, s') ∧ r = None)
        ∨ (∃ ys, mapM f l s1 = (Some ys, s') ∧ r = Some (y :: ys)))).
Proof.
  simpl. unfold bind, ret. destruct (f x s) as [[y |] s1] eqn:Hx.
  - destruct (mapM f l s1) as [[ys |] s2] eqn:Hl; intros [= <- <-]; right;
      exists y, s1; (split; [done |]); [right | left]; eauto.
  - intros [= <- <-]. left. eauto.
Qed.

(** The states of a loop are related when those of each round are. *)
Lemma mapM_related (R : S → S → Prop) `{!Reflexive R, !Transitive R} f l :
  (∀ x s r s', x ∈ l → f x s = (r, s') → R s s') →
  ∀ s r s', mapM f l s = (r, s') → R s s'.
Proof.
  induction l as [| x l IH]; intros Hf s r s' Hrun.
  - injection Hrun as <- <-. done.
  - apply mapM_cons_inv in Hrun as [(s1 & Hx & _ & ->) | (y & s1 & Hx & Hrest)].
    + eapply Hf; [left | done].
    + assert (R s s1) by (eapply Hf; [left | done]).
      assert (R s1 s'); [| by etrans].
      destruct Hrest as [[Hrest _] | (ys & Hrest & _)];
        (eapply IH; [intros; eapply Hf; [by right | done] | done]).
Qed.

(** A loop whose rounds all return returns. *)
Lemma mapM_returns (P : S → Prop) f l :
  (∀ x s, x ∈ l → P s → ∃ y s', f x s = (Some y, s') ∧ P s') →
  ∀ s, P s → ∃ ys s', mapM f l s = (Some ys, s') ∧ P s'.
Proof.
  induction l as [| x l IH]; intros Hf s Hs.
  - by exists [], s.
  - destruct (Hf x s) as (y & s1 & Hx & Hs1); [left | done |].
    destruct (IH (λ x' s0 Hin, Hf x' s0 (list_elem_of_further _ _ _ Hin)) s1 Hs1)
      as (ys & s' & Hrest & Hs').
    exists (y :: ys), s'. simpl. unfold bind, ret. by rewrite Hx, Hrest.
Qed.

Lemma mapM_ext_Some f g l :
  (∀ x s y s', x ∈ l → f x s = (Some y, s') → g x s = (Some y, s')) →
  ∀ s ys s', mapM f l s = (Some ys, s') → mapM g l s = (Some ys, s').
Proof.
  induction l as [| x l IH]; intros Hfg s ys s' Hrun; [done |].
  apply mapM_cons_inv in Hrun as [(s1 & _ & ? & _) | (y & s1 & Hx & Hrest)]; [done |].
  destruct Hrest as [[_ ?] | (ys' & Hrest & [= ->])]; [done |].
  simpl. unfold bind, ret. rewrite (Hfg x s y s1) by (done || left).
  rewrite (IH (λ x' s0 y0 s0' Hin, Hfg x' s0 y0 s0' (list_elem_of_further _ _ _ Hin)) _ _ _ Hrest).
  done.
Qed.

(** The round of the element at a position, with the loops before and
    after it. *)
Lemma mapM_middle f l1 x l2 s ys s' :
  mapM f (l1 ++ x :: l2) s = (Some ys, s') →
  ∃ ys1 y ys2 s1 s2,
    ys = ys1 ++ y :: ys2 ∧ length ys1 = length l1 ∧
    mapM f l1 s = (Some ys1, s1) ∧ f x s1 = (Some y, s2) ∧
    mapM f l2 s2 = (Some ys2, s').
Proof.
  revert s ys. induction l1 as [| x1 l1 IH]; intros s ys Hrun.
  - apply mapM_cons_inv in Hrun as [(s1 & _ & ? & _) | (y & s1 & Hx & Hrest)]; [done |].
    destruct Hrest as [[_ ?] | (ys' & Hrest & [= ->])]; [done |].
    by exists [], y, ys', s, s1.
  - change ((x1 :: l1) ++ x :: l2) with (x1 :: (l1 ++ x :: l2)) in Hrun.
    apply mapM_cons_inv in Hrun as [(s1 & _ & ? & _) | (y1 & s1 & Hx & Hrest)]; [done |].
    destruct Hrest as [[_ ?] | (ys' & Hrest & [= ->])]; [done |].
    destruct (IH _ _ Hrest) as (ys1 & y & ys2 & sa & sb & -> & Hlen & H1 & Hy & H2).
    exists (y1 :: ys1), y, ys2, sa, sb. simpl. unfold bind, ret.
    rewrite Hx, H1. repeat split; try done. by rewrite Hlen.
Qed.

(** The round of the element at a position. *)
Lemma mapM_lookup (R : S → S → Prop) `{!Reflexive R, !Transitive R} f l :
  (∀ x s r s', x ∈ l → f x s = (r, s') → R s s') →
  ∀ s ys s' i x, mapM f l s = (Some ys, s') → l !! i = Some x →
  ∃ y s1 s2, ys !! i = Some y ∧ f x s1 = (Some y, s2) ∧ R s s1.
Proof.
  induction l as [| x0 l IH]; intros Hf s ys s' i x Hrun Hi; [done |].
  apply mapM_cons_inv in Hrun as [(s1 & _ & ? & _) | (y & s1 & Hx & Hrest)]; [done |].
  destruct Hrest as [[_ ?] | (ys' & Hrest & [= ->])]; [done |].
  destruct i as [| i].
  - injection Hi as ->. by exists y, s, s1.
  - assert (R s s1) as Hstep by (eapply Hf; [left | done]).
    destruct (IH (λ x' s0 r0 s0' Hin, Hf x' s0 r0 s0' (list_elem_of_further _ _ _ Hin))
                s1 ys' s' i x Hrest Hi) as (y' & sa & sb & Hy & Hfx & HR).
    exists y', sa, sb. split; [done |]. split; [done | by etrans].
Qed.

End Loop.

(** ** The expressions *)

Section Expressions.

Implicit Types (re : list Atom) (r : RegExp) (ps : list RegExp) (key : string)
  (cs : list ascii).

Lemma exec_from_found re : ∀ cs pos pos',
  is_Some (exec_from re cs pos) → is_Some (exec_from re cs pos').
Proof.
  induction cs as [| c cs IH]; intros pos pos'; cbn [exec_from];
    destruct (match_here re _); try done; eauto.
Qed.

(** A match in a suffix is a match in the string. *)
Lemma exec_from_drop re : ∀ i cs pos pos',
  is_Some (exec_from re (drop i cs) pos) → is_Some (exec_from re cs pos').
Proof.
  induction i as [| i IH]; intros cs pos pos' Hfound.
  - rewrite drop_0 in Hfound. by eapply exec_from_found.
  - destruct cs as [| c cs]; [by eapply exec_from_found |].
    cbn [drop] in Hfound. cbn [exec_from].
    destruct (match_here re (c :: cs)); [done |]. by eapply IH.
Qed.

Lemma test_source r key : source (snd (test r key)) = source r.
Proof.
  unfold test. destruct (_ <? _)%nat; [done |]. by destruct (exec_from _ _ _).
Qed.

(** The expression says yes only to a key it matches. *)
Lemma test_sound r key :
  fst (test r key) = true → matches (source r) key = true.
Proof.
  unfold test, matches. destruct (_ <? _)%nat; [done |].
  destruct (exec_from _ (drop _ _) _) as [e |] eqn:Hfound; [| done].
  intros _. apply bool_decide_eq_true.
  eapply exec_from_drop. by rewrite Hfound.
Qed.

(** A test that says no rewinds the expression. *)
Lemma test_rewinds r key :
  fst (test r key) = false → snd (test r key) = mkRegExp (source r) 0.
Proof.
  unfold test. destruct (_ <? _)%nat; [done |]. by destruct (exec_from _ _ _).
Qed.

(** A rewound expression answers exactly. *)
Lemma test_exact r key :
  lastIndex r = 0 → fst (test r key) = matches (source r) key.
Proof.
  unfold test, matches. intros ->. cbn [Nat.ltb Nat.leb drop].
  rewrite drop_0. by destruct (exec_from _ _ 0) as [e |].
Qed.

Lemma some_test_cons r ps key :
  some_test (r :: ps) key =
  if fst (test r key) then (true, snd (test r key) :: ps)
  else (fst (some_test ps key), snd (test r key) :: snd (some_test ps key)).
Proof.
  cbn [some_test]. destruct (test r key) as [[|] r']; [done |].
  by destruct (some_test ps key).
Qed.

Lemma some_test_sources ps key :
  source <$> snd (some_test ps key) = source <$> ps.
Proof.
  induction ps as [| r ps IH]; [done |].
  rewrite some_test_cons. destruct (fst (test r key)); cbn.
  - by rewrite test_source.
  - by rewrite test_source, IH.
Qed.

Lemma some_test_sound ps key :
  fst (some_test ps key) = true → matched_by ps key = true.
Proof.
  induction ps as [| r ps IH]; [done |].
  rewrite some_test_cons. cbn [matched_by existsb].
  destruct (fst (test r key)) eqn:Ht; cbn.
  - intros _. by rewrite (test_sound r key Ht).
  - intros Hrest. fold (matched_by ps key). rewrite (IH Hrest). apply orb_true_r.
Qed.

Lemma some_test_rewinds ps key :
  fst (some_test ps key) = false → snd (some_test ps key) = rewound ps.
Proof.
  induction ps as [| r ps IH]; [done |].
  rewrite some_test_cons. destruct (fst (test r key)) eqn:Ht; cbn; [done |].
  intros Hrest. by rewrite (test_rewinds r key Ht), (IH Hrest).
Qed.

Lemma some_test_exact ps key :
  Forall (λ r, lastIndex r = 0) ps → fst (some_test ps key) = matched_by ps key.
Proof.
  induction 1 as [| r ps Hr Hps IH]; [done |].
  rewrite some_test_cons. cbn [matched_by existsb].
  rewrite (test_exact r key Hr). by destruct (matches (source r) key).
Qed.

Lemma rewound_zero ps : Forall (λ r, lastIndex r = 0) (rewound ps).
Proof. unfold rewound. apply Forall_fmap. by apply Forall_true. Qed.

Lemma matched_by_sources ps ps' key :
  source <$> ps = source <$> ps' → matched_by ps key = matched_by ps' key.
Proof.
  revert ps'. induction ps as [| r ps IH]; intros [| r' ps'] Heq; try done.
  injection Heq as Hr Hps. cbn [matched_by existsb]. rewrite Hr. f_equal. by apply IH.
Qed.

(** X10. What the test of a key can get wrong.  Whatever the values of
    [lastIndex] left by earlier calls, the test never takes for sensitive a
    key that no expression matches.  It can miss a key that one matches;
    but a test that answers no rewinds every expression, so the test of
    the key that comes next is exact.  No two keys in a row are
    misjudged. *)
Theorem key_test_errs_one_way ps key :
  (fst (some_test ps key) = true → matched_by ps key = true)
  ∧ (fst (some_test ps key) = false →
     ∀ key', fst (some_test (snd (some_test ps key)) key') = matched_by ps key').
Proof.
  split; [apply some_test_sound |].
  intros Hno key'. rewrite (some_test_rewinds ps key Hno).
  rewrite some_test_exact by apply rewound_zero.
  apply matched_by_sources. unfold rewound. rewrite <- list_fmap_compose.
  by apply list_fmap_ext.
Qed.

Lemma key_test_errs_one_way_witness :
  let ps := mkRegExp (lits "password") 8 :: tail SENSITIVE_PATTERNS in
  matched_by ps "password" = true
  ∧ fst (some_test ps "password") = false
  ∧ ∀ key', fst (some_test (snd (some_test ps "password")) key') = matched_by ps key'.
Proof.
  intros ps. split; [vm_compute; reflexivity |]. split; [vm_compute; reflexivity |].
  apply (proj2 (key_test_errs_one_way ps "password")).
  vm_compute. reflexivity.
Defined.

End Expressions.

(** ** The sanitizer *)

Section Sanitizer.

Implicit Types (h : Heap) (s : San) (a b : addr) (obj v : Value) (t : Tree).

#[local] Instance grows_refl : Reflexive grows.
Proof. intros s. unfold grows. done. Qed.

#[local] Instance grows_trans : Transitive grows.
Proof. intros s1 s2 s3. unfold grows. set_solver. Qed.

Lemma recursiveSanitize_ref frames h a s :
  recursiveSanitize (S frames) h (VRef a) s =
  if bool_decide (a ∈ seen s) then (Some (TStr CIRCULAR), s)
  else
    match deref h a with
    | OArr items =>
        match mapM (recursiveSanitize frames h) items (entered a s) with
        | (Some ts, s') => (Some (TArr ts), s')
        | (None, s') => (None, s')
        end
    | OObj props =>
        match mapM (sanitize_entry (recursiveSanitize frames h)) props
                (entered a s) with
        | (Some ts, s') => (Some (TObj (assign_all ts)), s')
        | (None, s') => (None, s')
        end
    end.
Proof.
  simpl. unfold bind, seen_has, seen_add, gets, modify, ret, entered.
  destruct (bool_decide (a ∈ seen s)); [done |].
  destruct (deref h a) as [items | props]; by destruct (mapM _ _ _) as [[ts |] s'].
Qed.

Lemma sanitize_entry_cases (recur : Value → M San Tree) kv s r s' :
  sanitize_entry recur kv s = (r, s') →
  (fst (some_test (patterns s) (fst kv)) = true ∧
     r = Some (fst kv, TStr REDACTED) ∧ s' = tested (fst kv) s)
  ∨ (fst (some_test (patterns s) (fst kv)) = false ∧
     ((∃ p, snd kv = VPrim p ∧ r = Some (fst kv, TPrim p) ∧ s' = tested (fst kv) s)
      ∨ (∃ c, snd kv = VRef c ∧
           ((recur (VRef c) (tested (fst kv) s) = (None, s') ∧ r = None)
            ∨ (∃ t, recur (VRef c) (tested (fst kv) s) = (Some t, s') ∧
                    r = Some (fst kv, t)))))).
Proof.
  unfold sanitize_entry, bind, isSensitive, ret, tested.
  destruct (some_test (patterns s) (fst kv)) as [[|] ps]; simpl.
  - intros [= <- <-]. by left.
  - intros Hrun. right. split; [done |]. revert Hrun. destruct (snd kv) as [p | c].
    + intros [= <- <-]. left. eauto.
    + intros Hrec. right. exists c. split; [done |].
      destruct (recur (VRef c) _) as [[t |] s1]; injection Hrec as <- <-; eauto.
Qed.

Lemma sanitize_entry_grows (recur : Value → M San Tree) kv s r s' :
  (∀ v s0 r0 s0', recur v s0 = (r0, s0') → grows s0 s0') →
  sanitize_entry recur kv s = (r, s') → grows s s'.
Proof.
  intros Hrec Hentry.
  assert (grows s (tested (fst kv) s)) as Ht by (unfold grows, tested; done).
  apply sanitize_entry_cases in Hentry
    as [(_ & _ & ->) | (_ & [(p & _ & _ & ->) | (c & _ & Hc)])]; [done | done |].
  etrans; [exact Ht |]. destruct Hc as [[Hc _] | (t & Hc & _)]; by eapply Hrec.
Qed.

Lemma recursiveSanitize_grows stack h : ∀ obj s r s',
  recursiveSanitize stack h obj s = (r, s') → grows s s'.
Proof.
  induction stack as [| frames IH]; intros obj s r s' Hrun.
  - injection Hrun as <- <-. done.
  - destruct obj as [p | a]; [injection Hrun as <- <-; done |].
    rewrite recursiveSanitize_ref in Hrun.
    destruct (bool_decide (a ∈ seen s)); [injection Hrun as <- <-; done |].
    assert (grows s (entered a s)) as Hin by (unfold grows, entered; set_solver).
    etrans; [exact Hin |].
    destruct (deref h a) as [items | props];
      destruct (mapM _ _ _) as [r1 s1] eqn:Hloop;
      (assert (s' = s1) as -> by (destruct r1; by injection Hrun));
      (eapply (mapM_related grows); [| exact Hloop]).
    + intros; by eapply IH.
    + intros; by eapply sanitize_entry_grows.
Qed.

(** A call that returns has entered its object in the visited set. *)
Lemma recursiveSanitize_enters stack h a s t s' :
  recursiveSanitize stack h (VRef a) s = (Some t, s') → a ∈ seen s'.
Proof.
  destruct stack as [| frames]; [done |]. intros Hrun.
  destruct (decide (a ∈ seen s)) as [Hin | Hout].
  - apply recursiveSanitize_grows in Hrun. by apply Hrun.
  - rewrite recursiveSanitize_ref in Hrun.
    rewrite bool_decide_eq_false_2 in Hrun by done.
    assert (grows (entered a s) s') as Hgrow.
    { destruct (deref h a) as [items | props];
        destruct (mapM _ _ _) as [r1 s1] eqn:Hloop;
        (assert (s' = s1) as -> by (destruct r1; by injection Hrun));
        (eapply (mapM_related grows); [| exact Hloop]).
      - intros; by eapply recursiveSanitize_grows.
      - intros; eapply sanitize_entry_grows; [| done].
        intros; by eapply recursiveSanitize_grows. }
    apply Hgrow. unfold entered. simpl. set_solver.
Qed.

(** A visited object is not visited again. *)
Lemma recursiveSanitize_seen frames h a s :
  a ∈ seen s →
  recursiveSanitize (S frames) h (VRef a) s = (Some (TStr CIRCULAR), s).
Proof.
  intros Hin. rewrite recursiveSanitize_ref. by rewrite bool_decide_eq_true_2.
Qed.

Lemma unseen_grows h s s' : grows s s' → unseen h s' ≤ unseen h s.
Proof. unfold grows, unseen. intros Hg. apply subseteq_size. set_solver. Qed.

Lemma unseen_entered h a s o :
  h !! a = Some o → a ∉ seen s → unseen h (entered a s) < unseen h s.
Proof.
  intros Ha Hout. unfold unseen, entered. simpl. apply subset_size.
  assert (a ∈ dom h) by (apply elem_of_dom; eauto). set_solver.
Qed.

(** With more frames than objects not yet visited, the call returns. *)
Lemma recursiveSanitize_returns stack h : ∀ obj s,
  unseen h s < stack →
  ∃ t s', recursiveSanitize stack h obj s = (Some t, s').
Proof.
  induction stack as [| frames IH]; intros obj s Hroom; [lia |].
  destruct obj as [p | a]; [(eexists _, _; reflexivity) |].
  rewrite recursiveSanitize_ref.
  destruct (bool_decide (a ∈ seen s)) eqn:Hseen; [(eexists _, _; reflexivity) |].
  apply bool_decide_eq_false in Hseen.
  destruct (h !! a) as [o |] eqn:Ha; unfold deref; rewrite Ha; simpl;
    [| (eexists _, _; reflexivity)].
  pose proof (unseen_entered h a s o Ha Hseen) as Hless.
  destruct o as [items | props].
  - destruct (mapM_returns (λ s0, unseen h s0 < frames)
                (recursiveSanitize frames h) items) with (s := entered a s)
      as (ts & s' & -> & _); [| lia | (eexists _, _; reflexivity)].
    intros v s0 _ Hs0. destruct (IH v s0 Hs0) as (t & s0' & Ht).
    exists t, s0'. split; [done |].
    apply recursiveSanitize_grows, (unseen_grows h) in Ht. lia.
  - destruct (mapM_returns (λ s0, unseen h s0 < frames)
                (sanitize_entry (recursiveSanitize frames h)) props)
      with (s := entered a s) as (ts & s' & -> & _); [| lia | (eexists _, _; reflexivity)].
    intros kv s0 _ Hs0.
    assert (unseen h (tested (fst kv) s0) < frames) as Hs1 by done.
    destruct (IH (snd kv) (tested (fst kv) s0) Hs1) as (t & s0' & Ht).
    unfold sanitize_entry, bind, isSensitive, ret. fold (tested (fst kv) s0).
    destruct (some_test (patterns s0) (fst kv)) as [[|] ps] eqn:Htest.
    + eexists _, _. split; [done |]. done.
    + destruct (snd kv) as [p | c] eqn:Hv.
      * eexists _, _. split; [done |]. done.
      * unfold tested in Ht. rewrite Htest in Ht. simpl in Ht. rewrite Ht.
        eexists _, _. split; [done |].
        apply recursiveSanitize_grows, (unseen_grows h) in Ht.
        unfold unseen in *. simpl in *. lia.
Qed.

(** A result does not depend on the frames that were left over. *)
Lemma recursiveSanitize_deeper stack h : ∀ stack' obj s t s',
  stack ≤ stack' →
  recursiveSanitize stack h obj s = (Some t, s') →
  recursiveSanitize stack' h obj s = (Some t, s').
Proof.
  induction stack as [| frames IH]; intros stack' obj s t s' Hle Hrun; [done |].
  destruct stack' as [| frames']; [lia |].
  destruct obj as [p | a]; [done |].
  rewrite recursiveSanitize_ref in *.
  destruct (bool_decide (a ∈ seen s)); [done |].
  destruct (deref h a) as [items | props];
    destruct (mapM _ _ (entered a s)) as [[ts |] s1] eqn:Hloop; try done.
  - erewrite mapM_ext_Some; [exact Hrun | | exact Hloop].
    intros; eapply IH; [lia | done].
  - erewrite mapM_ext_Some; [exact Hrun | | exact Hloop].
    intros kv s0 y s0' _. unfold sanitize_entry, bind, isSensitive, ret.
    destruct (some_test (patterns s0) (fst kv)) as [[|] ps]; [done |].
    destruct (snd kv) as [p | c]; [done |].
    destruct (recursiveSanitize frames h (VRef c) _) as [[t0 |] s2] eqn:Hc; [| done].
    by rewrite (IH frames' _ _ _ _ ltac:(lia) Hc).
Qed.

Lemma unseen_fresh h ps : unseen h (mkSan ∅ ps) = size (dom h).
Proof. unfold unseen. simpl. f_equal. set_solver. Qed.

(** What a call on a reference returns: the marker or a copy. *)
Lemma recursiveSanitize_result stack h a s t s' :
  recursiveSanitize stack h (VRef a) s = (Some t, s') →
  t = TStr CIRCULAR ∨ expanded t.
Proof.
  destruct stack as [| frames]; [done |]. rewrite recursiveSanitize_ref.
  destruct (bool_decide (a ∈ seen s)); [intros [= <- _]; by left |].
  destruct (deref h a) as [items | props];
    destruct (mapM _ _ _) as [[ts |] s1]; intros [= <- _]; by right.
Qed.

(** The rounds of the loop over an object assign to its keys, in order. *)
Lemma sanitize_entry_keys (recur : Value → M San Tree) : ∀ props s tps s',
  mapM (sanitize_entry recur) props s = (Some tps, s') →
  fst <$> tps = fst <$> props.
Proof.
  induction props as [| kv props IH]; intros s tps s' Hrun.
  - by injection Hrun as <- <-.
  - apply mapM_cons_inv in Hrun as [(s1 & _ & ? & _) | (kt & s1 & Hkv & Hrest)]; [done |].
    destruct Hrest as [[_ ?] | (tps' & Hrest & [= ->])]; [done |].
    rewrite !fmap_cons, (IH _ _ _ Hrest). f_equal.
    apply sanitize_entry_cases in Hkv
      as [(_ & [= ->] & _) | (_ & [(p & _ & [= ->] & _) | (c & _ & Hrec)])];
      [done | done |].
    by destruct Hrec as [[_ ?] | (t & _ & [= ->])].
Qed.

(** An object of an ordinary heap is copied with all its keys. *)
Lemma ordinary_deref h a props :
  ordinary h → deref h a = OObj props → copied_whole props.
Proof.
  unfold deref. intros Hord. destruct (h !! a) as [o |] eqn:Ha; simpl.
  - intros ->. by eapply Hord.
  - intros [= <-]. split; [apply NoDup_nil_2 | apply not_elem_of_nil].
Qed.

Lemma assigned_whole (recur : Value → M San Tree) h a props s tps s' :
  ordinary h → deref h a = OObj props →
  mapM (sanitize_entry recur) props s = (Some tps, s') →
  assign_all tps = tps.
Proof.
  intros Hord Hd Hloop. apply assign_all_whole.
  unfold copied_whole. rewrite (sanitize_entry_keys _ _ _ _ _ Hloop).
  by eapply ordinary_deref.
Qed.

#[local] Instance same_sources_refl : Reflexive same_sources.
Proof. intros s. unfold same_sources. done. Qed.

#[local] Instance same_sources_trans : Transitive same_sources.
Proof. intros s1 s2 s3. unfold same_sources. congruence. Qed.

Lemma sanitize_entry_sources (recur : Value → M San Tree) kv s r s' :
  (∀ v s0 r0 s0', recur v s0 = (r0, s0') → same_sources s0 s0') →
  sanitize_entry recur kv s = (r, s') → same_sources s s'.
Proof.
  intros Hrec Hentry.
  assert (same_sources s (tested (fst kv) s)) as Ht.
  { unfold same_sources, tested. simpl. apply some_test_sources. }
  apply sanitize_entry_cases in Hentry
    as [(_ & _ & ->) | (_ & [(p & _ & _ & ->) | (c & _ & Hc)])]; [done | done |].
  etrans; [exact Ht |]. destruct Hc as [[Hc _] | (t & Hc & _)]; by eapply Hrec.
Qed.

Lemma recursiveSanitize_sources stack h : ∀ obj s r s',
  recursiveSanitize stack h obj s = (r, s') → same_sources s s'.
Proof.
  induction stack as [| frames IH]; intros obj s r s' Hrun.
  - injection Hrun as <- <-. done.
  - destruct obj as [p | a]; [injection Hrun as <- <-; done |].
    rewrite recursiveSanitize_ref in Hrun.
    destruct (bool_decide (a ∈ seen s)); [injection Hrun as <- <-; done |].
    assert (same_sources s (entered a s)) as Hin by done.
    etrans; [exact Hin |].
    destruct (deref h a) as [items | props];
      destruct (mapM _ _ _) as [r1 s1] eqn:Hloop;
      (assert (s' = s1) as -> by (destruct r1; by injection Hrun));
      (eapply (mapM_related same_sources); [| exact Hloop]).
    + intros; by eapply IH.
    + intros; by eapply sanitize_entry_sources.
Qed.

End Sanitizer.

(** ** Shared objects *)

Section Paths.

Context {S : Type} (vis : S → gset addr) (leaf : Tree → Prop) (h : Heap).
Implicit Types (s : S) (v : Value) (t : Tree) (a b : addr) (p : list nat).

Local Abbreviation paths := (paths vis leaf h).
Local Abbreviation chain := (chain vis leaf h).

Lemma copy_of_expanded b t : copy_of h b t → expanded t.
Proof. unfold copy_of. by destruct (deref h b), t. Qed.

Lemma paths_grows v t s s' : paths v t s s' → vis s ⊆ vis s'.
Proof. by intros [? _]. Qed.

Lemma chain_grows s vs ts s' : chain s vs ts s' → vis s ⊆ vis s'.
Proof.
  induction 1 as [s s' Heq | s s1 s2 s' v t vs ts Heq Hp Hc IH]; [set_solver |].
  apply paths_grows in Hp. set_solver.
Qed.

Lemma chain_length s vs ts s' : chain s vs ts s' → length vs = length ts.
Proof. induction 1; simpl; congruence. Qed.

(** The round at a position: an object visited between the start of the
    loop and the start of the round was copied by an earlier round. *)
Lemma chain_one s vs ts s' : chain s vs ts s' → ∀ i v t,
  vs !! i = Some v → ts !! i = Some t →
  ∃ s1 s2,
    paths v t s1 s2 ∧ vis s ⊆ vis s1 ∧ vis s2 ⊆ vis s'
    ∧ ∀ b, b ∈ vis s1 → b ∉ vis s →
        ∃ j vj tj q, j < i ∧ vs !! j = Some vj ∧ ts !! j = Some tj
                     ∧ copied_at h vj tj q b.
Proof.
  induction 1 as [| s s1 s2 s' v0 t0 vs ts Heq Hp Hc IH]; intros i v t Hv Ht; [done |].
  destruct i as [| i]; simplify_eq/=.
  - exists s1, s2. split; [done |]. split; [set_solver |].
    split; [by eapply chain_grows |]. intros b Hin Hout. set_solver.
  - destruct (IH i v t Hv Ht) as (s3 & s4 & Hp' & H23 & H4 & Hearlier).
    exists s3, s4. split; [done |].
    pose proof (paths_grows _ _ _ _ Hp) as H12.
    split; [set_solver |]. split; [done |].
    intros b Hin Hout. destruct (decide (b ∈ vis s2)) as [Hin2 | Hout2].
    + destruct Hp as (_ & _ & _ & Hvisited & _).
      destruct (Hvisited b Hin2) as [q Hq]; [set_solver |].
      exists 0, v0, t0, q. split; [lia | done].
    + destruct (Hearlier b Hin Hout2) as (j & vj & tj & q & Hj & Hvj & Htj & Hq).
      exists (Datatypes.S j), vj, tj, q. split; [lia | done].
Qed.

(** An object visited by the loop was copied by one of its rounds. *)
Lemma chain_visited s vs ts s' : chain s vs ts s' → ∀ b,
  b ∈ vis s' → b ∉ vis s →
  ∃ j vj tj q, vs !! j = Some vj ∧ ts !! j = Some tj ∧ copied_at h vj tj q b.
Proof.
  induction 1 as [s s' Heq | s s1 s2 s' v0 t0 vs ts Heq Hp Hc IH];
    intros b Hin Hout; [set_solver |].
  destruct (decide (b ∈ vis s2)) as [Hin2 | Hout2].
  - destruct Hp as (_ & _ & _ & Hvisited & _).
    destruct (Hvisited b Hin2) as [q Hq]; [set_solver |].
    by exists 0, v0, t0, q.
  - destruct (IH b Hin Hout2) as (j & vj & tj & q & Hvj & Htj & Hq).
    by exists (Datatypes.S j), vj, tj, q.
Qed.

Lemma chain_two s vs ts s' : chain s vs ts s' → ∀ i j vi vj ti tj,
  i < j →
  vs !! i = Some vi → ts !! i = Some ti →
  vs !! j = Some vj → ts !! j = Some tj →
  ∃ s1 s2 s3 s4,
    paths vi ti s1 s2 ∧ vis s2 ⊆ vis s3 ∧ paths vj tj s3 s4.
Proof.
  induction 1 as [| s s1 s2 s' v0 t0 vs ts Heq Hp Hc IH];
    intros i j vi vj ti tj Hlt Hvi Hti Hvj Htj; [done |].
  destruct j as [| j]; [lia |]. destruct i as [| i]; simplify_eq/=.
  - destruct (chain_one _ _ _ _ Hc j vj tj Hvj Htj) as (s3 & s4 & ? & ? & _).
    by exists s1, s2, s3, s4.
  - eapply IH; [| done | done | done | done]. lia.
Qed.

Lemma reaches_step a i p b :
  reaches h (VRef a) (i :: p) b →
  ∃ v, children (deref h a) !! i = Some v ∧ reaches h v p b.
Proof.
  inversion 1 as [| ? items ? v ? ? Hd Hi Hr | ? props ? kv ? ? Hd Hi Hr]; subst.
  - exists v. by rewrite Hd.
  - exists (snd kv). rewrite Hd. simpl. by rewrite list_lookup_fmap, Hi.
Qed.

Lemma reaches_into a i v p b :
  children (deref h a) !! i = Some v → reaches h v p b →
  reaches h (VRef a) (i :: p) b.
Proof.
  intros Hi Hr. destruct (deref h a) as [items | props] eqn:Hd; simpl in Hi.
  - by eapply reaches_item.
  - rewrite list_lookup_fmap in Hi.
    destruct (props !! i) as [kv |] eqn:Hkv; [| done]. injection Hi as <-.
    by eapply reaches_prop.
Qed.

Lemma subtree_step t i p tb :
  subtree t (i :: p) = Some tb →
  ∃ t', parts t !! i = Some t' ∧ subtree t' p = Some tb.
Proof.
  destruct t as [x | items | props]; simpl; [done | |].
  - destruct (items !! i) as [t' |] eqn:Hi; [eauto | done].
  - rewrite list_lookup_fmap. destruct (props !! i) as [kv |]; simpl; [eauto | done].
Qed.

Lemma subtree_into t i t' p :
  parts t !! i = Some t' → subtree t (i :: p) = subtree t' p.
Proof.
  destruct t as [x | items | props]; simpl; [done | |].
  - by intros ->.
  - rewrite list_lookup_fmap. destruct (props !! i) as [kv |]; simpl; [| done].
    by intros [= ->].
Qed.

Lemma copied_into a t i v t' q b :
  children (deref h a) !! i = Some v → parts t !! i = Some t' →
  copied_at h v t' q b → copied_at h (VRef a) t (i :: q) b.
Proof.
  intros Hv Ht (tb & Hr & Hs & Hc). exists tb.
  split; [by eapply reaches_into |]. split; [| done].
  by rewrite (subtree_into _ _ _ _ Ht).
Qed.

(** A tree that is not copied satisfies [paths] when the visited set is
    the same after as before, and when it is a leaf, the marker only if the
    object was visited. *)
Lemma paths_leaf v x s s' :
  vis s' = vis s →
  (∀ a, v = VRef a →
        leaf (TPrim x) ∧ (TPrim x = TStr CIRCULAR → a ∈ vis s)) →
  paths v (TPrim x) s s'.
Proof.
  intros Heq Hleaf. split; [set_solver |]. split; [| split; [| split]].
  - intros p b tb Hr Hsub. destruct p; [| done]. injection Hsub as <-.
    split; [done |]. intros _. inversion Hr; subst. by eapply Hleaf.
  - intros [| i1 p1] [| i2 p2] b t1 t2 Hne _ _ H1 H2; done.
  - intros b Hin Hout. set_solver.
  - intros p b Hr Hsub. destruct p; [| done]. injection Hsub as Hx.
    left. inversion Hr; subst. by eapply Hleaf.
Qed.

(** The object [a], entered between [s] and [s0] and copied to [t] by a
    loop over its values. *)
Lemma paths_node a t s s0 s' :
  a ∉ vis s → vis s0 = {[a]} ∪ vis s → copy_of h a t →
  chain s0 (children (deref h a)) (parts t) s' →
  paths (VRef a) t s s'.
Proof.
  intros Hout Hs0 Hcopy Hc.
  pose proof (copy_of_expanded _ _ Hcopy) as Hexp.
  pose proof (chain_grows _ _ _ _ Hc) as Hg.
  assert (copied_at h (VRef a) t [] a) as Hroot.
  { exists t. split; [constructor | done]. }
  split; [set_solver |]. split; [| split; [| split]].
  - intros [| i p] b tb Hr Hsubtree.
    + inversion Hr; subst. injection Hsubtree as <-.
      split; [| done]. intros _. split; [done |]. split; [set_solver | done].
    + apply reaches_step in Hr as (v & Hv & Hr).
      apply subtree_step in Hsubtree as (t' & Ht' & Hsubtree).
      destruct (chain_one _ _ _ _ Hc i v t' Hv Ht')
        as (s1 & s2 & (_ & Hp & _) & H1 & H2 & _).
      destruct (Hp p b tb Hr Hsubtree) as [Hcopied Hleaf].
      split; [| done]. intros Hx. destruct (Hcopied Hx) as (? & ? & ?).
      split; [set_solver |]. split; [set_solver | done].
  - intros [| i1 p1] [| i2 p2] b t1 t2 Hne Hr1 Hr2 Hs1 Hs2 Hx1 Hx2; [done | | |].
    + inversion Hr1; subst.
      apply reaches_step in Hr2 as (v & Hv & Hr2).
      apply subtree_step in Hs2 as (t' & Ht' & Hs2).
      destruct (chain_one _ _ _ _ Hc i2 v t' Hv Ht')
        as (s1 & s2 & (_ & Hp & _) & H1 & H2 & _).
      destruct (Hp p2 b t2 Hr2 Hs2) as [Hcopied _].
      destruct (Hcopied Hx2) as (? & ? & ?). set_solver.
    + inversion Hr2; subst.
      apply reaches_step in Hr1 as (v & Hv & Hr1).
      apply subtree_step in Hs1 as (t' & Ht' & Hs1).
      destruct (chain_one _ _ _ _ Hc i1 v t' Hv Ht')
        as (s1 & s2 & (_ & Hp & _) & H1 & H2 & _).
      destruct (Hp p1 b t1 Hr1 Hs1) as [Hcopied _].
      destruct (Hcopied Hx1) as (? & ? & ?). set_solver.
    + apply reaches_step in Hr1 as (v1 & Hv1 & Hr1).
      apply reaches_step in Hr2 as (v2 & Hv2 & Hr2).
      apply subtree_step in Hs1 as (t1' & Ht1' & Hs1).
      apply subtree_step in Hs2 as (t2' & Ht2' & Hs2).
      destruct (Nat.lt_trichotomy i1 i2) as [Hlt | [-> | Hlt]].
      * destruct (chain_two _ _ _ _ Hc i1 i2 v1 v2 t1' t2' Hlt Hv1 Ht1' Hv2 Ht2')
          as (s1 & s2 & s3 & s4 & (_ & Hp1 & _) & H23 & (_ & Hp2 & _)).
        destruct (Hp1 p1 b t1 Hr1 Hs1) as [Hc1 _].
        destruct (Hp2 p2 b t2 Hr2 Hs2) as [Hc2 _].
        destruct (Hc1 Hx1) as (? & ? & ?), (Hc2 Hx2) as (? & ? & ?). set_solver.
      * rewrite Hv1 in Hv2. injection Hv2 as <-.
        rewrite Ht1' in Ht2'. injection Ht2' as <-.
        destruct (chain_one _ _ _ _ Hc i2 v1 t1' Hv1 Ht1')
          as (s1 & s2 & (_ & _ & Hp & _) & _).
        eapply (Hp p1 p2); [congruence | done..].
      * destruct (chain_two _ _ _ _ Hc i2 i1 v2 v1 t2' t1' Hlt Hv2 Ht2' Hv1 Ht1')
          as (s1 & s2 & s3 & s4 & (_ & Hp2 & _) & H23 & (_ & Hp1 & _)).
        destruct (Hp1 p1 b t1 Hr1 Hs1) as [Hc1 _].
        destruct (Hp2 p2 b t2 Hr2 Hs2) as [Hc2 _].
        destruct (Hc1 Hx1) as (? & ? & ?), (Hc2 Hx2) as (? & ? & ?). set_solver.
  - intros b Hin Hnew. destruct (decide (b = a)) as [-> | Hne]; [by exists [] |].
    destruct (chain_visited _ _ _ _ Hc b Hin) as (j & vj & tj & q & Hvj & Htj & Hq);
      [set_solver |].
    exists (j :: q). by eapply copied_into.
  - intros [| i p] b Hr Hsubtree.
    { injection Hsubtree as ->. done. }
    apply reaches_step in Hr as (v & Hv & Hr).
    apply subtree_step in Hsubtree as (t' & Ht' & Hsubtree).
    destruct (chain_one _ _ _ _ Hc i v t' Hv Ht')
      as (s1 & s2 & (_ & _ & _ & _ & Hmark) & H1 & H2 & Hearlier).
    destruct (Hmark p b Hr Hsubtree) as [Hin | (q & Hq & Hcopied)].
    + destruct (decide (b ∈ vis s)) as [Hold | Hnew]; [by left |]. right.
      destruct (decide (b = a)) as [-> | Hne]; [by exists [] |].
      destruct (Hearlier b Hin) as (j & vj & tj & q & Hj & Hvj & Htj & Hq);
        [set_solver |].
      exists (j :: q). split; [by left |]. by eapply copied_into.
    + right. exists (i :: q). split; [by right |]. by eapply copied_into.
Qed.

End Paths.

Section Shared.

Implicit Types (h : Heap) (s : San) (sn : gset addr) (a b : addr) (v : Value).

#[local] Existing Instance same_sources_refl.
#[local] Existing Instance same_sources_trans.

Lemma items_chain h frames :
  (∀ v s t s', recursiveSanitize frames h v s = (Some t, s') →
               paths seen sanitizer_leaf h v t s s') →
  ∀ items s ts s',
    mapM (recursiveSanitize frames h) items s = (Some ts, s') →
    chain seen sanitizer_leaf h s items ts s'.
Proof.
  intros IH. induction items as [| v items IHl]; intros s ts s' Hrun.
  - injection Hrun as <- <-. by apply chain_nil.
  - apply mapM_cons_inv in Hrun as [(s1 & _ & ? & _) | (t & s1 & Hv & Hrest)]; [done |].
    destruct Hrest as [[_ ?] | (ts' & Hrest & [= ->])]; [done |].
    eapply (chain_cons _ _ _ s s s1); [done | by apply IH | by apply IHl].
Qed.

Lemma entries_chain h frames :
  (∀ v s t s', recursiveSanitize frames h v s = (Some t, s') →
               paths seen sanitizer_leaf h v t s s') →
  ∀ props s tps s',
    mapM (sanitize_entry (recursiveSanitize frames h)) props s = (Some tps, s') →
    chain seen sanitizer_leaf h s (snd <$> props) (snd <$> tps) s'.
Proof.
  intros IH. induction props as [| kv props IHl]; intros s tps s' Hrun.
  - injection Hrun as <- <-. by apply chain_nil.
  - apply mapM_cons_inv in Hrun as [(s1 & _ & ? & _) | (kt & s1 & Hkv & Hrest)]; [done |].
    destruct Hrest as [[_ ?] | (tps' & Hrest & [= ->])]; [done |].
    rewrite !fmap_cons.
    eapply (chain_cons _ _ _ s (tested (fst kv) s) s1); [done | | by apply IHl].
    apply sanitize_entry_cases in Hkv
      as [(_ & [= ->] & ->) | (_ & [(p & Hp & [= ->] & ->) | (c & Hc & Hrec)])].
    + apply paths_leaf; [done |]. intros c _. split; [by right | done].
    + apply paths_leaf; [done |]. intros c Hc. congruence.
    + destruct Hrec as [[_ ?] | (t & Hrec & [= ->])]; [done |].
      rewrite Hc. by apply IH.
Qed.

Lemma recursiveSanitize_paths stack h : ordinary h → ∀ v s t s',
  recursiveSanitize stack h v s = (Some t, s') →
  paths seen sanitizer_leaf h v t s s'.
Proof.
  intros Hord. induction stack as [| frames IH]; intros v s t s' Hrun; [done |].
  destruct v as [p | a].
  { injection Hrun as <- <-. by apply paths_leaf. }
  rewrite recursiveSanitize_ref in Hrun.
  destruct (bool_decide (a ∈ seen s)) eqn:Hseen.
  { injection Hrun as <- <-. apply bool_decide_eq_true in Hseen.
    apply paths_leaf; [done |]. intros ? [= <-]. split; [by left | done]. }
  apply bool_decide_eq_false in Hseen.
  destruct (deref h a) as [items | props] eqn:Hd;
    destruct (mapM _ _ _) as [[ts |] s1] eqn:Hloop; try done;
    injection Hrun as <- <-.
  - pose proof (items_chain h frames IH _ _ _ _ Hloop) as Hc.
    eapply (paths_node seen sanitizer_leaf h a _ s (entered a s)); [done | done | |].
    + unfold copy_of. rewrite Hd. symmetry. by eapply chain_length.
    + by rewrite Hd.
  - rewrite (assigned_whole _ h a props _ _ _ Hord Hd Hloop).
    pose proof (entries_chain h frames IH _ _ _ _ Hloop) as Hc.
    eapply (paths_node seen sanitizer_leaf h a _ s (entered a s)); [done | done | |].
    + unfold copy_of. rewrite Hd. by eapply sanitize_entry_keys.
    + by rewrite Hd.
Qed.

(** The redaction marker stands only under a key that an expression
    matches. *)
Lemma recursiveSanitize_redacts stack h : ordinary h → ∀ v s t s',
  recursiveSanitize stack h v s = (Some t, s') →
  ∀ q i c props key b,
    reaches h v q c → deref h c = OObj props →
    props !! i = Some (key, VRef b) →
    subtree t (q ++ [i]) = Some (TStr REDACTED) →
    matched_by (patterns s) key = true.
Proof.
  intros Hord. induction stack as [| frames IH]; intros v s t s' Hrun; [done |].
  intros q i c props key b Hr Hc Hi Hsub.
  destruct v as [p | a]; [inversion Hr |].
  rewrite recursiveSanitize_ref in Hrun.
  destruct (bool_decide (a ∈ seen s)).
  { injection Hrun as <- <-. by destruct q. }
  assert (∀ s1, same_sources (entered a s) s1 →
                matched_by (patterns s1) key = true →
                matched_by (patterns s) key = true) as Hback.
  { intros s1 Hsame <-. apply matched_by_sources. unfold same_sources in Hsame. simpl in Hsame. by symmetry. }
  destruct (deref h a) as [items | props0] eqn:Hd;
    destruct (mapM _ _ _) as [[ts |] s1] eqn:Hloop; try done;
    injection Hrun as <- <-.
  - destruct q as [| j q]; [inversion Hr; subst; congruence |].
    apply reaches_step in Hr as (vj & Hvj & Hr). rewrite Hd in Hvj. simpl in Hvj.
    change ((j :: q) ++ [i]) with (j :: (q ++ [i])) in Hsub.
    apply subtree_step in Hsub as (tj & Htj & Hsub). simpl in Htj.
    destruct (mapM_lookup same_sources (recursiveSanitize frames h) items)
      with (s := entered a s) (ys := ts) (s' := s1) (i := j) (x := vj)
      as (y & sa & sb & Hy & Hcall & Hsame); [| done | done |].
    { intros; by eapply recursiveSanitize_sources. }
    rewrite Htj in Hy. injection Hy as <-.
    eapply Hback; [exact Hsame |]. by eapply IH.
  - rewrite (assigned_whole _ h a props0 _ _ _ Hord Hd Hloop) in Hsub.
    assert (∀ j kv, props0 !! j = Some kv →
              ∃ kt sa sb, ts !! j = Some kt
                ∧ sanitize_entry (recursiveSanitize frames h) kv sa = (Some kt, sb)
                ∧ same_sources (entered a s) sa) as Hround.
    { intros j kv Hkv.
      eapply (mapM_lookup same_sources); [| exact Hloop | exact Hkv].
      intros; eapply sanitize_entry_sources; [| done].
      intros; by eapply recursiveSanitize_sources. }
    destruct q as [| j q].
    + inversion Hr; subst. rewrite Hd in Hc. injection Hc as <-.
      destruct (Hround i _ Hi) as (kt & sa & sb & Hkt & Hentry & Hsame).
      simpl in Hsub. rewrite Hkt in Hsub. injection Hsub as Hred.
      eapply Hback; [exact Hsame |].
      apply sanitize_entry_cases in Hentry
        as [(Hyes & _) | (_ & [(p & Hp & _) | (c0 & _ & Hrec)])].
      * by apply some_test_sound.
      * done.
      * destruct Hrec as [[_ ?] | (t0 & Hrec & [= ->])]; [done |].
        simpl in Hred. subst t0.
        by apply recursiveSanitize_result in Hrec as [? | ?].
    + apply reaches_step in Hr as (vj & Hvj & Hr). rewrite Hd in Hvj. simpl in Hvj.
      rewrite list_lookup_fmap in Hvj.
      destruct (props0 !! j) as [kvj |] eqn:Hkvj; [| done]. injection Hvj as <-.
      change ((j :: q) ++ [i]) with (j :: (q ++ [i])) in Hsub.
      simpl in Hsub.
      destruct (Hround j _ Hkvj) as (kt & sa & sb & Hkt & Hentry & Hsame).
      rewrite Hkt in Hsub.
      apply sanitize_entry_cases in Hentry
        as [(_ & [= ->] & _) | (_ & [(p & _ & [= ->] & _) | (c0 & Hc0 & Hrec)])].
      * by destruct q.
      * by destruct q.
      * destruct Hrec as [[_ ?] | (t0 & Hrec & [= ->])]; [done |].
        rewrite Hc0 in Hr. eapply Hback; [exact Hsame |].
        rewrite <- (matched_by_sources (patterns (tested (fst kvj) sa))).
        -- by eapply IH.
        -- unfold tested. simpl. apply some_test_sources.
Qed.

(** [replaced], unfolded at a reference. *)
Lemma replaced_ref frames h a sn :
  replaced (S frames) h (VRef a) sn =
  if bool_decide (a ∈ sn) then (Some (TStr CIRCULAR), sn)
  else
    match deref h a with
    | OArr items =>
        match mapM (replaced frames h) items ({[a]} ∪ sn) with
        | (Some ts, sn') => (Some (TArr ts), sn')
        | (None, sn') => (None, sn')
        end
    | OObj props =>
        match mapM (replace_entry (replaced frames h)) props ({[a]} ∪ sn) with
        | (Some ts, sn') => (Some (TObj ts), sn')
        | (None, sn') => (None, sn')
        end
    end.
Proof.
  simpl. unfold bind, gets, modify, ret.
  destruct (bool_decide (a ∈ sn)); [done |].
  destruct (deref h a) as [items | props]; by destruct (mapM _ _ _) as [[ts |] s'].
Qed.

#[local] Instance grows_set_refl : Reflexive grows_set.
Proof. intros sn. unfold grows_set. done. Qed.

#[local] Instance grows_set_trans : Transitive grows_set.
Proof. intros s1 s2 s3. unfold grows_set. set_solver. Qed.

Lemma replace_entry_inv (recur : Value → M (gset addr) Tree) kv sn r sn' :
  replace_entry recur kv sn = (r, sn') →
  (recur (snd kv) sn = (None, sn') ∧ r = None)
  ∨ (∃ t, recur (snd kv) sn = (Some t, sn') ∧ r = Some (fst kv, t)).
Proof.
  unfold replace_entry, bind, ret.
  destruct (recur (snd kv) sn) as [[t |] s1]; intros [= <- <-]; eauto.
Qed.

Lemma replaced_grows stack h : ∀ v sn r sn',
  replaced stack h v sn = (r, sn') → grows_set sn sn'.
Proof.
  induction stack as [| frames IH]; intros v sn r sn' Hrun.
  - injection Hrun as <- <-. done.
  - destruct v as [p | a].
    { destruct p; injection Hrun as <- <-; done. }
    rewrite replaced_ref in Hrun.
    destruct (bool_decide (a ∈ sn)); [injection Hrun as <- <-; done |].
    assert (grows_set sn ({[a]} ∪ sn)) as Hin by (unfold grows_set; set_solver).
    etrans; [exact Hin |].
    destruct (deref h a) as [items | props];
      destruct (mapM _ _ _) as [r1 s1] eqn:Hloop;
      (assert (sn' = s1) as -> by (destruct r1; by injection Hrun));
      (eapply (mapM_related grows_set); [| exact Hloop]).
    + intros; by eapply IH.
    + intros kv s0 r0 s0' _ Hentry.
      apply replace_entry_inv in Hentry as [[Hrec _] | (t & Hrec & _)]; by eapply IH.
Qed.

Lemma replace_entry_keys (recur : Value → M (gset addr) Tree) : ∀ props sn tps sn',
  mapM (replace_entry recur) props sn = (Some tps, sn') →
  fst <$> tps = fst <$> props.
Proof.
  induction props as [| kv props IH]; intros s tps s' Hrun.
  - by injection Hrun as <- <-.
  - apply mapM_cons_inv in Hrun as [(s1 & _ & ? & _) | (kt & s1 & Hkv & Hrest)]; [done |].
    destruct Hrest as [[_ ?] | (tps' & Hrest & [= ->])]; [done |].
    rewrite !fmap_cons, (IH _ _ _ Hrest). f_equal.
    by apply replace_entry_inv in Hkv as [[_ ?] | (t & _ & [= ->])].
Qed.

Lemma replaced_items_chain h frames :
  (∀ v sn t sn', replaced frames h v sn = (Some t, sn') →
                 paths id replacer_leaf h v t sn sn') →
  ∀ items sn ts sn',
    mapM (replaced frames h) items sn = (Some ts, sn') →
    chain id replacer_leaf h sn items ts sn'.
Proof.
  intros IH. induction items as [| v items IHl]; intros s ts s' Hrun.
  - injection Hrun as <- <-. by apply chain_nil.
  - apply mapM_cons_inv in Hrun as [(s1 & _ & ? & _) | (t & s1 & Hv & Hrest)]; [done |].
    destruct Hrest as [[_ ?] | (ts' & Hrest & [= ->])]; [done |].
    eapply (chain_cons _ _ _ s s s1); [done | by apply IH | by apply IHl].
Qed.

Lemma replaced_entries_chain h frames :
  (∀ v sn t sn', replaced frames h v sn = (Some t, sn') →
                 paths id replacer_leaf h v t sn sn') →
  ∀ props sn tps sn',
    mapM (replace_entry (replaced frames h)) props sn = (Some tps, sn') →
    chain id replacer_leaf h sn (snd <$> props) (snd <$> tps) sn'.
Proof.
  intros IH. induction props as [| kv props IHl]; intros s tps s' Hrun.
  - injection Hrun as <- <-. by apply chain_nil.
  - apply mapM_cons_inv in Hrun as [(s1 & _ & ? & _) | (kt & s1 & Hkv & Hrest)]; [done |].
    destruct Hrest as [[_ ?] | (tps' & Hrest & [= ->])]; [done |].
    rewrite !fmap_cons.
    apply replace_entry_inv in Hkv as [[_ ?] | (t & Hrec & [= ->])]; [done |].
    eapply (chain_cons _ _ _ s s s1); [done | by apply IH | by apply IHl].
Qed.

Lemma replaced_paths stack h : ∀ v sn t sn',
  replaced stack h v sn = (Some t, sn') →
  paths id replacer_leaf h v t sn sn'.
Proof.
  induction stack as [| frames IH]; intros v s t s' Hrun; [done |].
  destruct v as [p | a].
  { destruct p; injection Hrun as <- <-; by apply paths_leaf. }
  rewrite replaced_ref in Hrun.
  destruct (bool_decide (a ∈ s)) eqn:Hseen.
  { injection Hrun as <- <-. apply bool_decide_eq_true in Hseen.
    apply paths_leaf; [done |]. by intros ? [= <-]. }
  apply bool_decide_eq_false in Hseen.
  destruct (deref h a) as [items | props] eqn:Hd;
    destruct (mapM _ _ _) as [[ts |] s1] eqn:Hloop; try done;
    injection Hrun as <- <-.
  - pose proof (replaced_items_chain h frames IH _ _ _ _ Hloop) as Hc.
    eapply (paths_node id replacer_leaf h a _ s ({[a]} ∪ s)); [done | done | |].
    + unfold copy_of. rewrite Hd. symmetry. by eapply chain_length.
    + by rewrite Hd.
  - pose proof (replaced_entries_chain h frames IH _ _ _ _ Hloop) as Hc.
    eapply (paths_node id replacer_leaf h a _ s ({[a]} ∪ s)); [done | done | |].
    + unfold copy_of. rewrite Hd. by eapply replace_entry_keys.
    + by rewrite Hd.
Qed.

Lemma replaced_returns stack h : ∀ v sn,
  size (dom h ∖ sn) < stack →
  ∃ t sn', replaced stack h v sn = (Some t, sn') ∧ t ≠ TPrim PUndefined.
Proof.
  induction stack as [| frames IH]; intros v sn Hroom; [lia |].
  destruct v as [p | a]; [destruct p; by eexists _, _ |].
  rewrite replaced_ref.
  destruct (bool_decide (a ∈ sn)) eqn:Hseen; [by eexists _, _ |].
  apply bool_decide_eq_false in Hseen.
  destruct (h !! a) as [o |] eqn:Ha; unfold deref; rewrite Ha; simpl;
    [| by eexists _, _].
  assert (size (dom h ∖ ({[a]} ∪ sn)) < size (dom h ∖ sn)) as Hless.
  { apply subset_size. assert (a ∈ dom h) by (apply elem_of_dom; eauto). set_solver. }
  destruct o as [items | props].
  - destruct (mapM_returns (λ sn0, size (dom h ∖ sn0) < frames)
                (replaced frames h) items) with (s := {[a]} ∪ sn)
      as (ts & s' & -> & _); [| lia | by eexists _, _].
    intros v s0 _ Hs0. destruct (IH v s0 Hs0) as (t & s0' & Ht & _).
    exists t, s0'. split; [done |].
    apply replaced_grows in Ht.
    assert (size (dom h ∖ s0') ≤ size (dom h ∖ s0))
      by (apply subseteq_size; unfold grows_set in Ht; set_solver).
    lia.
  - destruct (mapM_returns (λ sn0, size (dom h ∖ sn0) < frames)
                (replace_entry (replaced frames h)) props) with (s := {[a]} ∪ sn)
      as (ts & s' & -> & _); [| lia | by eexists _, _].
    intros kv s0 _ Hs0. destruct (IH (snd kv) s0 Hs0) as (t & s0' & Ht & _).
    exists (fst kv, t), s0'. unfold replace_entry, bind, ret. rewrite Ht.
    split; [done |].
    apply replaced_grows in Ht.
    assert (size (dom h ∖ s0') ≤ size (dom h ∖ s0))
      by (apply subseteq_size; unfold grows_set in Ht; set_solver).
    lia.
Qed.

Lemma stringify_defined (t : Tree) :
  t ≠ TPrim PUndefined → is_Some (JSON.stringify t).
Proof. destruct t as [[| | | |] | |]; cbn; eauto; done. Qed.


End Shared.

Section Claims.

Implicit Types (h : Heap) (s : San) (a b : addr) (v obj : Value).

(** C6. Sanitizer termination and totality.  Whatever the heap, cyclic or
    not, a call stack deeper than the number of its objects is never
    exhausted by [recursiveSanitize]: the call returns, and [sanitize]
    gives the same result at every such depth.  A reference to an object
    of the visited set is answered by the marker at once, with no change
    of state.  And when [recursiveSanitize] raises, [sanitize] returns the
    sentinel instead. *)
Theorem sanitize_terminates_and_catches h obj ps :
  (∀ stack, size (dom h) < stack →
     (∃ t s', recursiveSanitize stack h obj (mkSan ∅ ps) = (Some t, s'))
     ∧ sanitize stack h obj ps = sanitize (S (size (dom h))) h obj ps)
  ∧ (∀ frames a s, a ∈ seen s →
       recursiveSanitize (S frames) h (VRef a) s =
         (Some (TStr "[Circular Reference]"), s))
  ∧ (∀ stack a s',
       recursiveSanitize stack h (VRef a) (mkSan ∅ ps) = (None, s') →
       sanitize stack h (VRef a) ps = (TStr "[sanitization failed]", patterns s')).
Proof.
  split; [| split].
  - intros stack Hdeep.
    destruct (recursiveSanitize_returns (S (size (dom h))) h obj (mkSan ∅ ps))
      as (t & s' & Hrun); [rewrite unseen_fresh; lia |].
    assert (S (size (dom h)) ≤ stack) as Hle by lia.
    pose proof (recursiveSanitize_deeper _ h stack _ _ _ _ Hle Hrun) as Hdeeper.
    split; [by exists t, s' |].
    unfold sanitize. destruct obj; [done |]. by rewrite Hrun, Hdeeper.
  - intros frames a s. apply recursiveSanitize_seen.
  - intros stack a s' Hraise. unfold sanitize. by rewrite Hraise.
Qed.

Lemma sanitize_terminates_and_catches_witness :
  ((∃ t s', recursiveSanitize 3 knot (VRef 1) (mkSan ∅ SENSITIVE_PATTERNS) = (Some t, s'))
   ∧ sanitize 3 knot (VRef 1) SENSITIVE_PATTERNS =
     sanitize (S (size (dom knot))) knot (VRef 1) SENSITIVE_PATTERNS)
  ∧ recursiveSanitize 1 knot (VRef 1) (mkSan {[1]} SENSITIVE_PATTERNS) =
      (Some (TStr "[Circular Reference]"), mkSan {[1]} SENSITIVE_PATTERNS)
  ∧ sanitize 1 knot (VRef 1) SENSITIVE_PATTERNS =
      (TStr "[sanitization failed]", SENSITIVE_PATTERNS).
Proof.
  destruct (sanitize_terminates_and_catches knot (VRef 1) SENSITIVE_PATTERNS)
    as (Hdeep & Hseen & Hraise).
  split; [| split].
  - apply Hdeep. vm_compute. lia.
  - apply (Hseen 0 1 (mkSan {[1]} SENSITIVE_PATTERNS)). set_solver.
  - apply (Hraise 1 1 (mkSan {[1]} SENSITIVE_PATTERNS)). vm_compute. reflexivity.
Defined.

Lemma diamond_ordinary : ordinary diamond.
Proof.
  intros a props Ha. unfold diamond in Ha.
  destruct (decide (a = 1)) as [-> | H1]; [| destruct (decide (a = 2)) as [-> | H2]];
    simplify_map_eq; (split; [refine (bool_decide_unpack _ _) | intros Hin];
                      [vm_compute; exact I |]);
    apply list_elem_of_In in Hin; simpl in Hin; intuition discriminate.
Qed.


Lemma keyring_acyclic : acyclic keyring.
Proof.
  exists (λ a, 3 - a). intros a o b Ha Hb. unfold keyring in Ha.
  destruct (decide (a = 1)) as [-> | H1]; [| destruct (decide (a = 2)) as [-> | H2]];
    simplify_map_eq; vm_compute in Hb;
    apply list_elem_of_In in Hb; simpl in Hb; intuition (subst; simpl; lia).
Qed.

Lemma keyring_ordinary : ordinary keyring.
Proof.
  intros a props Ha. unfold keyring in Ha.
  destruct (decide (a = 1)) as [-> | H1]; [| destruct (decide (a = 2)) as [-> | H2]];
    simplify_map_eq; (split; [refine (bool_decide_unpack _ _) | intros Hin];
                      [vm_compute; exact I |]);
    apply list_elem_of_In in Hin; simpl in Hin; intuition discriminate.
Qed.


(** C4, where the code departs from it.  The key [password] matches the
    first expression.  A first call on a body whose only field is
    [password] redacts it and leaves [lastIndex] of that expression at 8;
    the next call then starts its search at 8, finds nothing and lets the
    password through.  The same happens within one call on an array of two
    such bodies. *)
Theorem second_password_not_redacted :
  sensitive_key "password" = true
  ∧ sanitize 8 login_body (VRef 1) SENSITIVE_PATTERNS =
      (TObj [("password", TStr "[REDACTED]")],
       mkRegExp (lits "password") 8 :: tail SENSITIVE_PATTERNS)
  ∧ fst (sanitize 8 login_body (VRef 1)
           (snd (sanitize 8 login_body (VRef 1) SENSITIVE_PATTERNS))) =
      TObj [("password", TStr "secret123")]
  ∧ fst (sanitize 8 login_bodies (VRef 1) SENSITIVE_PATTERNS) =
      TArr [TObj [("password", TStr "[REDACTED]")];
            TObj [("password", TStr "second")]].
Proof. repeat split; vm_compute; reflexivity. Qed.

End Claims.

(** ** More on the queue *)

Section QueueLife.

Implicit Types (q : LogQueue) (m : Machine) (event : LogEvent)
  (events : list LogEvent) (actions : list Action).

(** The queue of [push], whatever it starts. *)
Lemma push_length q event q' b :
  length (queue q) ≤ MAX_QUEUE_SIZE →
  push q event = (q', b) →
  length (queue q') ≤ MAX_QUEUE_SIZE.
Proof.
  pose proof MAX_QUEUE_SIZE_pos as Hpos.
  intros Hlen. unfold push, flush.
  destruct (isShuttingDown q); [by intros [= <- <-] |].
  cbn [queue isFlushing isShuttingDown flushTimer].
  assert (length ((if (MAX_QUEUE_SIZE <=? length (queue q))%nat
                   then tail (queue q) else queue q) ++ [event])
          ≤ MAX_QUEUE_SIZE) as Hkept.
  { rewrite length_app. cbn [length].
    destruct (Nat.leb_spec MAX_QUEUE_SIZE (length (queue q))); [| lia].
    destruct (queue q); cbn [length tail] in *; lia. }
  destruct (BATCH_SIZE <=? _)%nat; [| by intros [= <- <-]].
  destruct (isFlushing q || _); intros [= <- <-]; cbn [queue length]; [exact Hkept | lia].
Qed.

Lemma step_length m a m' :
  length (queue (lq m)) ≤ MAX_QUEUE_SIZE →
  step m a = Some m' →
  length (queue (lq m')) ≤ MAX_QUEUE_SIZE.
Proof.
  intros Hlen Hstep. destruct a as [event | | | i p]; simpl in Hstep.
  - injection Hstep as <-. destruct (push (lq m) event) as [q' b] eqn:Hp.
    apply push_length in Hp; [| done]. by destruct b.
  - destruct (flushTimer (lq m)); [| done]. injection Hstep as <-.
    unfold on_interval, flush.
    destruct (0 <? _)%nat; [| done].
    destruct (isFlushing (lq m) || _); cbn [started lq queue length]; [done | lia].
  - injection Hstep as <-. unfold shutdown. cbn [queue].
    destruct (0 <? _)%nat; cbn [started lq queue length]; [lia | done].
  - destruct (inflight m !! i) as [[[|] batch] |]; [| | done]; injection Hstep as <-.
    + unfold flush_settled. by destruct (promise_catch _ _).
    + unfold shutdown_settled. by destruct p.
Qed.

(** X1. The queue never holds more than [MAX_QUEUE_SIZE] events, in any
    state the machine can reach. *)
Theorem queue_never_exceeds_capacity m :
  reachable m → getQueueSize (lq m) ≤ MAX_QUEUE_SIZE.
Proof.
  intros [actions Hrun]. unfold getQueueSize.
  assert (length (queue (lq initial)) ≤ MAX_QUEUE_SIZE) as Hinit by (cbn; lia).
  revert Hrun Hinit. generalize initial.
  induction actions as [| a actions IH]; intros m0 Hrun Hlen; simpl in Hrun.
  - by injection Hrun as <-.
  - destruct (step m0 a) as [m1 |] eqn:Hstep; [| done].
    eapply IH; [done | by eapply step_length].
Qed.

Lemma queue_never_exceeds_capacity_witness :
  ∃ m, run initial (fifty_pushed ++ [APush (sample_event 50)]) = Some m
       ∧ getQueueSize (lq m) ≤ MAX_QUEUE_SIZE.
Proof.
  destruct (run initial (fifty_pushed ++ [APush (sample_event 50)])) as [m |] eqn:Hrun;
    [| by vm_compute in Hrun].
  exists m. split; [done |].
  apply queue_never_exceeds_capacity. by eexists.
Defined.

(** A step hands over, or keeps, events of the queue and the event pushed,
    in their order. *)
Lemma step_conserves m a m' :
  step m a = Some m' →
  concat (option_list (handed m a)) ++ queue (lq m')
    `sublist_of` queue (lq m) ++ pushed [a].
Proof.
  intros Hstep. destruct a as [event | | | i p]; simpl in Hstep.
  - injection Hstep as <-. cbn [handed pushed omap].
    unfold push, flush. destruct (isShuttingDown (lq m)).
    { cbn. apply sublist_inserts_r. reflexivity. }
    cbn [queue isFlushing isShuttingDown flushTimer].
    assert ((if (MAX_QUEUE_SIZE <=? length (queue (lq m)))%nat
             then tail (queue (lq m)) else queue (lq m)) ++ [event]
            `sublist_of` queue (lq m) ++ [event]) as Hkept.
    { apply sublist_app; [| reflexivity].
      destruct (MAX_QUEUE_SIZE <=? _)%nat; [| reflexivity].
      destruct (queue (lq m)); [reflexivity | apply sublist_cons; reflexivity]. }
    revert Hkept. generalize (if (MAX_QUEUE_SIZE <=? length (queue (lq m)))%nat
                              then tail (queue (lq m)) else queue (lq m)).
    intros kept Hkept.
    destruct (BATCH_SIZE <=? _)%nat; [| exact Hkept].
    destruct (isFlushing (lq m) || _); cbn; rewrite ?app_nil_r; exact Hkept.
  - destruct (flushTimer (lq m)) eqn:Htimer; [| done]. injection Hstep as <-.
    cbn [handed pushed omap]. rewrite Htimer, app_nil_r.
    unfold on_interval, flush. destruct (0 <? _)%nat; [| reflexivity].
    destruct (isFlushing (lq m) || _); cbn; rewrite ?app_nil_r; reflexivity.
  - injection Hstep as <-. cbn [handed pushed omap]. rewrite app_nil_r.
    unfold shutdown. cbn [queue].
    destruct (0 <? _)%nat; cbn; rewrite ?app_nil_r; reflexivity.
  - cbn [handed pushed omap option_list concat app]. rewrite app_nil_r.
    destruct (inflight m !! i) as [[[|] batch] |]; [| | done]; injection Hstep as <-.
    + unfold flush_settled. destruct (promise_catch _ _). reflexivity.
    + unfold shutdown_settled. destruct p; reflexivity.
Qed.

Lemma pushed_cons a actions : pushed (a :: actions) = pushed [a] ++ pushed actions.
Proof. unfold pushed. simpl. by destruct a. Qed.

(** X2. Nothing is sent twice and nothing is reordered: along any run, the
    batches handed to [sendBatch], one after the other, followed by the
    events still in the queue, are events that were pushed, each at most
    once and in the order of the calls to [push]. *)
Theorem dispatch_preserves_order actions : ∀ m0 m,
  run m0 actions = Some m →
  concat (dispatched m0 actions) ++ queue (lq m)
    `sublist_of` queue (lq m0) ++ pushed actions.
Proof.
  induction actions as [| a actions IH]; intros m0 m Hrun; simpl in Hrun.
  - injection Hrun as <-. cbn. rewrite app_nil_r. reflexivity.
  - destruct (step m0 a) as [m1 |] eqn:Hstep; [| done].
    cbn [dispatched]. rewrite Hstep, concat_app, pushed_cons.
    trans (concat (option_list (handed m0 a)) ++ queue (lq m1) ++ pushed actions).
    + rewrite <- app_assoc. apply sublist_app; [reflexivity | by apply IH].
    + rewrite !app_assoc. apply sublist_app; [| reflexivity]. by apply step_conserves.
Qed.

Lemma dispatch_preserves_order_witness :
  ∃ m, run initial (fifty_pushed ++ [APush (sample_event 50); ATick; ASignal]) = Some m
       ∧ concat (dispatched initial
                   (fifty_pushed ++ [APush (sample_event 50); ATick; ASignal]))
           ++ queue (lq m)
         `sublist_of` queue (lq initial)
                      ++ pushed (fifty_pushed ++ [APush (sample_event 50); ATick; ASignal]).
Proof.
  destruct (run initial (fifty_pushed ++ [APush (sample_event 50); ATick; ASignal]))
    as [m |] eqn:Hrun; [| by vm_compute in Hrun].
  exists m. split; [done |]. by apply dispatch_preserves_order.
Defined.

(** A step other than a signal loses nothing while the queue has room. *)
Lemma step_keeps_all m a m' :
  a ≠ ASignal →
  isShuttingDown (lq m) = false →
  length (queue (lq m)) + length (pushed [a]) ≤ MAX_QUEUE_SIZE →
  step m a = Some m' →
  concat (option_list (handed m a)) ++ queue (lq m') = queue (lq m) ++ pushed [a]
  ∧ isShuttingDown (lq m') = false.
Proof.
  intros Hns Hs Hroom Hstep. destruct a as [event | | | i p]; simpl in Hstep; [| | done |].
  - injection Hstep as <-. change (pushed [APush event]) with [event] in *.
    cbn [handed length] in *. unfold push, flush. rewrite Hs.
    cbn [queue isFlushing isShuttingDown flushTimer].
    replace (MAX_QUEUE_SIZE <=? length (queue (lq m)))%nat with false
      by (symmetry; apply Nat.leb_gt; lia).
    destruct (BATCH_SIZE <=? _)%nat; [| done].
    destruct (isFlushing (lq m) || _); cbn; rewrite ?app_nil_r; done.
  - destruct (flushTimer (lq m)) eqn:Htimer; [| done]. injection Hstep as <-.
    change (pushed [ATick]) with (@nil LogEvent).
    cbn [handed]. rewrite Htimer, app_nil_r.
    unfold on_interval, flush. destruct (0 <? _)%nat; [| done].
    destruct (isFlushing (lq m) || _); cbn; rewrite ?app_nil_r; done.
  - change (pushed [ASettle i p]) with (@nil LogEvent).
    cbn [handed option_list concat app]. rewrite app_nil_r.
    destruct (inflight m !! i) as [[[|] batch] |]; [| | done]; injection Hstep as <-.
    + unfold flush_settled. by destruct (promise_catch _ _).
    + unfold shutdown_settled. by destruct p.
Qed.

(** X3. Nothing is lost before shutdown while the queue has room: along a
    run without a signal, from a queue that is not shutting down, during
    which the events in the queue and the events pushed number at most
    [MAX_QUEUE_SIZE], the batches handed to [sendBatch] followed by the
    queue are exactly the events pushed, in the order of the calls. *)
Theorem dispatch_loses_nothing actions : ∀ m0 m,
  ASignal ∉ actions →
  isShuttingDown (lq m0) = false →
  length (queue (lq m0)) + length (pushed actions) ≤ MAX_QUEUE_SIZE →
  run m0 actions = Some m →
  concat (dispatched m0 actions) ++ queue (lq m) = queue (lq m0) ++ pushed actions.
Proof.
  induction actions as [| a actions IH]; intros m0 m Hns Hs Hroom Hrun; simpl in Hrun.
  - injection Hrun as <-. cbn. by rewrite app_nil_r.
  - destruct (step m0 a) as [m1 |] eqn:Hstep; [| done].
    rewrite pushed_cons, length_app in Hroom.
    destruct (step_keeps_all m0 a m1) as [Hkeep Hs1]; [set_solver | done | lia | done |].
    assert (length (queue (lq m1)) ≤ length (queue (lq m0)) + length (pushed [a])) as Hlen.
    { rewrite <- length_app, <- Hkeep, length_app. lia. }
    cbn [dispatched]. rewrite Hstep, concat_app, pushed_cons, <- app_assoc.
    rewrite (IH m1 m); [| set_solver | done | lia | done].
    by rewrite !app_assoc, Hkeep.
Qed.

Lemma dispatch_loses_nothing_witness :
  ∃ m, run initial (fifty_pushed ++ [APush (sample_event 50); ATick]) = Some m
       ∧ concat (dispatched initial (fifty_pushed ++ [APush (sample_event 50); ATick]))
           ++ queue (lq m)
         = queue (lq initial) ++ pushed (fifty_pushed ++ [APush (sample_event 50); ATick]).
Proof.
  destruct (run initial (fifty_pushed ++ [APush (sample_event 50); ATick]))
    as [m |] eqn:Hrun; [| by vm_compute in Hrun].
  exists m. split; [done |].
  apply dispatch_loses_nothing; [| reflexivity | | done].
  - intros Hin. unfold fifty_pushed in Hin.
    apply elem_of_app in Hin as [Hin | Hin].
    + apply list_elem_of_fmap in Hin as (event & Hevent & _). discriminate.
    + repeat (apply elem_of_cons in Hin as [Hin | Hin]; [discriminate |]).
      by apply elem_of_nil in Hin.
  - apply Nat.leb_le. vm_compute. reflexivity.
Defined.

Lemma shutdown_inv_step m a m' :
  shutdown_inv m → step m a = Some m' → shutdown_inv m'.
Proof.
  unfold shutdown_inv. intros Hinv Hstep.
  destruct a as [event | | | i p]; simpl in Hstep.
  - injection Hstep as <-. unfold push, flush.
    destruct (isShuttingDown (lq m)) eqn:Hs; [cbn; intros _; by apply Hinv |].
    cbn [queue isFlushing isShuttingDown flushTimer].
    destruct (BATCH_SIZE <=? _)%nat; [| by cbn].
    destruct (isFlushing (lq m) || _); by cbn.
  - destruct (flushTimer (lq m)) eqn:Htimer; [| done]. injection Hstep as <-.
    unfold on_interval, flush.
    destruct (0 <? _)%nat; [destruct (isFlushing (lq m) || _) |];
      cbn; intros Hs; by destruct (Hinv Hs).
  - injection Hstep as <-. unfold shutdown. cbn [queue].
    destruct (0 <? _)%nat eqn:Hne; cbn; [done |].
    intros _. split; [done |]. apply Nat.ltb_ge in Hne.
    destruct (queue (lq m)); [done | simpl in Hne; lia].
  - destruct (inflight m !! i) as [[[|] batch] |]; [| | done]; injection Hstep as <-.
    + unfold flush_settled. destruct (promise_catch _ _). cbn. exact Hinv.
    + unfold shutdown_settled. destruct p; cbn; exact Hinv.
Qed.

Lemma shutdown_inv_reachable m : reachable m → shutdown_inv m.
Proof.
  intros [actions Hrun].
  assert (shutdown_inv initial) as Hinit by done.
  revert Hrun Hinit. generalize initial.
  induction actions as [| a actions IH]; intros m0 Hrun Hinv; simpl in Hrun.
  - by injection Hrun as <-.
  - destruct (step m0 a) as [m1 |] eqn:Hstep; [| done].
    eauto using shutdown_inv_step.
Qed.

(** X4. Shutdown is final.  In a reachable state in which the queue is
    shutting down, a call to [push] discards its event and changes nothing,
    the timer does not fire any more, and a second signal changes nothing:
    no dispatch is started from then on. *)
Theorem shutdown_is_final m :
  reachable m → isShuttingDown (lq m) = true →
  (∀ event, step m (APush event) = Some m)
  ∧ step m ATick = None
  ∧ step m ASignal = Some m.
Proof.
  intros Hr Hs. destruct (shutdown_inv_reachable m Hr Hs) as [Htimer Hq].
  destruct m as [[q timer flushing down] pending]. simpl in *. subst.
  repeat split.
Qed.

Lemma shutdown_is_final_witness :
  ∃ m, run initial [APush (sample_event 0); ASignal] = Some m
       ∧ (∀ event, step m (APush event) = Some m)
       ∧ step m ATick = None
       ∧ step m ASignal = Some m.
Proof.
  destruct (run initial [APush (sample_event 0); ASignal]) as [m |] eqn:Hrun;
    [| by vm_compute in Hrun].
  exists m. split; [done |].
  apply shutdown_is_final; [by eexists |].
  vm_compute in Hrun. by injection Hrun as <-.
Defined.

(** Pushes that stay below the batch size only fill the queue. *)
Lemma pushes_below_batch events : ∀ waiting timer flushing pending,
  length waiting + length events < BATCH_SIZE →
  run (mkMachine (mkLogQueue waiting timer flushing false) pending) (APush <$> events)
  = Some (mkMachine (mkLogQueue (waiting ++ events) timer flushing false) pending).
Proof.
  pose proof BATCH_le_MAX as HBM.
  induction events as [| event events IH]; intros waiting timer flushing pending Hlen.
  - simpl. by rewrite app_nil_r.
  - cbn [fmap list_fmap run step lq]. unfold push.
    cbn [queue isFlushing isShuttingDown flushTimer].
    cbn [length] in Hlen.
    replace (MAX_QUEUE_SIZE <=? length waiting)%nat with false
      by (symmetry; apply Nat.leb_gt; lia).
    replace (BATCH_SIZE <=? length (waiting ++ [event]))%nat with false
      by (symmetry; apply Nat.leb_gt; rewrite length_app; simpl; lia).
    cbn [started inflight]. rewrite IH by (rewrite length_app; simpl; lia).
    by rewrite <- app_assoc.
Qed.

Lemma run_app actions1 : ∀ actions2 m,
  run m (actions1 ++ actions2) =
  match run m actions1 with
  | Some m' => run m' actions2
  | None => None
  end.
Proof.
  induction actions1 as [| a actions1 IH]; intros actions2 m; simpl; [done |].
  by destruct (step m a).
Qed.

(** X5. The drain of the shutdown handler.  After fewer than [BATCH_SIZE]
    pushes on a new queue, and at least one, a signal hands exactly the
    events pushed, in their order, to one call of [sendBatch], empties the
    queue and clears the timer. *)
Theorem shutdown_drains_the_queue events :
  0 < length events < BATCH_SIZE →
  run initial ((APush <$> events) ++ [ASignal]) =
    Some (mkMachine (mkLogQueue [] false false true) [(ByShutdown, events)]).
Proof.
  intros [Hpos Hlt]. rewrite run_app. unfold initial, new_LogQueue.
  rewrite pushes_below_batch by (simpl; lia).
  cbn [run step lq]. unfold shutdown. cbn [queue app].
  replace (0 <? length events)%nat with true by (symmetry; by apply Nat.ltb_lt).
  done.
Qed.

Lemma shutdown_drains_the_queue_witness :
  run initial ((APush <$> (sample_event <$> seq 0 10)) ++ [ASignal]) =
    Some (mkMachine (mkLogQueue [] false false true)
            [(ByShutdown, sample_event <$> seq 0 10)]).
Proof.
  apply (shutdown_drains_the_queue (sample_event <$> seq 0 10)).
  vm_compute. lia.
Defined.

(** X6. The two triggers of a flush.  The [BATCH_SIZE]-th push on a new
    queue hands all the events pushed, in their order, to one call of
    [sendBatch] and leaves the queue empty and the flag set, without a
    tick of the timer.  A tick of the timer on a new queue that holds
    fewer events, and at least one, does the same; on an empty queue it
    does nothing. *)
Theorem size_and_time_triggers events :
  (length events = BATCH_SIZE →
     run initial (APush <$> events) =
       Some (mkMachine (mkLogQueue [] true true false) [(ByFlush, events)]))
  ∧ (0 < length events < BATCH_SIZE →
       run initial ((APush <$> events) ++ [ATick]) =
         Some (mkMachine (mkLogQueue [] true true false) [(ByFlush, events)]))
  ∧ step initial ATick = Some initial.
Proof.
  pose proof BATCH_le_MAX as HBM.
  split; [| split; [| done]].
  - intros Hlen.
    destruct (decide (events = [])) as [-> | Hne]; [by vm_compute in Hlen |].
    destruct (exists_last Hne) as (front & event & ->).
    rewrite length_app in Hlen. simpl in Hlen.
    rewrite fmap_app, run_app. unfold initial, new_LogQueue.
    rewrite pushes_below_batch by (simpl; lia).
    cbn [fmap list_fmap run step lq app]. unfold push, flush.
    cbn [queue isFlushing isShuttingDown flushTimer].
    replace (MAX_QUEUE_SIZE <=? length front)%nat with false
      by (symmetry; apply Nat.leb_gt; lia).
    replace (BATCH_SIZE <=? length (front ++ [event]))%nat with true
      by (symmetry; apply Nat.leb_le; rewrite length_app; simpl; lia).
    replace (length (front ++ [event]) =? 0)%nat with false
      by (symmetry; apply Nat.eqb_neq; rewrite length_app; simpl; lia).
    done.
  - intros [Hpos Hlt]. rewrite run_app. unfold initial, new_LogQueue.
    rewrite pushes_below_batch by (simpl; lia).
    cbn [run step lq flushTimer app]. unfold on_interval, flush.
    cbn [queue isFlushing].
    replace (0 <? length events)%nat with true by (symmetry; by apply Nat.ltb_lt).
    replace (length events =? 0)%nat with false by (symmetry; apply Nat.eqb_neq; lia).
    done.
Qed.

Lemma size_and_time_triggers_witness :
  run initial fifty_pushed =
    Some (mkMachine (mkLogQueue [] true true false)
            [(ByFlush, sample_event <$> seq 0 50)])
  ∧ run initial ((APush <$> [sample_event 0]) ++ [ATick]) =
      Some (mkMachine (mkLogQueue [] true true false) [(ByFlush, [sample_event 0])]).
Proof.
  split.
  - apply (proj1 (size_and_time_triggers (sample_event <$> seq 0 50))).
    vm_compute. reflexivity.
  - apply (proj1 (proj2 (size_and_time_triggers [sample_event 0]))).
    vm_compute. lia.
Defined.

End QueueLife.

(** ** More on the dispatcher *)

Section Attempts.

Implicit Types (w : World) (config : Config) (logs : list LogEvent).

Lemma post_each_answered w config endpoint : ∀ tls index count tick,
  always_answers w →
  ∃ count' tick',
    post_each w config endpoint tls index count tick =
      (fst (fst (post_each w config endpoint tls index count tick)),
       inl count', tick')
    ∧ schedule (fst (fst (post_each w config endpoint tls index count tick)))
      = Sent <$> seq index (length tls)
    ∧ warnings (fst (fst (post_each w config endpoint tls index count tick))) = [].
Proof.
  induction tls as [| tl tls IH]; intros index count tick Hup.
  - by exists count, tick.
  - cbn [post_each].
    destruct (Hup tick endpoint tl ("Bearer " +:+ apiKey config)) as [status ->].
    destruct (IH (S index) (if is_2xx status then S count else count) (S tick) Hup)
      as (count' & tick' & Heq & Hs & Hw).
    destruct (post_each w config endpoint tls (S index) _ (S tick)) as [[effects r] t].
    cbn [fst snd] in *. injection Heq as -> ->.
    exists count', tick'. split; [done |]. split.
    + cbn [length seq fmap list_fmap]. unfold schedule in *. cbn. by rewrite Hs.
    + unfold warnings in *. cbn. by rewrite Hw.
Qed.

(** X7. A batch whose transmissions are all answered is sent in one
    attempt: with a valid configuration, every log is sent once, in the
    order of the batch, there is no wait and no warning, and the promise
    resolves.  This is so whatever the statuses of the answers: a request
    that is answered with a status outside 2xx is not counted as delivered,
    and is not retried. *)
Theorem answered_batch_is_sent_once w config logs attempt tick :
  isConfigValid config = true → always_answers w →
  schedule (fst (fst (sendBatch w config logs attempt tick)))
    = Sent <$> seq 0 (length logs)
  ∧ warnings (fst (fst (sendBatch w config logs attempt tick))) = []
  ∧ snd (fst (sendBatch w config logs attempt tick)) = Resolved.
Proof.
  intros Hvalid Hup. rewrite sendBatch_body, Hvalid. cbv zeta.
  destruct (post_each_answered w config (baseUrl config +:+ "/api/sdk/logs")
              (fst (transform_all w logs tick)) 0 0 (snd (transform_all w logs tick)) Hup)
    as (count & tick' & Heq & Hs & Hw).
  rewrite Heq. cbn [fst snd]. rewrite transform_all_length in Hs.
  split; [| split; [| done]].
  - change (?x :: ?l ++ ?r) with ((x :: l) ++ r).
    rewrite !schedule_app, Hs.
    by destruct (fst (transform_all w logs tick)); cbn; rewrite app_nil_r.
  - change (?x :: ?l ++ ?r) with ((x :: l) ++ r).
    rewrite !warnings_app, Hw.
    by destruct (fst (transform_all w logs tick)).
Qed.

Lemma grumpy_always_answers : always_answers grumpy.
Proof. intros n url payload authorization. by eexists. Qed.

Lemma answered_batch_is_sent_once_witness :
  let logs := sample_event <$> seq 0 3 in
  schedule (fst (fst (sendBatch grumpy sample_config logs 1 0)))
    = Sent <$> seq 0 (length logs)
  ∧ warnings (fst (fst (sendBatch grumpy sample_config logs 1 0))) = []
  ∧ snd (fst (sendBatch grumpy sample_config logs 1 0)) = Resolved.
Proof.
  intros logs.
  apply (answered_batch_is_sent_once grumpy sample_config logs 1 0);
    [reflexivity | exact grumpy_always_answers].
Defined.

Lemma transform_all_lookup w logs : ∀ tick i payload,
  fst (transform_all w logs tick) !! i = Some payload →
  ∃ log tick', logs !! i = Some log ∧ payload = fst (transform w log tick').
Proof.
  induction logs as [| log logs IH]; intros tick i payload Hi; [done |].
  cbn [transform_all] in Hi.
  destruct (transform w log tick) as [t tick1] eqn:Ht.
  destruct (transform_all w logs tick1) as [ts tick2] eqn:Hts.
  destruct i as [| i]; cbn in Hi.
  - injection Hi as <-. exists log, tick. by rewrite Ht.
  - apply (IH tick1 i payload). by rewrite Hts.
Qed.

Lemma post_each_effects w config endpoint : ∀ tls index count tick e,
  e ∈ fst (fst (post_each w config endpoint tls index count tick)) →
  ∃ j payload, tls !! j = Some payload
               ∧ e = EPost (index + j) endpoint payload ("Bearer " +:+ apiKey config).
Proof.
  induction tls as [| tl tls IH]; intros index count tick e He.
  - by apply elem_of_nil in He.
  - cbn [post_each] in He.
    destruct (axios_post w tick endpoint tl _) as [status | err].
    + destruct (post_each w config endpoint tls (S index) _ (S tick))
        as [[effects r] t] eqn:Hrest.
      cbn [fst] in He. apply elem_of_cons in He as [-> | He].
      * exists 0, tl. by rewrite Nat.add_0_r.
      * destruct (IH (S index) (if is_2xx status then S count else count) (S tick) e)
          as (j & payload & Hj & ->); [by rewrite Hrest |].
        exists (S j), payload. split; [done |]. f_equal. lia.
    + cbn [fst] in He. apply list_elem_of_singleton in He as ->.
      exists 0, tl. by rewrite Nat.add_0_r.
Qed.

(** X9. The wire protocol.  Whatever the world, every request in the trace
    of [sendBatch] goes to [{baseUrl}/api/sdk/logs] with the header
    [Authorization: Bearer {apiKey}], its payload is a transformation of
    the log of the batch at its position, and every wait is of 1000 or
    2000 ms; the call has no other effect than these and diagnostic
    lines. *)
Theorem trace_of_sendBatch w config logs tick :
  Forall (expected_effect w config logs)
         (fst (fst (sendBatch w config logs 1 tick))).
Proof.
  assert (∀ n attempt t, 1 ≤ attempt → MAX_RETRIES - attempt = n →
            Forall (expected_effect w config logs)
                   (fst (fst (sendBatch w config logs attempt t)))) as Hall.
  { induction n as [n IH] using lt_wf_ind. intros attempt t Hone Hn.
    rewrite sendBatch_body. destruct (isConfigValid config);
      [| by repeat constructor].
    cbv zeta.
    assert (Forall (expected_effect w config logs)
              (fst (fst (post_each w config (baseUrl config +:+ "/api/sdk/logs")
                           (fst (transform_all w logs t)) 0 0
                           (snd (transform_all w logs t)))))) as Hposts.
    { apply Forall_forall. intros e He.
      apply post_each_effects in He as (j & payload & Hj & ->).
      apply transform_all_lookup in Hj as (log & tick' & Hlog & ->).
      cbn. repeat split; eauto. }
    assert (Forall (expected_effect w config logs)
              match fst (transform_all w logs t) with
              | [] => []
              | _ :: _ => [ELog LDebug "Sample transformed log entry:"]
              end) as Hsample by (destruct (fst (transform_all w logs t)); by repeat constructor).
    destruct (post_each _ _ _ _ _ _ _) as [[effects [count | e]] tick'];
      cbn [fst snd] in *.
    - apply Forall_cons; split; [done |].
      repeat (apply Forall_app; split; try done). by repeat constructor.
    - destruct (decide (attempt < MAX_RETRIES)) as [Hlt | Hge]; cbn [fst snd].
      + apply Forall_cons; split; [done |].
        repeat (apply Forall_app; split; try done).
        * repeat (apply Forall_cons; split; try done).
          cbn. unfold MAX_RETRIES, INITIAL_RETRY_DELAY in *.
          assert (attempt = 1 ∨ attempt = 2) as [-> | ->] by lia; [by left | by right].
        * apply (IH (MAX_RETRIES - (attempt + 1))); [lia | lia | done].
      + apply Forall_cons; split; [done |].
        repeat (apply Forall_app; split; try done). by repeat constructor. }
  by apply (Hall (MAX_RETRIES - 1) 1 tick).
Qed.

Lemma acts_app l1 l2 : acts (l1 ++ l2) = acts l1 ++ acts l2.
Proof. apply omap_app. Qed.

(** The requests of the loop: one for each payload up to the first
    rejected one, in order, and nothing else. *)
Lemma post_each_requests w config endpoint : ∀ tls index count tick,
  acts (fst (fst (post_each w config endpoint tls index count tick)))
  = fst (fst (post_each w config endpoint tls index count tick))
  ∧ length (fst (fst (post_each w config endpoint tls index count tick)))
    ≤ length tls
  ∧ (tls ≠ [] →
     fst (fst (post_each w config endpoint tls index count tick)) ≠ [])
  ∧ ∀ j e,
      fst (fst (post_each w config endpoint tls index count tick)) !! j = Some e →
      ∃ payload, tls !! j = Some payload
                 ∧ e = EPost (index + j) endpoint payload
                         ("Bearer " +:+ apiKey config).
Proof.
  induction tls as [| tl tls IH]; intros index count tick.
  - cbn. repeat split; done.
  - cbn [post_each].
    destruct (axios_post w tick endpoint tl _) as [status | err].
    + destruct (IH (S index) (if is_2xx status then S count else count) (S tick))
        as (Hacts & Hlen & _ & Hreq).
      destruct (post_each w config endpoint tls (S index) _ (S tick))
        as [[effects r] t].
      cbn [fst snd] in *. split; [unfold acts in *; cbn; by rewrite Hacts |].
      split; [simpl; lia |]. split; [done |].
      intros [| j] e He.
      * injection He as <-. exists tl. by rewrite Nat.add_0_r.
      * destruct (Hreq j e He) as (payload & Hp & ->).
        exists payload. split; [done |]. f_equal. lia.
    + cbn [fst snd]. split; [done |]. split; [simpl; lia |]. split; [done |].
      intros [| j] e He; [| done].
      injection He as <-. exists tl. by rewrite Nat.add_0_r.
Qed.

(** The requests of an attempt, and what follows them. *)
Lemma attempt_then w config logs attempt tick :
  ∃ sent,
    attempt_of w config logs sent
    ∧ (isConfigValid config = true → logs ≠ [] → sent ≠ [])
    ∧ (acts (fst (fst (sendBatch w config logs attempt tick))) = sent
       ∨ (attempt < MAX_RETRIES ∧ isConfigValid config = true ∧ sent ≠ []
          ∧ ∃ tick',
              acts (fst (fst (sendBatch w config logs attempt tick))) =
                sent ++ ESleep (INITIAL_RETRY_DELAY * 2 ^ (attempt - 1))
                :: acts (fst (fst (sendBatch w config logs (attempt + 1) tick'))))).
Proof.
  rewrite sendBatch_body. destruct (isConfigValid config).
  2: { exists []. split; [split; [simpl; lia | done] |]. split; [done | by left]. }
  cbv zeta.
  destruct (post_each_requests w config (baseUrl config +:+ "/api/sdk/logs")
              (fst (transform_all w logs tick)) 0 0 (snd (transform_all w logs tick)))
    as (Hacts & Hlen & Hsome & Hreq).
  rewrite transform_all_length in Hlen.
  assert (logs ≠ [] →
          fst (fst (post_each w config (baseUrl config +:+ "/api/sdk/logs")
                      (fst (transform_all w logs tick)) 0 0
                      (snd (transform_all w logs tick)))) ≠ []) as Hfirst.
  { intros Hlogs. apply Hsome. intros Hnil.
    apply (f_equal length) in Hnil. rewrite transform_all_length in Hnil.
    by destruct logs. }
  exists (fst (fst (post_each w config (baseUrl config +:+ "/api/sdk/logs")
                      (fst (transform_all w logs tick)) 0 0
                      (snd (transform_all w logs tick))))).
  split; [split; [done |] |].
  { intros i e He. destruct (Hreq i e He) as (payload & Hp & ->).
    apply transform_all_lookup in Hp as (log & tick' & Hlog & ->).
    by exists log, tick'. }
  split; [by intros _ |].
  assert (∀ l, acts match fst (transform_all w logs tick) with
                    | [] => []
                    | _ :: _ => [ELog LDebug "Sample transformed log entry:"]
                    end ++ l = l) as Hsample
    by (intros l; by destruct (fst (transform_all w logs tick))).
  destruct (post_each _ _ _ _ _ _ _) as [[effects [count | e]] tick'] eqn:Hpost;
    cbn [fst snd] in *.
  - left. change (?x :: ?l ++ ?r) with ([x] ++ l ++ r).
    rewrite !acts_app, Hacts, Hsample. cbn. by rewrite app_nil_r.
  - assert (effects ≠ []) as Hone.
    { apply Hsome. intros Hnil. rewrite Hnil in Hpost. cbn in Hpost. congruence. }
    destruct (decide (attempt < MAX_RETRIES)) as [Hlt | Hge]; cbn [fst snd].
    + right. split; [done |]. split; [done |]. split; [done |]. exists tick'.
      change (?x :: ?l ++ ?r) with ([x] ++ l ++ r).
      rewrite !acts_app, Hacts, Hsample. by cbn.
    + left. change (?x :: ?l ++ ?r) with ([x] ++ l ++ r).
      rewrite !acts_app, Hacts, Hsample. cbn. by rewrite app_nil_r.
Qed.


End Attempts.

(** ** More on the formatter *)

Section Shape.

Implicit Types (h : Heap) (s : San) (a b : addr) (v obj : Value)
  (ps : list RegExp) (key : string).

#[local] Existing Instance same_sources_refl.
#[local] Existing Instance same_sources_trans.

(** The loop over the elements of an array keeps their number and copies
    the primitives among them. *)
Lemma items_shape frames h : ∀ items s ts s',
  mapM (recursiveSanitize frames h) items s = (Some ts, s') →
  length ts = length items
  ∧ ∀ i p, items !! i = Some (VPrim p) → ts !! i = Some (TPrim p).
Proof.
  induction items as [| v items IH]; intros s ts s' Hrun.
  - by injection Hrun as <- <-.
  - apply mapM_cons_inv in Hrun as [(s1 & _ & ? & _) | (t & s1 & Hv & Hrest)]; [done |].
    destruct Hrest as [[_ ?] | (ts' & Hrest & [= ->])]; [done |].
    destruct (IH _ _ _ Hrest) as [Hlen Hprims].
    split; [simpl; by rewrite Hlen |].
    intros [| i] p Hi; [| by apply Hprims].
    injection Hi as ->. destruct frames; [done |]. by injection Hv as <- _.
Qed.

(** The rounds of the loop over the entries of an object assign to the
    keys in their order; a round assigns a primitive value as it is or,
    when its key matches an expression, may assign the marker. *)
Lemma entries_shape frames h : ∀ props s tps s',
  mapM (sanitize_entry (recursiveSanitize frames h)) props s = (Some tps, s') →
  fst <$> tps = fst <$> props
  ∧ ∀ i key p, props !! i = Some (key, VPrim p) →
      tps !! i = Some (key, TPrim p)
      ∨ (tps !! i = Some (key, TStr REDACTED) ∧ matched_by (patterns s) key = true).
Proof.
  induction props as [| kv props IH]; intros s tps s' Hrun.
  - by injection Hrun as <- <-.
  - apply mapM_cons_inv in Hrun as [(s1 & _ & ? & _) | (kt & s1 & Hkv & Hrest)]; [done |].
    destruct Hrest as [[_ ?] | (tps' & Hrest & [= ->])]; [done |].
    destruct (IH _ _ _ Hrest) as [Hkeys Hprims].
    pose proof Hkv as Hsrc.
    apply sanitize_entry_sources in Hsrc;
      [| intros; by eapply recursiveSanitize_sources].
    apply sanitize_entry_cases in Hkv
      as [(Hyes & [= ->] & ->) | (_ & [(p & Hp & [= ->] & ->) | (c & Hc & Hrec)])].
    + split; [cbn; by rewrite Hkeys |].
      intros [| i] key p Hi.
      * injection Hi as ->. right. split; [done |]. by apply some_test_sound.
      * destruct (Hprims i key p Hi) as [? | [? Hm]]; [by left | right].
        split; [done |]. rewrite <- Hm. by apply matched_by_sources.
    + split; [cbn; by rewrite Hkeys |].
      intros [| i] key p' Hi.
      * left. injection Hi as ->. cbn in Hp. by injection Hp as ->.
      * destruct (Hprims i key p' Hi) as [? | [? Hm]]; [by left | right].
        split; [done |]. rewrite <- Hm. by apply matched_by_sources.
    + destruct Hrec as [[_ ?] | (t & Hrec & [= ->])]; [done |].
      split; [cbn; by rewrite Hkeys |].
      intros [| i] key p' Hi.
      * injection Hi as ->. cbn in Hc. discriminate Hc.
      * destruct (Hprims i key p' Hi) as [? | [? Hm]]; [by left | right].
        split; [done |]. rewrite <- Hm. by apply matched_by_sources.
Qed.

(** Among entries of distinct keys, the key determines the value. *)
Lemma key_determines {A} (l : list (string * A)) key x y :
  NoDup (fst <$> l) → (key, x) ∈ l → (key, y) ∈ l → x = y.
Proof.
  induction l as [| kv l IH]; intros Hnd Hx Hy; [by apply elem_of_nil in Hx |].
  rewrite fmap_cons in Hnd. apply NoDup_cons in Hnd as [Hout Hnd].
  assert (∀ z, (key, z) ∈ l → key ∈ fst <$> l) as Hkey.
  { intros z Hz. apply list_elem_of_fmap. by exists (key, z). }
  apply elem_of_cons in Hx as [<- | Hx]; apply elem_of_cons in Hy as [Hy | Hy].
  - by injection Hy.
  - destruct Hout. by eapply Hkey.
  - subst kv. destruct Hout. by eapply Hkey.
  - by apply IH.
Qed.

(** X11. [sanitize] keeps the shape of what it copies.  When the result is
    a copy (not the sentinel), an array keeps its length and its primitive
    elements.  An object keeps its keys other than [__proto__], in their
    order; a property of that name is not copied, the assignment to a fresh
    object creating none.  Each primitive value under a key it keeps is
    kept, except that the value under a key that matches one of the
    expressions may be replaced by the marker.  A value under a key that
    matches none is never altered. *)
Theorem sanitize_keeps_shape stack h a ps :
  expanded (fst (sanitize stack h (VRef a) ps)) →
  match deref h a with
  | OArr items =>
      ∃ ts, fst (sanitize stack h (VRef a) ps) = TArr ts
            ∧ length ts = length items
            ∧ ∀ i p, items !! i = Some (VPrim p) → ts !! i = Some (TPrim p)
  | OObj props =>
      NoDup (fst <$> props) →
      ∃ tps, fst (sanitize stack h (VRef a) ps) = TObj tps
             ∧ fst <$> tps = filter (λ key, key ≠ "__proto__") (fst <$> props)
             ∧ ∀ key p, (key, VPrim p) ∈ props → key ≠ "__proto__" →
                 (key, TPrim p) ∈ tps
                 ∨ ((key, TStr "[REDACTED]") ∈ tps
                    ∧ matched_by ps key = true)
  end.
Proof.
  unfold sanitize. destruct stack as [| frames]; [done |].
  rewrite recursiveSanitize_ref. rewrite bool_decide_eq_false_2 by set_solver.
  destruct (deref h a) as [items | props];
    destruct (mapM _ _ _) as [[ts |] s'] eqn:Hloop; try done; intros _; cbn [fst].
  - exists ts. split; [done |]. by eapply items_shape.
  - intros Hnd.
    destruct (entries_shape frames h props (entered a (mkSan ∅ ps)) ts s' Hloop)
      as [Hkeys Hprims].
    exists (assign_all ts). split; [done |].
    rewrite assign_all_filter by by rewrite Hkeys.
    split; [by rewrite filter_keys, Hkeys |].
    intros key p [i Hi]%list_elem_of_lookup Hne.
    destruct (Hprims i key p Hi) as [Hkept | [Hred Hm]]; [left | right; split; [| done]];
      (apply list_elem_of_filter; split; [done |]); by eapply list_elem_of_lookup_2.
Qed.

Lemma sanitize_keeps_shape_witness :
  ∃ tps, fst (sanitize 4 polluted (VRef 1) SENSITIVE_PATTERNS) = TObj tps
         ∧ fst <$> tps = ["name"; "token"]
         ∧ (("name", TPrim (PStr "john")) ∈ tps
            ∨ (("name", TStr "[REDACTED]") ∈ tps
               ∧ matched_by SENSITIVE_PATTERNS "name" = true)).
Proof.
  assert (expanded (fst (sanitize 4 polluted (VRef 1) SENSITIVE_PATTERNS)))
    as Hcopy by (vm_compute; exact I).
  assert (NoDup (fst <$> [("__proto__", VRef 2);
                           ("name", VPrim (PStr "john"));
                           ("token", VPrim (PStr "abc"))])) as Hnd
    by (refine (bool_decide_unpack _ _); vm_compute; exact I).
  destruct (sanitize_keeps_shape 4 polluted 1 SENSITIVE_PATTERNS Hcopy Hnd)
    as (tps & Hout & Hkeys & Hprims).
  exists tps. split; [exact Hout |]. split; [exact Hkeys |].
  apply Hprims; [| discriminate].
  right. by left.
Defined.

(** X12. A sensitive key that follows a plain one is redacted, whatever
    earlier calls left in the expressions.  In the object [sanitize] is
    called on, let an entry with a primitive value and a key that matches
    no expression be followed by an entry whose key matches one: in a
    result that is a copy, the second key holds the marker and nothing
    else, and the first holds its value, unless its name is [__proto__],
    which is not copied. *)
Theorem key_after_plain_key_is_redacted stack h a ps before k1 p1 k2 v2 rest tps :
  source <$> ps = source <$> SENSITIVE_PATTERNS →
  deref h a = OObj (before ++ (k1, VPrim p1) :: (k2, v2) :: rest) →
  NoDup (fst <$> before ++ (k1, VPrim p1) :: (k2, v2) :: rest) →
  sensitive_key k1 = false → sensitive_key k2 = true →
  fst (sanitize stack h (VRef a) ps) = TObj tps →
  (k2, TStr "[REDACTED]") ∈ tps
  ∧ (∀ t, (k2, t) ∈ tps → t = TStr "[REDACTED]")
  ∧ (k1 ≠ "__proto__" → (k1, TPrim p1) ∈ tps).
Proof.
  intros Hsrc Hd Hnd Hk1 Hk2. unfold sanitize. destruct stack as [| frames]; [done |].
  rewrite recursiveSanitize_ref. rewrite bool_decide_eq_false_2 by set_solver.
  rewrite Hd. destruct (mapM _ _ _) as [[ts |] s'] eqn:Hloop; [| done].
  cbn [fst]. intros [= <-].
  pose proof (sanitize_entry_keys _ _ _ _ _ Hloop) as Hkeys.
  rewrite assign_all_filter by by rewrite Hkeys.
  apply mapM_middle in Hloop
    as (ts1 & kt1 & ts2 & s1 & s2 & -> & Hlen & Hbefore & Hfirst & Hafter).
  assert (same_sources (entered a (mkSan ∅ ps)) s1) as Hs1.
  { eapply (mapM_related same_sources); [| exact Hbefore].
    intros; eapply sanitize_entry_sources; [| done].
    intros; by eapply recursiveSanitize_sources. }
  assert (∀ key, matched_by (patterns s1) key = sensitive_key key) as Hjudge.
  { intros key. apply matched_by_sources. unfold same_sources in Hs1.
    simpl in Hs1. congruence. }
  assert (k2 ≠ PROTO) as Hproto by (intros ->; vm_compute in Hk2; discriminate).
  apply sanitize_entry_cases in Hfirst
    as [(Hyes & _) | (Hno & [(p & Hp & [= ->] & ->) | (c & Hc & _)])]; cbn [fst snd] in *.
  - apply some_test_sound in Hyes. rewrite Hjudge in Hyes. congruence.
  - injection Hp as <-.
    apply mapM_cons_inv in Hafter as [(s3 & _ & ? & _) | (kt2 & s3 & Hsecond & Hrest)]; [done |].
    destruct Hrest as [[_ ?] | (ts3 & Hrest & [= ->])]; [done |].
    assert (kt2 = (k2, TStr REDACTED)) as ->.
    { apply sanitize_entry_cases in Hsecond
        as [(_ & [= ->] & _) | (Hno2 & _)]; [done |].
      cbn [fst snd tested patterns] in Hno2.
      rewrite (some_test_rewinds _ _ Hno) in Hno2.
      rewrite some_test_exact in Hno2 by apply rewound_zero.
      rewrite (matched_by_sources _ (patterns s1)) in Hno2.
      * rewrite Hjudge in Hno2. congruence.
      * unfold rewound. rewrite <- list_fmap_compose. by apply list_fmap_ext. }
    assert ((k2, TStr REDACTED) ∈ ts1 ++ (k1, TPrim p1) :: (k2, TStr REDACTED) :: ts3)
      as Hin2 by (apply elem_of_app; right; right; by left).
    split; [| split].
    + apply list_elem_of_filter. by split.
    + intros t [_ Ht]%list_elem_of_filter.
      eapply key_determines; [| exact Ht | exact Hin2]. by rewrite Hkeys.
    + intros Hne. apply list_elem_of_filter. split; [done |].
      apply elem_of_app. right. by left.
  - done.
Qed.

Lemma key_after_plain_key_is_redacted_witness :
  let tps := [("name", TPrim (PStr "john")); ("token", TStr "[REDACTED]")] in
  fst (sanitize 4 polluted (VRef 1)
         (mkRegExp (lits "password") 0 :: mkRegExp (lits "token") 5
          :: tail (tail SENSITIVE_PATTERNS))) = TObj tps
  ∧ ("token", TStr "[REDACTED]") ∈ tps
  ∧ ("name", TPrim (PStr "john")) ∈ tps.
Proof.
  intros tps. split; [vm_compute; reflexivity |].
  destruct (key_after_plain_key_is_redacted 4 polluted 1
              (mkRegExp (lits "password") 0 :: mkRegExp (lits "token") 5
               :: tail (tail SENSITIVE_PATTERNS))
              [("__proto__", VRef 2)] "name" (PStr "john") "token"
              (VPrim (PStr "abc")) [] tps)
    as (Hredacted & Honly & Hkept);
    try (vm_compute; reflexivity).
  - refine (bool_decide_unpack _ _). vm_compute. exact I.
  - split; [exact Hredacted |]. apply Hkept. discriminate.
Defined.

End Shape.

Section Caps.

Implicit Types (h : Heap) (body : Value) (headers : list (string * Value)).

(** X13. Redacting headers twice changes nothing more.  The names of the
    result are the names of the headers other than [__proto__], each once:
    a header of that name is dropped, no other is, and none is added or
    renamed. *)
Theorem sanitizeHeaders_idempotent headers :
  sanitizeHeaders (sanitizeHeaders headers) = sanitizeHeaders headers
  ∧ NoDup (fst <$> sanitizeHeaders headers)
  ∧ ∀ key, key ∈ fst <$> sanitizeHeaders headers
           ↔ key ∈ fst <$> headers ∧ key ≠ "__proto__".
Proof.
  assert (fst <$> (header_entry <$> headers) = fst <$> headers) as Hkeys.
  { rewrite <- list_fmap_compose. apply list_fmap_ext. intros _ kv _.
    unfold header_entry. simpl. by destruct (sensitive_header (fst kv)). }
  destruct (assign_all_copied (header_entry <$> headers)) as [Hnd Hproto].
  split; [| split; [done |]].
  - unfold sanitizeHeaders at 1.
    assert (header_entry <$> sanitizeHeaders headers = sanitizeHeaders headers) as ->.
    { rewrite <- (list_fmap_id (sanitizeHeaders headers)) at 2.
      apply list_fmap_ext. intros _ kv Hkv%list_elem_of_lookup_2.
      apply assign_all_elem, list_elem_of_fmap in Hkv as (kv0 & -> & _).
      unfold header_entry.
      destruct (sensitive_header (fst kv0)) eqn:Hk; cbn [fst snd]; by rewrite Hk. }
    by apply assign_all_whole.
  - intros key. unfold sanitizeHeaders. by rewrite assign_all_keys, Hkeys.
Qed.

Lemma truncated_length (s : string) :
  MAX_BODY_SIZE < String.length s →
  String.length (Str.take MAX_BODY_SIZE s +:+ TRUNCATED) = MAX_BODY_SIZE + 15.
Proof.
  intros Hlong. rewrite append_length.
  unfold Str.take. rewrite substring_0_length by lia. done.
Qed.

(** X14. What [capSize] can return.  A falsy body comes back as it is.
    Otherwise the result is the body itself or a string of exactly
    [MAX_BODY_SIZE + 15] characters; so a string returned by [capSize]
    never has more than 10255 characters, and a reference returned by it
    is the body, not a copy. *)
Theorem capSize_bounds stack h body :
  (truthy body = false → capSize stack h body = body)
  ∧ (capSize stack h body = body
     ∨ ∃ s, capSize stack h body = VPrim (PStr s)
            ∧ String.length s = MAX_BODY_SIZE + 15)
  ∧ (∀ s, capSize stack h body = VPrim (PStr s) →
          String.length s ≤ MAX_BODY_SIZE + 15)
  ∧ (∀ a, capSize stack h body = VRef a → body = VRef a).
Proof.
  assert (capSize stack h body = body
          ∨ ∃ s, capSize stack h body = VPrim (PStr s)
                 ∧ String.length s = MAX_BODY_SIZE + 15) as Hcases.
  { unfold capSize. destruct (negb (truthy body)); [by left |].
    assert (∀ text : string,
              (if (MAX_BODY_SIZE <? String.length text)%nat
               then VPrim (PStr (Str.take MAX_BODY_SIZE text +:+ TRUNCATED))
               else body) = body
              ∨ ∃ s, (if (MAX_BODY_SIZE <? String.length text)%nat
                      then VPrim (PStr (Str.take MAX_BODY_SIZE text +:+ TRUNCATED))
                      else body) = VPrim (PStr s)
                     ∧ String.length s = MAX_BODY_SIZE + 15) as Hcut.
    { intros text.
      destruct (Nat.ltb_spec MAX_BODY_SIZE (String.length text)) as [Hlong | Hshort];
        [right; eexists; split; [done | by apply truncated_length] | by left]. }
    destruct body as [[| | | | s] | a]; apply Hcut. }
  split; [| split; [done | split]].
  - intros Hfalsy. unfold capSize. by rewrite Hfalsy.
  - intros s Hs. destruct Hcases as [Hsame | (s' & Hs' & Hlen)].
    + rewrite Hsame in Hs. subst body. unfold capSize in Hsame.
      destruct (negb (truthy (VPrim (PStr s)))) eqn:Hfalsy.
      * destruct s; [simpl; lia | done].
      * destruct (Nat.ltb_spec MAX_BODY_SIZE (String.length s)) as [Hlong | Hshort]; [| lia].
        injection Hsame as Hsame.
        pose proof (truncated_length s Hlong) as Hlen. rewrite Hsame in Hlen. lia.
    + rewrite Hs' in Hs. injection Hs as <-. lia.
  - intros a Ha. destruct Hcases as [Hsame | (s' & Hs' & _)]; congruence.
Qed.

Lemma capSize_bounds_witness :
  capSize 4 user_record (VPrim (PStr "")) = VPrim (PStr "")
  ∧ String.length (Str.replicate 100 "a") ≤ MAX_BODY_SIZE + 15
  ∧ VRef 1 = VRef 1.
Proof.
  destruct (capSize_bounds 4 user_record (VPrim (PStr ""))) as (Hfalsy & _).
  destruct (capSize_bounds 4 user_record (VPrim (PStr (Str.replicate 100 "a"))))
    as (_ & _ & Hstring & _).
  destruct (capSize_bounds 4 user_record (VRef 1)) as (_ & _ & _ & Href).
  split; [by apply Hfalsy |]. split.
  - apply Hstring. vm_compute. reflexivity.
  - apply (Href 1). vm_compute. reflexivity.
Defined.

End Caps.

Section Surroundings.

Implicit Types (env : Env) (w : World) (config : Config) (logs : list LogEvent)
  (h : Heap) (v : Value) (sn : gset addr).

Lemma first_nonempty_empty (a b : option string) :
  first_nonempty a b = "" ↔ nonempty a = None ∧ nonempty b = None.
Proof.
  unfold first_nonempty, nonempty.
  destruct a as [x |], b as [y |]; simpl;
    repeat (match goal with
            | |- context [String.eqb ?s ""] => destruct (String.eqb_spec s "")
            end; simpl); subst; naive_solver.
Qed.

(** X15. The loader warns exactly when sending is disabled.  The
    configuration [loadConfig] returns is valid if and only if the explicit
    configuration or the environment gives a non-empty credential and one
    of them gives a non-empty endpoint; the loader logs a warning exactly
    when it is not; and with a configuration it warned about, [sendBatch]
    sends nothing and resolves. *)
Theorem loader_warns_when_disabled env explicitConfig w logs attempt tick :
  (isConfigValid (fst (loadConfig env explicitConfig)) = true ↔
     (nonempty (explicitConfig ≫= Explicit.apiKey) ≠ None
      ∨ nonempty (env "LOGSENTINEL_API_KEY") ≠ None)
     ∧ (nonempty (explicitConfig ≫= Explicit.baseUrl) ≠ None
        ∨ nonempty (env "LOGSENTINEL_BASE_URL") ≠ None))
  ∧ (warnings (snd (loadConfig env explicitConfig)) = [] ↔
     isConfigValid (fst (loadConfig env explicitConfig)) = true)
  ∧ (warnings (snd (loadConfig env explicitConfig)) ≠ [] →
     sendBatch w (fst (loadConfig env explicitConfig)) logs attempt tick =
       ([ELog LDebug "Config invalid, skipping log send"], Resolved, tick)).
Proof.
  assert (warnings (snd (loadConfig env explicitConfig)) = [] ↔
          isConfigValid (fst (loadConfig env explicitConfig)) = true) as Hwarn.
  { unfold loadConfig, isConfigValid. cbv zeta. cbn [fst snd apiKey baseUrl].
    rewrite !warnings_app.
    destruct (String.eqb (first_nonempty _ (env "LOGSENTINEL_API_KEY")) "");
      destruct (String.eqb (first_nonempty _ (env "LOGSENTINEL_BASE_URL")) "");
      destruct (match explicitConfig ≫= Explicit.debug with
                | Some d => d | None => _ end); by cbn. }
  split; [| split; [exact Hwarn |]].
  - unfold loadConfig, isConfigValid. cbv zeta. cbn [fst snd apiKey baseUrl].
    rewrite andb_true_iff, !negb_true_iff.
    assert (∀ a b, String.eqb (first_nonempty a b) "" = false ↔
                   nonempty a ≠ None ∨ nonempty b ≠ None) as Hone.
    { intros a b. destruct (String.eqb_spec (first_nonempty a b) "") as [He | Hne].
      - apply first_nonempty_empty in He as [-> ->]. naive_solver.
      - split; [intros _ | done].
        destruct (nonempty a) eqn:Ha; [by left |].
        destruct (nonempty b) eqn:Hb; [by right |].
        destruct Hne. by apply first_nonempty_empty. }
    by rewrite !Hone.
  - intros Hwarned. rewrite sendBatch_body.
    destruct (isConfigValid (fst (loadConfig env explicitConfig))); [| done].
    destruct Hwarned. by apply Hwarn.
Qed.

Lemma loader_warns_when_disabled_witness :
  warnings (snd (loadConfig endpoint_only None)) ≠ []
  ∧ sendBatch down (fst (loadConfig endpoint_only None))
      (sample_event <$> seq 0 50) 1 0 =
      ([ELog LDebug "Config invalid, skipping log send"], Resolved, 0).
Proof.
  assert (warnings (snd (loadConfig endpoint_only None)) ≠ []) as Hwarned
    by (vm_compute; discriminate).
  split; [exact Hwarned |].
  by apply (proj2 (proj2 (loader_warns_when_disabled endpoint_only None down
                            (sample_event <$> seq 0 50) 1 0))).
Defined.

Lemma contains_extend (hay needle before after : string) :
  contains hay needle → contains (before +:+ hay +:+ after) needle.
Proof.
  intros (pre & post & ->). exists (before +:+ pre), (post +:+ after).
  assert (∀ a b c : string, (a +:+ b) +:+ c = a +:+ (b +:+ c)) as Hassoc.
  { intros a b c. induction a as [| x a IH]; [done |].
    rewrite !append_cons. by rewrite IH. }
  by rewrite !Hassoc.
Qed.

(** X16. Content types are recognised by substring.  A content type is
    binary exactly when it contains one of the six listed types, and
    multipart exactly when it contains [multipart/form-data]; so text
    before or after a recognised content type (a parameter, say) does not
    change the answer.  An absent content type is neither. *)
Theorem content_type_by_substring (ct : string) :
  (isBinaryContent (Some ct) = true ↔ ∃ type, type ∈ binaryTypes ∧ contains ct type)
  ∧ (isMultipartForm (Some ct) = true ↔ contains ct "multipart/form-data")
  ∧ (∀ before after,
       (isBinaryContent (Some ct) = true →
        isBinaryContent (Some (before +:+ ct +:+ after)) = true)
       ∧ (isMultipartForm (Some ct) = true →
          isMultipartForm (Some (before +:+ ct +:+ after)) = true))
  ∧ isBinaryContent None = false ∧ isMultipartForm None = false.
Proof.
  assert (∀ c, isBinaryContent (Some c) = true ↔
               ∃ type, type ∈ binaryTypes ∧ contains c type) as Hbin.
  { intros c. unfold isBinaryContent, nonempty.
    destruct (String.eqb_spec c "") as [-> | Hne].
    - split; [done |]. intros (type & Hin & (pre & post & Heq)).
      destruct pre; [| done]. cbn in Heq.
      apply list_elem_of_In in Hin. simpl in Hin.
      destruct Hin as [<- | [<- | [<- | [<- | [<- | [<- | []]]]]]]; done.
    - rewrite existsb_exists. split.
      + intros (type & Hin & Hinc). exists type.
        split; [by apply list_elem_of_In | by apply includes_spec].
      + intros (type & Hin & Hc). exists type.
        split; [by apply list_elem_of_In | by apply includes_spec]. }
  split; [apply Hbin |]. split; [apply includes_spec |].
  split; [| done].
  intros before after. split.
  - rewrite !Hbin. intros (type & Hin & Hc). exists type.
    split; [done | by apply contains_extend].
  - unfold isMultipartForm. rewrite !includes_spec. apply contains_extend.
Qed.

Lemma content_type_by_substring_witness :
  isBinaryContent (Some ("" +:+ "image/png" +:+ "; q=1")) = true
  ∧ isMultipartForm
      (Some ("" +:+ "multipart/form-data" +:+ "; boundary=----x")) = true.
Proof.
  destruct (content_type_by_substring "image/png") as (_ & _ & Hbin & _).
  destruct (content_type_by_substring "multipart/form-data") as (_ & _ & Hmulti & _).
  split.
  - apply (proj1 (Hbin "" "; q=1")). reflexivity.
  - apply (proj2 (Hmulti "" "; boundary=----x")). reflexivity.
Defined.

(** X17. A request id generated by the middleware is kept as trace id.  An
    event whose [requestId] comes from [generateRequestId] is transformed,
    in any world and at any time, into a wire event with that id for
    trace id, without a question to the clock or the random source. *)
Theorem generated_request_id_is_kept w tick w' tick' log :
  requestId log = Some (fst (generateRequestId w tick)) →
  trace_id (fst (transform w' log tick')) = fst (generateRequestId w tick)
  ∧ snd (transform w' log tick') = tick'.
Proof.
  intros Hid. unfold transform. rewrite Hid. by cbn.
Qed.

Lemma generated_request_id_is_kept_witness :
  let log := mkLogEvent "2024-01-01T00:00:00.000Z" 12
               (Some (fst (generateRequestId down 0)))
               (RequestLog.mk "GET" "/test" "/test" [] [] (TPrim PUndefined) None)
               None None in
  trace_id (fst (transform grumpy log 7)) = fst (generateRequestId down 0)
  ∧ snd (transform grumpy log 7) = 7.
Proof.
  intros log. by apply (generated_request_id_is_kept down 0 grumpy 7 log).
Defined.

(** X18. [safeStringify] always returns a text.  Whatever the heap, cyclic
    or not, with a call stack deeper than the number of its objects the
    replacer walk returns, the tree it hands to [JSON.stringify] is never
    [undefined], and [safeStringify] returns its serialisation; a value
    that is [undefined] is serialised as the string [[undefined]]. *)
Theorem safeStringify_returns_text stack h v :
  size (dom h) < stack →
  ∃ t sn text,
    replaced stack h v ∅ = (Some t, sn)
    ∧ JSON.stringify t = Some text
    ∧ safeStringify stack h v = text.
Proof.
  intros Hdeep.
  destruct (replaced_returns stack h v ∅) as (t & sn & Hrun & Hdef).
  { replace (dom h ∖ ∅) with (dom h) by set_solver. done. }
  destruct (stringify_defined t Hdef) as [text Htext].
  exists t, sn, text. unfold safeStringify. by rewrite Hrun, Htext.
Qed.

Lemma safeStringify_returns_text_witness :
  ∃ t sn text,
    replaced 3 knot (VRef 1) ∅ = (Some t, sn)
    ∧ JSON.stringify t = Some text
    ∧ safeStringify 3 knot (VRef 1) = text.
Proof.
  apply (safeStringify_returns_text 3 knot (VRef 1)).
  vm_compute. lia.
Defined.

End Surroundings.

Section Resume.

Implicit Types (m : Machine).

(** X19. A flush that settles lets the next one start.  When the dispatch
    started by [flush] settles, resolved or rejected, the flag is cleared
    and no dispatch of [flush] is pending; if events arrived meanwhile and
    the timer is armed, its next tick hands all of them to [sendBatch] and
    empties the queue. *)
Theorem settled_flush_unblocks m i batch p m' :
  reachable m →
  inflight m !! i = Some (ByFlush, batch) →
  step m (ASettle i p) = Some m' →
  isFlushing (lq m') = false
  ∧ pending ByFlush m' = 0
  ∧ queue (lq m') = queue (lq m)
  ∧ (flushTimer (lq m') = true → queue (lq m') ≠ [] →
     step m' ATick =
       Some (mkMachine (mkLogQueue [] true true (isShuttingDown (lq m')))
                       (inflight m' ++ [(ByFlush, queue (lq m'))]))).
Proof.
  intros Hr Hi Hstep.
  assert (reachable m') as Hr'.
  { destruct Hr as [actions Hrun]. exists (actions ++ [ASettle i p]).
    rewrite run_app, Hrun. cbn [run]. by rewrite Hstep. }
  destruct (mutex_inv_reachable m' Hr') as (Hf & _).
  simpl in Hstep. rewrite Hi in Hstep. injection Hstep as <-.
  unfold flush_settled in *. destruct (promise_catch _ _) as [p' effects].
  cbn [fst lq isFlushing queue flushTimer isShuttingDown inflight] in *.
  split; [done |]. split; [done |]. split; [done |].
  intros Htimer Hne. cbn [step lq flushTimer]. rewrite Htimer.
  unfold on_interval, flush. cbn [queue isFlushing flushTimer isShuttingDown].
  destruct (queue (lq m)) as [| event rest]; [done |]. done.
Qed.

Lemma settled_flush_unblocks_witness :
  ∃ m m',
    run initial (fifty_pushed ++ [APush (sample_event 50)]) = Some m
    ∧ step m (ASettle 0 (Rejected "down")) = Some m'
    ∧ isFlushing (lq m') = false
    ∧ pending ByFlush m' = 0
    ∧ queue (lq m') = queue (lq m)
    ∧ (flushTimer (lq m') = true → queue (lq m') ≠ [] →
       step m' ATick =
         Some (mkMachine (mkLogQueue [] true true (isShuttingDown (lq m')))
                         (inflight m' ++ [(ByFlush, queue (lq m'))]))).
Proof.
  destruct (run initial (fifty_pushed ++ [APush (sample_event 50)])) as [m |] eqn:Hrun;
    [| by vm_compute in Hrun].
  destruct (step m (ASettle 0 (Rejected "down"))) as [m' |] eqn:Hstep.
  2: { vm_compute in Hrun. injection Hrun as <-. by vm_compute in Hstep. }
  exists m, m'. split; [done |]. split; [done |].
  apply (settled_flush_unblocks m 0 (sample_event <$> seq 0 50) (Rejected "down") m');
    [by eexists | | done].
  vm_compute in Hrun. by injection Hrun as <-.
Defined.

End Resume.
